(** * Windowing and triggering core of the Dataflow Python SDK

    A shallow embedding of [google/cloud/dataflow/transforms/trigger.py]:
    state tags, the in-memory state backend, the merge adapter, the
    trigger contexts, the trigger functions and the general trigger
    driver, followed by the properties established about them.

    Conventions of the embedding.
    - Python objects mutated in place become explicit state passing in
      the monad [M]; a raised exception aborts the call ([Raises]).
    - [collections.defaultdict] is read through its default: a missing
      entry and an entry holding the default read alike in every method
      of the source, so a lookup does not materialise the entry.
    - [copy.deepcopy] is the identity on the immutable values used here.
    - Dictionaries are finite maps; where the source iterates a
      dictionary the order of the finite map stands for Python's. *)

From stdpp Require Import gmap strings list fin_maps pretty.
From Stdlib Require Import ZArith Lia.

Local Open Scope Z_scope.

(** ** Python values *)

#[warnings="-register-all"]
Inductive pyval : Type :=
| VNone
| VBool (b : bool)
| VInt (z : Z)
| VStr (s : string)
| VObject (name : string)
| VList (l : list pyval).

(** Truth value of an object in a condition ([if x:]). *)
Definition truthy (v : pyval) : bool :=
  match v with
  | VNone => false
  | VBool b => b
  | VInt z => negb (z =? 0)
  | VStr s => match s with EmptyString => false | _ => true end
  | VObject _ => true
  | VList l => match l with [] => false | _ => true end
  end.

(** Integer reading of a value in arithmetic ([True] is 1). *)
Definition as_int (v : pyval) : Z :=
  match v with
  | VInt z => z
  | VBool true => 1
  | _ => 0
  end.

Definition deepcopy (v : pyval) : pyval := v.

(** ** Exceptions and the state monad *)

Inductive exn : Type :=
| ValueError (msg : string)
| KeyError
| IndexError
| AttributeError
| TypeError (msg : string)
| AssertionError
| NonTermination.

Inductive outcome (A : Type) : Type :=
| Returns (a : A)
| Raises (e : exn).
Arguments Returns {A} a.
Arguments Raises {A} e.

Definition M (S A : Type) : Type := S → outcome (A * S).

Definition ret {S A} (a : A) : M S A := λ s, Returns (a, s).

Definition bind {S A B} (c : M S A) (k : A → M S B) : M S B :=
  λ s, match c s with
       | Returns (a, s') => k a s'
       | Raises e => Raises e
       end.

Definition raise {S A} (e : exn) : M S A := λ _, Raises e.

Definition get {S} : M S S := λ s, Returns (s, s).

Definition modify {S} (f : S → S) : M S unit := λ s, Returns (tt, f s).

Notation "'let*' x := c1 'in' c2" := (bind c1 (λ x, c2))
  (at level 10, x name, c1 at level 100, c2 at level 200,
   format "'[v' 'let*'  x  :=  c1  'in' '/' c2 ']'").
Notation "c1 ;; c2" := (bind c1 (λ _, c2))
  (at level 100, c2 at level 200, right associativity).

(** [for x in xs: body x] *)
Fixpoint for_each {S A} (xs : list A) (body : A → M S unit) : M S unit :=
  match xs with
  | [] => ret tt
  | x :: xs' => body x ;; for_each xs' body
  end.

(** [[f x for x in xs]] *)
Fixpoint map_m {S A B} (f : A → M S B) (xs : list A) : M S (list B) :=
  match xs with
  | [] => ret []
  | x :: xs' =>
      let* y := f x in
      let* ys := map_m f xs' in
      ret (y :: ys)
  end.

(** [for x in xs: acc = f acc x]: a loop that builds a local value. *)
Fixpoint fold_m {S A B} (f : B → A → M S B) (acc : B) (xs : list A) : M S B :=
  match xs with
  | [] => ret acc
  | x :: xs' => let* acc := f acc x in fold_m f acc xs'
  end.

(** ** Combine functions

    [core.CombineFn] and [combiners.CountCombineFn] live in modules that
    are not part of the sources at hand; only their interface is used by
    the trigger module. *)

Record CombineFn : Type := {
  create_accumulator : pyval;
  add_input : pyval → pyval → pyval;
  merge_accumulators : list pyval → pyval;
  extract_output : pyval → pyval
}.

(** Modelled from the spec: [CombineFn.apply] is missing from the sources;
    a [Combining] tag "folds into an accumulator" on write and reads as
    [extract_output(accumulator)], the accumulator of no input being the
    empty accumulator. *)
Definition apply (cf : CombineFn) (elements : list pyval) : pyval :=
  extract_output cf (foldl (add_input cf) (create_accumulator cf) elements).

(** Modelled from the spec: [combiners.CountCombineFn] is missing from the
    sources; the tags built on it are "a counter tag incremented by 1 per
    element": the accumulator is the number of inputs folded in,
    accumulators merge by addition and extraction is the identity. *)
Definition CountCombineFn : CombineFn := {|
  create_accumulator := VInt 0;
  add_input := λ acc element, VInt (as_int acc + 1);
  merge_accumulators := λ accs, VInt (foldr (λ a s, as_int a + s) 0 accs);
  extract_output := λ acc, acc
|}.

(** Modelled from the spec: [core.CombineFn.from_callable] is missing from
    the sources; a tag [Combining[fn]] built from a plain callable folds
    [fn] over the values written and reads the unwritten cell as
    [fn(())]. The object [_EMPTY] marks the accumulator of no input. *)
Definition _EMPTY : pyval := VObject "_EMPTY".

Definition is_EMPTY (v : pyval) : bool :=
  match v with
  | VObject name => bool_decide (name = "_EMPTY"%string)
  | _ => false
  end.

Definition from_callable (fn : list pyval → pyval) : CombineFn := {|
  create_accumulator := _EMPTY;
  add_input := λ acc element,
    if is_EMPTY acc then fn [element] else fn [acc; element];
  merge_accumulators := fn;
  extract_output := λ acc, if is_EMPTY acc then fn [] else acc
|}.

(** Python's builtin [any]. *)
Definition py_any (xs : list pyval) : pyval := VBool (existsb truthy xs).

(** ** State tags *)

Inductive StateTag : Type :=
| ValueStateTag (tag : string)
| CombiningValueStateTag (tag : string) (combine_fn : CombineFn)
| ListStateTag (tag : string).

(** The [tag] attribute set by [StateTag.__init__]. *)
Definition tag (t : StateTag) : string :=
  match t with
  | ValueStateTag s => s
  | CombiningValueStateTag s _ => s
  | ListStateTag s => s
  end.

Definition with_prefix (t : StateTag) (prefix : string) : StateTag :=
  match t with
  | ValueStateTag s => ValueStateTag (prefix +:+ s)
  | CombiningValueStateTag s cf => CombiningValueStateTag (prefix +:+ s) cf
  | ListStateTag s => ListStateTag (prefix +:+ s)
  end.

(** ** Windows

    Modelled from the spec: the window classes are missing from the
    sources; a window is "an interval of event time with a start and end",
    equal when its bounds are. *)

Record window : Type := IntervalWindow { w_start : Z; w_end : Z }.

#[global] Instance window_eq_dec : EqDecision window.
Proof. solve_decision. Defined.

#[global] Instance window_countable : Countable window.
Proof.
  refine (inj_countable' (λ w, (w_start w, w_end w))
                         (λ p, IntervalWindow p.1 p.2) _).
  by intros [].
Defined.

(** The watermark handed to a trigger: a timestamp, or [float('-inf')]
    on the element path. *)
Inductive watermark : Type :=
| NegInf
| At (t : Z).

(** [watermark >= window.end] *)
Definition watermark_ge (wm : watermark) (t : Z) : bool :=
  match wm with
  | NegInf => false
  | At t' => bool_decide (t ≤ t')
  end.

(** ** The in-memory state backend ([InMemoryUnmergedState])

    [K] is the type of the keys the backend is addressed with (windows,
    or the internal ids of the merge adapter) and [G] the type of the
    values kept in the global area. *)

Record InMemoryUnmergedState (K G : Type) `{Countable K} : Type := {
  timers : gmap K (gmap string Z);
  state : gmap K (gmap string pyval);
  global_state : gmap string G;
  defensive_copy : bool
}.
Arguments timers {K G _ _} _.
Arguments state {K G _ _} _.
Arguments global_state {K G _ _} _.
Arguments defensive_copy {K G _ _} _.

Module InMemory.
Section ops.
Context {K G : Type} `{Countable K}.
Abbreviation T := (InMemoryUnmergedState K G).

(** [InMemoryUnmergedState.__init__] *)
Definition init (defensive_copy : bool) : T :=
  {| timers := ∅; state := ∅; global_state := ∅;
     defensive_copy := defensive_copy |}.

Definition with_timers (f : gmap K (gmap string Z) → gmap K (gmap string Z))
    (s : T) : T :=
  {| timers := f (timers s); state := state s;
     global_state := global_state s; defensive_copy := defensive_copy s |}.

Definition with_state (f : gmap K (gmap string pyval) → gmap K (gmap string pyval))
    (s : T) : T :=
  {| timers := timers s; state := f (state s);
     global_state := global_state s; defensive_copy := defensive_copy s |}.

(** [self.state[window][name]] of the nested [defaultdict]. *)
Definition cell (s : T) (w : K) (name : string) : pyval :=
  default (VList []) (default ∅ (state s !! w) !! name).

(** [self.state[window][name] = v] *)
Definition set_cell (w : K) (name : string) (v : pyval) (s : T) : T :=
  with_state (λ st, <[w := <[name := v]> (default ∅ (st !! w))]> st) s.

Definition set_global_state (t : StateTag) (value : G) : M T unit :=
  match t with
  | ValueStateTag name =>
      modify (λ s, {| timers := timers s; state := state s;
                      global_state := <[name := value]> (global_state s);
                      defensive_copy := defensive_copy s |})
  | _ => raise AssertionError
  end.

Definition get_global_state (t : StateTag) (dflt : G) : M T G :=
  let* s := get in ret (default dflt (global_state s !! tag t)).

Definition set_timer (w : K) (name : string) (timestamp : Z) : M T unit :=
  modify (with_timers (λ tm, <[w := <[name := timestamp]> (default ∅ (tm !! w))]> tm)).

Definition clear_timer (w : K) (name : string) : M T unit :=
  modify (with_timers (λ tm,
    match tm !! w with
    | Some d => <[w := delete name d]> tm
    | None => tm
    end)).

Definition get_window (timer_id : K) : M T K := ret timer_id.

Definition add_state (w : K) (t : StateTag) (value : pyval) : M T unit :=
  let* s := get in
  let value := if defensive_copy s then deepcopy value else value in
  match t with
  | ValueStateTag name => modify (set_cell w name value)
  | CombiningValueStateTag name _
  | ListStateTag name =>
      match cell s w name with
      | VList l => modify (set_cell w name (VList (l ++ [value])))
      | _ => raise AttributeError
      end
  end.

Definition get_state (w : K) (t : StateTag) : M T pyval :=
  let* s := get in
  let values := cell s w (tag t) in
  match t with
  | ValueStateTag _ => ret values
  | CombiningValueStateTag _ combine_fn =>
      match values with
      | VList l => ret (apply combine_fn l)
      | _ => raise (TypeError "not iterable")
      end
  | ListStateTag _ => ret values
  end.

Definition clear_state (w : K) (t : option StateTag) : M T unit :=
  match t with
  | None => modify (with_state (delete w))
  | Some t =>
      modify (with_state (λ st,
        match st !! w with
        | Some d => <[w := delete (tag t) d]> st
        | None => st
        end))
  end.

(** [timestamp <= watermark]; [None] is the default watermark
    [float('inf')]. *)
Definition expired_at (watermark : option Z) (timestamp : Z) : bool :=
  match watermark with
  | None => true
  | Some wm => bool_decide (timestamp ≤ wm)
  end.

(** [del timers[tag]] on the dictionary of window [w]. *)
Definition del_timer (w : K) (name : string) : M T unit :=
  let* s := get in
  match default ∅ (timers s !! w) !! name with
  | Some _ =>
      modify (with_timers (λ tm, <[w := delete name (default ∅ (tm !! w))]> tm))
  | None => raise KeyError
  end.

(** The body of the inner loop of [get_and_clear_timers]. *)
Definition expire_timer (watermark : option Z) (w : K)
    (expired : list (K * (string * Z))) (item : string * Z) :
    M T (list (K * (string * Z))) :=
  if expired_at watermark item.2 then
    del_timer w item.1 ;;
    ret (expired ++ [(w, (item.1, item.2))])
  else ret expired.

(** The body of its outer loop: the timers of one window, then
    [if not timers: del self.timers[window]]. *)
Definition expire_window (watermark : option Z)
    (expired : list (K * (string * Z))) (item : K * gmap string Z) :
    M T (list (K * (string * Z))) :=
  let* expired :=
    fold_m (expire_timer watermark item.1) expired (map_to_list item.2) in
  let* s := get in
  (if bool_decide (default ∅ (timers s !! item.1) = ∅)
   then modify (with_timers (delete item.1))
   else ret tt) ;;
  ret expired.

(** Both loops run over a copy of the items ([list(...items())]); the
    order of a dictionary's items is not fixed by the language. *)
Definition get_and_clear_timers (watermark : option Z) :
    M T (list (K * (string * Z))) :=
  let* s := get in
  fold_m (expire_window watermark) [] (map_to_list (timers s)).

End ops.
End InMemory.

(** ** The state interface seen by contexts ([SimpleState]) *)

Module SimpleState.
Class ops (W S : Type) : Type := {
  set_timer : W → string → Z → M S unit;
  clear_timer : W → string → M S unit;
  add_state : W → StateTag → pyval → M S unit;
  get_state : W → StateTag → M S pyval;
  clear_state : W → option StateTag → M S unit
}.
End SimpleState.

#[global] Instance InMemory_SimpleState {K G} `{Countable K} :
  SimpleState.ops K (InMemoryUnmergedState K G) := {|
  SimpleState.set_timer := InMemory.set_timer;
  SimpleState.clear_timer := InMemory.clear_timer;
  SimpleState.add_state := InMemory.add_state;
  SimpleState.get_state := InMemory.get_state;
  SimpleState.clear_state := InMemory.clear_state
|}.

(** ** The merge adapter ([MergeableStateAdapter]) *)

Abbreviation raw_backend := (InMemoryUnmergedState Z (gmap window (list Z))).

Record MergeableStateAdapter : Type := {
  raw_state : raw_backend;
  window_ids : gmap window (list Z);
  counter : option Z
}.

Module Adapter.

Abbreviation T := MergeableStateAdapter.

Definition WINDOW_IDS : StateTag := ValueStateTag "window_ids".

(** [MergeableStateAdapter.__init__] *)
Definition init (raw : raw_backend) : T :=
  {| raw_state := raw;
     window_ids := default ∅ (global_state raw !! tag WINDOW_IDS);
     counter := None |}.

(** Run a method of the wrapped backend. *)
Definition on_raw {A} (c : M raw_backend A) : M T A :=
  λ a, match c (raw_state a) with
       | Returns (x, raw') =>
           Returns (x, {| raw_state := raw'; window_ids := window_ids a;
                          counter := counter a |})
       | Raises e => Raises e
       end.

Definition set_window_ids (m : gmap window (list Z)) (a : T) : T :=
  {| raw_state := raw_state a; window_ids := m; counter := counter a |}.

Definition set_counter (c : Z) (a : T) : T :=
  {| raw_state := raw_state a; window_ids := window_ids a; counter := Some c |}.

Definition _persist_window_ids : M T unit :=
  let* a := get in
  on_raw (InMemory.set_global_state WINDOW_IDS (window_ids a)).

(** [k for ids in self.window_ids.values() for k in ids] *)
Definition all_ids (m : gmap window (list Z)) : list Z :=
  mjoin ((map_to_list m).*2).

Definition py_max (ks : list Z) : M T Z :=
  match ks with
  | [] => raise (ValueError "max() arg is an empty sequence")
  | k :: ks' => ret (foldl Z.max k ks')
  end.

Definition _get_next_counter : M T Z :=
  let* a := get in
  let* c :=
    if bool_decide (window_ids a = ∅) then ret 0
    else match counter a with
         | None => py_max (all_ids (window_ids a))
         | Some c => ret c
         end in
  modify (set_counter (c + 1)) ;;
  ret (c + 1).

Definition _get_id (w : window) : M T Z :=
  let* a := get in
  match window_ids a !! w with
  | Some ids =>
      match ids with
      | id :: _ => ret id
      | [] => raise IndexError
      end
  | None =>
      let* window_id := _get_next_counter in
      modify (λ a, set_window_ids (<[w := [window_id]]> (window_ids a)) a) ;;
      _persist_window_ids ;;
      ret window_id
  end.

Definition _get_ids (w : window) : M T (list Z) :=
  let* a := get in ret (default [] (window_ids a !! w)).

Definition set_timer (w : window) (name : string) (timestamp : Z) : M T unit :=
  let* id := _get_id w in
  on_raw (InMemory.set_timer id name timestamp).

Definition clear_timer (w : window) (timer : string) : M T unit :=
  let* ids := _get_ids w in
  for_each ids (λ window_id, on_raw (InMemory.clear_timer window_id timer)).

Definition non_mergeable : exn :=
  ValueError "Merging requested for non-mergeable state tag".

Definition add_state (w : window) (t : StateTag) (value : pyval) : M T unit :=
  match t with
  | ValueStateTag _ => raise non_mergeable
  | _ =>
      let* id := _get_id w in
      on_raw (InMemory.add_state id t value)
  end.

(** [[v for vs in values for v in vs]] *)
Fixpoint flatten (values : list pyval) : M T (list pyval) :=
  match values with
  | [] => ret []
  | VList vs :: rest => let* tl := flatten rest in ret (vs ++ tl)
  | _ :: _ => raise (TypeError "not iterable")
  end.

Definition get_state (w : window) (t : StateTag) : M T pyval :=
  let* ids := _get_ids w in
  let* values := map_m (λ window_id, on_raw (InMemory.get_state window_id t)) ids in
  match t with
  | ValueStateTag _ => raise non_mergeable
  | CombiningValueStateTag _ combine_fn =>
      let accumulator :=
        match values with
        | [] => create_accumulator combine_fn
        | [v] => v
        | _ => merge_accumulators combine_fn values
        end in
      ret (extract_output combine_fn accumulator)
  | ListStateTag _ =>
      let* vs := flatten values in ret (VList vs)
  end.

Definition clear_state (w : window) (t : option StateTag) : M T unit :=
  let* ids := _get_ids w in
  for_each ids (λ window_id, on_raw (InMemory.clear_state window_id t)) ;;
  match t with
  | None =>
      let* a := get in
      match window_ids a !! w with
      | Some _ =>
          modify (set_window_ids (delete w (window_ids a))) ;;
          _persist_window_ids
      | None => raise KeyError
      end
  | Some _ => ret tt
  end.

(** The body of the loop of [merge] for one window of [to_be_merged]. *)
Definition merge_one (merge_result : window) (w : window) : M T unit :=
  if bool_decide (w ≠ merge_result) then
    let* a := get in
    match window_ids a !! w with
    | Some ids =>
        let merge_window_ids := default [] (window_ids a !! merge_result) in
        modify (set_window_ids
                  (<[merge_result := merge_window_ids ++ ids]>
                     (delete w (window_ids a)))) ;;
        _persist_window_ids
    | None => ret tt
    end
  else ret tt.

Definition merge (to_be_merged : list window) (merge_result : window) : M T unit :=
  for_each to_be_merged (merge_one merge_result).

Definition known_windows (a : T) : list window :=
  (map_to_list (window_ids a)).*1.

Definition get_window (timer_id : Z) : M T window :=
  let* a := get in
  match list_find (λ p : window * list Z, timer_id ∈ p.2)
          (map_to_list (window_ids a)) with
  | Some (_, (w, _)) => ret w
  | None => raise (ValueError "No window for timer")
  end.

End Adapter.

#[global] Instance Adapter_SimpleState :
  SimpleState.ops window MergeableStateAdapter := {|
  SimpleState.set_timer := Adapter.set_timer;
  SimpleState.clear_timer := Adapter.clear_timer;
  SimpleState.add_state := Adapter.add_state;
  SimpleState.get_state := Adapter.get_state;
  SimpleState.clear_state := Adapter.clear_state
|}.

(** ** Contexts ([TriggerContext], [NestedContext]) *)

Inductive context (W : Type) : Type :=
| TriggerContext (w : W)
| NestedContext (outer : context W) (prefix : string).
Arguments TriggerContext {W} w.
Arguments NestedContext {W} outer prefix.

Module Ctx.
Section ops.
Context {W S : Type} `{SimpleState.ops W S}.

Fixpoint set_timer (c : context W) (name : string) (timestamp : Z) : M S unit :=
  match c with
  | TriggerContext w => SimpleState.set_timer w name timestamp
  | NestedContext outer prefix => set_timer outer (prefix +:+ name) timestamp
  end.

Fixpoint clear_timer (c : context W) (name : string) : M S unit :=
  match c with
  | TriggerContext w => SimpleState.clear_timer w name
  | NestedContext outer prefix => clear_timer outer (prefix +:+ name)
  end.

Fixpoint add_state (c : context W) (t : StateTag) (value : pyval) : M S unit :=
  match c with
  | TriggerContext w => SimpleState.add_state w t value
  | NestedContext outer prefix => add_state outer (with_prefix t prefix) value
  end.

Fixpoint get_state (c : context W) (t : StateTag) : M S pyval :=
  match c with
  | TriggerContext w => SimpleState.get_state w t
  | NestedContext outer prefix => get_state outer (with_prefix t prefix)
  end.

Fixpoint clear_state (c : context W) (t : StateTag) : M S unit :=
  match c with
  | TriggerContext w => SimpleState.clear_state w (Some t)
  | NestedContext outer prefix => clear_state outer (with_prefix t prefix)
  end.

End ops.
End Ctx.

(** The window a context works on and the prefix it puts before a tag:
    what the chain of [NestedContext]s around a [TriggerContext] adds up
    to. *)
Fixpoint window_of {W} (c : context W) : W :=
  match c with
  | TriggerContext w => w
  | NestedContext outer _ => window_of outer
  end.

Fixpoint prefix_of {W} (c : context W) : string :=
  match c with
  | TriggerContext _ => ""
  | NestedContext outer prefix => prefix_of outer +:+ prefix
  end.

(** ** Trigger functions ([TriggerFn])

    The abstract class becomes a record of its five methods over a state
    interface; [should_fire] and [on_fire] return the truth value of the
    Python result ([None] reads as false). *)

Record TriggerFn (S : Type) : Type := {
  on_element : pyval → window → context window → M S unit;
  on_merge : list window → window → context window → M S unit;
  should_fire : watermark → window → context window → M S bool;
  on_fire : watermark → window → context window → M S bool;
  reset : window → context window → M S unit
}.
Arguments on_element {S} _ _ _ _.
Arguments on_merge {S} _ _ _ _.
Arguments should_fire {S} _ _ _ _.
Arguments on_fire {S} _ _ _ _.
Arguments reset {S} _ _ _.

(** [value >= count] for a counter read from state; the ordering of a
    non-number against a number is left out of the model. *)
Definition py_ge {S} (v : pyval) (n : Z) : M S bool :=
  match v with
  | VInt z => ret (bool_decide (n ≤ z))
  | VBool b => ret (bool_decide (n ≤ as_int (VBool b)))
  | _ => raise (TypeError "unorderable types")
  end.

Section triggers.
Context {S : Type} `{SimpleState.ops window S}.

(** [for window in to_be_merged: if window.end != merge_result.end:
    context.clear_timer('')] *)
Definition clear_moved_timers (to_be_merged : list window)
    (merge_result : window) (c : context window) : M S unit :=
  for_each to_be_merged (λ w,
    if bool_decide (w_end w ≠ w_end merge_result)
    then Ctx.clear_timer c ""
    else ret tt).

Definition DefaultTrigger : TriggerFn S := {|
  on_element := λ element w c, Ctx.set_timer c "" (w_end w);
  on_merge := clear_moved_timers;
  should_fire := λ wm w c, ret (watermark_ge wm (w_end w));
  on_fire := λ wm w c, ret false;
  reset := λ w c, Ctx.clear_timer c ""
|}.

Definition COUNT_TAG : StateTag := CombiningValueStateTag "count" CountCombineFn.

Definition AfterCount (count : Z) : TriggerFn S := {|
  on_element := λ element w c, Ctx.add_state c COUNT_TAG (VInt 1);
  on_merge := λ to_be_merged merge_result c, ret tt;
  should_fire := λ wm w c,
    let* n := Ctx.get_state c COUNT_TAG in py_ge n count;
  on_fire := λ wm w c, ret true;
  reset := λ w c, Ctx.clear_state c COUNT_TAG
|}.

Definition Repeatedly (underlying : TriggerFn S) : TriggerFn S := {|
  on_element := λ element w c, on_element underlying element w c;
  on_merge := λ to_be_merged merge_result c,
    on_merge underlying to_be_merged merge_result c;
  should_fire := λ wm w c, should_fire underlying wm w c;
  on_fire := λ wm w c,
    let* finished := on_fire underlying wm w c in
    (if finished then reset underlying w c else ret tt) ;;
    ret false;
  reset := λ w c, reset underlying w c
|}.

Definition LATE_TAG : StateTag :=
  CombiningValueStateTag "is_late" (from_callable py_any).

(** [self.late and context.get_state(self.LATE_TAG)]: the late trigger
    when the window is in its late phase. *)
Definition is_late (late : option (TriggerFn S)) (c : context window) :
    M S (option (TriggerFn S)) :=
  match late with
  | None => ret None
  | Some l =>
      let* flag := Ctx.get_state c LATE_TAG in
      ret (if truthy flag then Some l else None)
  end.

(** [if t: body t] for an optional subtrigger. *)
Definition when_some (t : option (TriggerFn S)) (body : TriggerFn S → M S unit) :
    M S unit :=
  match t with
  | Some t => body t
  | None => ret tt
  end.

Definition AfterWatermark (early late : option (TriggerFn S)) : TriggerFn S :=
  let early := Repeatedly <$> early in
  let late := Repeatedly <$> late in
  {| on_element := λ element w c,
       let* phase := is_late late c in
       match phase with
       | Some l => on_element l element w (NestedContext c "late")
       | None =>
           Ctx.set_timer c "" (w_end w) ;;
           when_some early (λ e, on_element e element w (NestedContext c "early"))
       end;
     on_merge := λ to_be_merged merge_result c,
       let* phase := is_late late c in
       match phase with
       | Some l => on_merge l to_be_merged merge_result (NestedContext c "late")
       | None =>
           clear_moved_timers to_be_merged merge_result c ;;
           when_some early (λ e,
             on_merge e to_be_merged merge_result (NestedContext c "early"))
       end;
     should_fire := λ wm w c,
       let* phase := is_late late c in
       match phase with
       | Some l => should_fire l wm w (NestedContext c "late")
       | None =>
           if watermark_ge wm (w_end w) then ret true
           else match early with
                | Some e => should_fire e wm w (NestedContext c "early")
                | None => ret false
                end
       end;
     on_fire := λ wm w c,
       let* phase := is_late late c in
       match phase with
       | Some l => on_fire l wm w (NestedContext c "late")
       | None =>
           if watermark_ge wm (w_end w) then
             Ctx.add_state c LATE_TAG (VBool true) ;;
             ret (negb (bool_decide (is_Some late)))
           else match early with
                | Some e =>
                    on_fire e wm w (NestedContext c "early") ;; ret false
                | None => ret false
                end
       end;
     reset := λ w c,
       when_some late (λ _, Ctx.clear_state c LATE_TAG) ;;
       when_some early (λ e, reset e w (NestedContext c "early")) ;;
       when_some late (λ l, reset l w (NestedContext c "late"))
  |}.

End triggers.

(** ** Composite triggers ([ParallelTriggerFn], [AfterFirst], [AfterAll],
    [OrFinally]) *)

(** [enumerate(xs)], counting from [start]. *)
Fixpoint enumerate_from {A} (start : nat) (xs : list A) : list (nat * A) :=
  match xs with
  | [] => []
  | x :: xs' => (start, x) :: enumerate_from (Datatypes.S start) xs'
  end.

Definition enumerate {A} (xs : list A) : list (nat * A) := enumerate_from 0 xs.

(** Python's [any] and [all] over results that are computed one after
    the other: once the result is known the rest is not computed. *)
Fixpoint py_any_of {S} (items : list (M S bool)) : M S bool :=
  match items with
  | [] => ret false
  | item :: rest =>
      let* b := item in
      if b then ret true else py_any_of rest
  end.

Fixpoint py_all_of {S} (items : list (M S bool)) : M S bool :=
  match items with
  | [] => ret true
  | item :: rest =>
      let* b := item in
      if b then py_all_of rest else ret false
  end.

Section composite_triggers.
Context {S : Type} `{SimpleState.ops window S}.

(** [NestedContext(context, '%d/' % index)] *)
Definition _sub_context (c : context window) (index : nat) : context window :=
  NestedContext c (pretty index +:+ "/").

(** The body of the loop of [ParallelTriggerFn.on_fire]. *)
Definition fire_one (wm : watermark) (w : window) (c : context window)
    (finished : list bool) (item : nat * TriggerFn S) : M S (list bool) :=
  let nested_context := _sub_context c item.1 in
  let* fire := should_fire item.2 wm w nested_context in
  if fire then
    let* fin := on_fire item.2 wm w nested_context in
    ret (finished ++ [fin])
  else ret finished.

(** The abstract [combine_op] is a parameter; [should_fire] hands it a
    generator, [on_fire] a list. *)
Definition ParallelTriggerFn (combine_op : list (M S bool) → M S bool)
    (triggers : list (TriggerFn S)) : TriggerFn S := {|
  on_element := λ element w c,
    for_each (enumerate triggers) (λ item,
      on_element item.2 element w (_sub_context c item.1));
  on_merge := λ to_be_merged merge_result c,
    for_each (enumerate triggers) (λ item,
      on_merge item.2 to_be_merged merge_result (_sub_context c item.1));
  should_fire := λ wm w c,
    combine_op ((λ item, should_fire item.2 wm w (_sub_context c item.1))
                  <$> enumerate triggers);
  on_fire := λ wm w c,
    let* finished := fold_m (fire_one wm w c) [] (enumerate triggers) in
    combine_op (ret <$> finished);
  reset := λ w c,
    for_each (enumerate triggers) (λ item,
      reset item.2 w (_sub_context c item.1))
|}.

Definition AfterFirst : list (TriggerFn S) → TriggerFn S :=
  ParallelTriggerFn py_any_of.

Definition AfterAll : list (TriggerFn S) → TriggerFn S :=
  ParallelTriggerFn py_all_of.

Definition OrFinally (body_trigger exit_trigger : TriggerFn S) : TriggerFn S :=
  AfterFirst [body_trigger; exit_trigger].

End composite_triggers.

(** ** The general trigger driver ([GeneralTriggerDriver]) *)

Inductive AccumulationMode : Type :=
| DISCARDING
| ACCUMULATING.

Record WindowedValue : Type := {
  value : pyval;
  timestamp : Z;
  windows : list window
}.

(** Modelled from the spec: [WindowFn] is missing from the sources; its
    [merge(all_windows, merge_context)] has
    [merge_context.merge(to_be_merged, merge_result)] as "the sole
    side-effect channel", so a window function is given by the calls it
    makes on the context for a universe of windows. *)
Record WindowFn : Type := {
  merge_calls : list window → list (list window * window)
}.

Record GeneralTriggerDriver : Type := {
  window_fn : WindowFn;
  trigger_fn : TriggerFn MergeableStateAdapter;
  accumulation_mode : AccumulationMode
}.

Definition pane : Type := window * pyval.

Module Driver.

Definition ELEMENTS : StateTag := ListStateTag "elements".
Definition TOMBSTONE : StateTag := CombiningValueStateTag "tombstone" CountCombineFn.

(** [state = MergeableStateAdapter(state)]: [__init__] sets
    [is_merging = True] unconditionally, so every call works through the
    adapter and leaves its effects in the wrapped backend. *)
Definition wrapped {A} (c : M MergeableStateAdapter A) : M raw_backend A :=
  λ raw, match c (Adapter.init raw) with
         | Returns (x, a) => Returns (x, raw_state a)
         | Raises e => Raises e
         end.

(** [d[window].extend(values)] on a [defaultdict(list)], keys kept in
    insertion order. *)
Fixpoint extend (w : window) (values : list pyval)
    (d : list (window * list pyval)) : list (window * list pyval) :=
  match d with
  | [] => [(w, values)]
  | (w', vs) :: d' =>
      if bool_decide (w = w') then (w', vs ++ values) :: d'
      else (w', vs) :: extend w values d'
  end.

Definition bucket (windowed_values : list WindowedValue) :
    list (window * list pyval) :=
  foldl (λ d wv, foldl (λ d w, extend w [value wv] d) d (windows wv))
        [] windowed_values.

(** [TriggerMergeContext.merge] *)
Definition context_merge (drv : GeneralTriggerDriver)
    (merged_away : gmap window window)
    (to_be_merged : list window) (merge_result : window) :
    M MergeableStateAdapter (gmap window window) :=
  let merged_away :=
    foldl (λ ma w, if bool_decide (w ≠ merge_result)
                   then <[w := merge_result]> ma else ma)
          merged_away to_be_merged in
  Adapter.merge to_be_merged merge_result ;;
  on_merge (trigger_fn drv) to_be_merged merge_result
           (TriggerContext merge_result) ;;
  ret merged_away.

Fixpoint run_merges (drv : GeneralTriggerDriver)
    (calls : list (list window * window)) (merged_away : gmap window window) :
    M MergeableStateAdapter (gmap window window) :=
  match calls with
  | [] => ret merged_away
  | (to_be_merged, merge_result) :: calls' =>
      let* merged_away := context_merge drv merged_away to_be_merged merge_result in
      run_merges drv calls' merged_away
  end.

(** [while window in merged_away: window = merged_away[window]]; the
    loop runs forever exactly when it takes more steps than the
    dictionary has keys. *)
Fixpoint chase (fuel : nat) (merged_away : gmap window window) (w : window) :
    option window :=
  match merged_away !! w with
  | None => Some w
  | Some w' =>
      match fuel with
      | O => None
      | Datatypes.S fuel' => chase fuel' merged_away w'
      end
  end.

Fixpoint rewrite_buckets (merged_away : gmap window window)
    (items : list (window * list pyval))
    (merged : list (window * list pyval)) :
    M MergeableStateAdapter (list (window * list pyval)) :=
  match items with
  | [] => ret merged
  | (w, values) :: items' =>
      match chase (size merged_away) merged_away w with
      | Some w' => rewrite_buckets merged_away items' (extend w' values merged)
      | None => raise NonTermination
      end
  end.

Definition handle_merging (drv : GeneralTriggerDriver)
    (windows_to_elements : list (window * list pyval)) :
    M MergeableStateAdapter (list (window * list pyval)) :=
  let* a := get in
  let old_windows : gset window := list_to_set (Adapter.known_windows a) in
  let all_windows : gset window :=
    old_windows ∪ list_to_set (windows_to_elements.*1) in
  if bool_decide (all_windows ≠ old_windows) then
    let* merged_away :=
      run_merges drv (merge_calls (window_fn drv) (elements all_windows)) ∅ in
    rewrite_buckets merged_away windows_to_elements []
  else ret windows_to_elements.

Definition _output (drv : GeneralTriggerDriver) (w : window) (finished : bool) :
    M MergeableStateAdapter pane :=
  let* values := Adapter.get_state w ELEMENTS in
  (if finished then
     Adapter.clear_state w None ;;
     Adapter.add_state w TOMBSTONE (VInt 1)
   else match accumulation_mode drv with
        | DISCARDING => Adapter.clear_state w (Some ELEMENTS)
        | ACCUMULATING => ret tt
        end) ;;
  ret (w, values).

(** [should_fire], then [on_fire] and [_output] when it holds: the panes
    yielded at this point of the generator. *)
Definition maybe_fire (drv : GeneralTriggerDriver) (wm : watermark)
    (w : window) : M MergeableStateAdapter (list pane) :=
  let c := TriggerContext w in
  let* fire := should_fire (trigger_fn drv) wm w c in
  if fire then
    let* finished := on_fire (trigger_fn drv) wm w c in
    let* p := _output drv w finished in
    ret [p]
  else ret [].

Definition add_elements (drv : GeneralTriggerDriver) (w : window)
    (values : list pyval) : M MergeableStateAdapter unit :=
  for_each values (λ v,
    Adapter.add_state w ELEMENTS v ;;
    on_element (trigger_fn drv) v w (TriggerContext w)).

(** The body of the element loop for one window: a tombstoned window is
    skipped ([continue]); otherwise its values are added and the window
    may fire, with [float('-inf')] as the watermark. *)
Definition process_window (drv : GeneralTriggerDriver) (w : window)
    (values : list pyval) : M MergeableStateAdapter (list pane) :=
  let* tombstone := Adapter.get_state w TOMBSTONE in
  if truthy tombstone then ret []
  else
    add_elements drv w values ;;
    maybe_fire drv NegInf w.

Fixpoint element_loop (drv : GeneralTriggerDriver)
    (items : list (window * list pyval)) : M MergeableStateAdapter (list pane) :=
  match items with
  | [] => ret []
  | (w, values) :: items' =>
      let* fired := process_window drv w values in
      let* later := element_loop drv items' in
      ret (fired ++ later)
  end.

Definition process_elements (drv : GeneralTriggerDriver)
    (windowed_values : list WindowedValue) : M raw_backend (list pane) :=
  wrapped (
    let* windows_to_elements := handle_merging drv (bucket windowed_values) in
    element_loop drv windows_to_elements).

Definition process_timer (drv : GeneralTriggerDriver) (timer_id : Z)
    (timestamp : Z) (unused_tag : string) : M raw_backend (list pane) :=
  wrapped (
    let* w := Adapter.get_window timer_id in
    let* tombstone := Adapter.get_state w TOMBSTONE in
    if truthy tombstone then ret []
    else
      let* a := get in
      if bool_decide (w ∈ Adapter.known_windows a)
      then maybe_fire drv (At timestamp) w
      else ret []).

End Driver.

(** ** Runs of the driver, observations and example inputs *)

(** The calls the runtime makes on a driver over one backend. *)
Inductive event : Type :=
| Elements (windowed_values : list WindowedValue)
| Timer (timer_id : Z) (timestamp : Z) (name : string).

Definition step (drv : GeneralTriggerDriver) (ev : event) :
    M raw_backend (list pane) :=
  match ev with
  | Elements wvs => Driver.process_elements drv wvs
  | Timer timer_id timestamp name =>
      Driver.process_timer drv timer_id timestamp name
  end.

Fixpoint run (drv : GeneralTriggerDriver) (evs : list event) :
    M raw_backend (list pane) :=
  match evs with
  | [] => ret []
  | ev :: evs' =>
      let* panes := step drv ev in
      let* later := run drv evs' in
      ret (panes ++ later)
  end.

(** The elements of a list-valued cell. *)
Definition as_list (v : pyval) : list pyval :=
  match v with
  | VList l => l
  | _ => []
  end.

(** What the backend returns for a [Combining] tag at one internal id. *)
Definition raw_value (cf : CombineFn) (raw : raw_backend) (name : string)
    (id : Z) : pyval :=
  apply cf (as_list (InMemory.cell raw id name)).

(** The accumulator [MergeableStateAdapter.get_state] extracts from. *)
Definition accumulator_of (cf : CombineFn) (values : list pyval) : pyval :=
  match values with
  | [] => create_accumulator cf
  | [v] => v
  | _ => merge_accumulators cf values
  end.

(** The value a tag reads from a cell that was never written. *)
Definition unwritten (t : StateTag) : pyval :=
  match t with
  | ValueStateTag _ => VList []
  | CombiningValueStateTag _ cf => extract_output cf (create_accumulator cf)
  | ListStateTag _ => VList []
  end.

(** A combiner whose output is not its accumulator: it counts its inputs
    and reports the count as a percentage of one input. *)
Definition PercentCombineFn : CombineFn := {|
  create_accumulator := VInt 0;
  add_input := λ acc element, VInt (as_int acc + 1);
  merge_accumulators := λ accs, VInt (foldr (λ a s, as_int a + s) 0 accs);
  extract_output := λ acc, VInt (100 * as_int acc)
|}.

Definition PERCENT_TAG : StateTag := CombiningValueStateTag "percent" PercentCombineFn.

Definition empty_backend : raw_backend := InMemory.init true.

Definition W0 : window := IntervalWindow 0 60.

(** The state of an adapter after running [c] on it. *)
Definition state_after {S A} (c : M S A) (s : S) : S :=
  match c s with
  | Returns (_, s') => s'
  | Raises _ => s
  end.

(** A non-merging window function (fixed or global windows). *)
Definition no_merging : WindowFn := {| merge_calls := λ _, [] |}.

Definition count_driver (n : Z) (mode : AccumulationMode) : GeneralTriggerDriver :=
  {| window_fn := no_merging; trigger_fn := AfterCount n;
     accumulation_mode := mode |}.

Definition in_W0 (z : Z) : WindowedValue :=
  {| value := VInt z; timestamp := 0; windows := [W0] |}.

(** The adapter state in which [W0] has exactly one internal id and one
    value written under [PERCENT_TAG]. *)
Definition one_id_state : MergeableStateAdapter :=
  state_after (Adapter.add_state W0 PERCENT_TAG (VInt 5)) (Adapter.init empty_backend).


(** ** Invariants of the merge adapter *)

(** [id] is one of the internal ids of window [w]. *)
Definition holds (m : gmap window (list Z)) (w : window) (id : Z) : Prop :=
  ∃ ids, m !! w = Some ids ∧ id ∈ ids.

(** [id] is above every internal id of the map. *)
Definition fresh_above (m : gmap window (list Z)) (id : Z) : Prop :=
  ∀ w k, holds m w k → k < id.

Record ids_wf (m : gmap window (list Z)) (c : option Z) : Prop := {
  wf_nonempty : ∀ w, m !! w ≠ Some [];
  wf_nodup : ∀ w ids, m !! w = Some ids → NoDup ids;
  wf_disjoint : ∀ w1 w2 id, holds m w1 id → holds m w2 id → w1 = w2;
  wf_counter : ∀ k w id, c = Some k → holds m w id → id ≤ k
}.

(** The id map kept by the adapter is the one stored in the backend's
    global area. *)
Definition persisted (a : MergeableStateAdapter) : Prop :=
  default ∅ (global_state (raw_state a) !! "window_ids"%string) = window_ids a.

Record good (a : MergeableStateAdapter) : Prop := {
  good_ids : ids_wf (window_ids a) (counter a);
  good_persisted : persisted a;
  good_cells : ∀ id name, ∃ l, InMemory.cell (raw_state a) id name = VList l;
  good_owned : ∀ id, is_Some (state (raw_state a) !! id) →
                     ∃ w, holds (window_ids a) w id
}.

(** The state-changing methods of the adapter. *)
Inductive adapter_call : Type :=
| CallSetTimer (w : window) (name : string) (timestamp : Z)
| CallClearTimer (w : window) (name : string)
| CallAddState (w : window) (t : StateTag) (v : pyval)
| CallClearState (w : window) (t : option StateTag)
| CallMerge (to_be_merged : list window) (merge_result : window).

Definition call (c : adapter_call) : M MergeableStateAdapter unit :=
  match c with
  | CallSetTimer w name timestamp => Adapter.set_timer w name timestamp
  | CallClearTimer w name => Adapter.clear_timer w name
  | CallAddState w t v => Adapter.add_state w t v
  | CallClearState w t => Adapter.clear_state w t
  | CallMerge to_be_merged merge_result => Adapter.merge to_be_merged merge_result
  end.

(** The adapter states a backend can be brought to: a new adapter over
    an empty backend, a method call, or a new adapter over the backend
    an earlier one has worked on. *)
Inductive reachable : MergeableStateAdapter → Prop :=
| reachable_new (dc : bool) : reachable (Adapter.init (InMemory.init dc))
| reachable_call a c a' :
    reachable a → call c a = Returns (tt, a') → reachable a'
| reachable_rewrap a : reachable a → reachable (Adapter.init (raw_state a)).

(** The adapter with its id map replaced and persisted. *)
Definition with_ids (m : gmap window (list Z)) (a : MergeableStateAdapter) :
    MergeableStateAdapter :=
  {| raw_state :=
       {| timers := timers (raw_state a); state := state (raw_state a);
          global_state := <["window_ids"%string := m]> (global_state (raw_state a));
          defensive_copy := defensive_copy (raw_state a) |};
     window_ids := m; counter := counter a |}.

(** The adapter over a changed backend. *)
Definition with_raw (f : raw_backend → raw_backend) (a : MergeableStateAdapter) :
    MergeableStateAdapter :=
  {| raw_state := f (raw_state a); window_ids := window_ids a;
     counter := counter a |}.

(** The backend after [clear_state(id, None)] for each of [ids]. *)
Definition drop_ids (ids : list Z) (raw : raw_backend) : raw_backend :=
  foldl (λ r id, InMemory.with_state (delete id) r) raw ids.

(** The backend after [clear_state(id, tag)] for each of [ids]. *)
Definition drop_cell (name : string) (id : Z) (raw : raw_backend) : raw_backend :=
  InMemory.with_state (λ st,
    match st !! id with
    | Some d => <[id := delete name d]> st
    | None => st
    end) raw.

Definition drop_cells (name : string) (ids : list Z) (raw : raw_backend) :
    raw_backend :=
  foldl (λ r id, drop_cell name id r) raw ids.

(** ** Observations of a window's state through the adapter *)

Definition ids_of (a : MergeableStateAdapter) (w : window) : list Z :=
  default [] (window_ids a !! w).

Definition known (a : MergeableStateAdapter) (w : window) : Prop :=
  is_Some (window_ids a !! w).

(** The values written under [name] for window [w], over its internal
    ids in the order of its id-list. *)
Definition cells_of (a : MergeableStateAdapter) (name : string) (w : window) :
    list pyval :=
  mjoin ((λ id, as_list (InMemory.cell (raw_state a) id name)) <$> ids_of a w).

(** The elements held for [w]: what [get_state(w, ELEMENTS)] returns. *)
Definition held (a : MergeableStateAdapter) (w : window) : list pyval :=
  cells_of a "elements" w.

(** [w] has its [TOMBSTONE] counter set. *)
Definition tombstoned (a : MergeableStateAdapter) (w : window) : Prop :=
  cells_of a "tombstone" w ≠ [].

(** Window [w] has the same ids, with the same state, in [a'] as in [a]. *)
Definition untouched (w : window) (a a' : MergeableStateAdapter) : Prop :=
  window_ids a' !! w = window_ids a !! w ∧
  ∀ id, id ∈ ids_of a w →
        state (raw_state a') !! id = state (raw_state a) !! id.

Definition others_untouched (w : window) (a a' : MergeableStateAdapter) : Prop :=
  ∀ w', w' ≠ w → untouched w' a a'.

(** Two overlapping session windows merged into a third. *)
Definition W1 : window := IntervalWindow 30 90.
Definition W01 : window := IntervalWindow 0 90.

Definition W0_written : MergeableStateAdapter :=
  state_after (call (CallAddState W0 (ListStateTag "elements") (VInt 1)))
    (Adapter.init empty_backend).

Definition W1_written : MergeableStateAdapter :=
  state_after (call (CallAddState W1 (ListStateTag "elements") (VInt 2)))
    W0_written.

Definition merged_state : MergeableStateAdapter :=
  state_after (call (CallMerge [W0; W1] W01)) W1_written.


(** ** Observations of the driver *)

(** The backend satisfies the adapter's invariant when wrapped anew. *)
Definition good_raw (raw : raw_backend) : Prop := good (Adapter.init raw).

(** The panes emitted for window [w]. *)
Definition panes_for (w : window) (panes : list pane) : list pane :=
  filter (λ p, p.1 = w) panes.

(** The elements carried by the panes emitted for window [w]. *)
Definition pane_values (w : window) (panes : list pane) : list pyval :=
  mjoin ((λ p, as_list p.2) <$> panes_for w panes).

(** The values of a bundle addressed to window [w], one for each
    occurrence of [w] among the windows of a value. *)
Definition addressed (windowed_values : list WindowedValue) (w : window) :
    list pyval :=
  mjoin ((λ wv, mjoin ((λ w', if decide (w' = w) then [value wv] else [])
                          <$> windows wv))
           <$> windowed_values).

(** The values one window's buckets hold. *)
Definition bucket_values (d : list (window * list pyval)) (w : window) :
    list pyval :=
  mjoin ((λ p, if decide (p.1 = w) then p.2 else []) <$> d).

(** A trigger operation on window [w] keeps the invariant, the window,
    its elements and its tombstone, and the state of the other windows. *)
Record keeps_window (w : window) (a a' : MergeableStateAdapter) : Prop := {
  kw_good : good a';
  kw_known : known a' w;
  kw_others : others_untouched w a a';
  kw_elements : cells_of a' "elements" w = cells_of a "elements" w;
  kw_tombstone : cells_of a' "tombstone" w = cells_of a "tombstone" w
}.

(** The triggers the driver's guarantees are stated for: on a window that
    has state, the operations the driver calls return and touch neither
    the driver's own tags nor other windows. *)
Record well_behaved (T : TriggerFn MergeableStateAdapter) : Prop := {
  wb_on_element : ∀ a w v, good a → known a w →
    ∃ a', on_element T v w (TriggerContext w) a = Returns (tt, a') ∧
          keeps_window w a a';
  wb_should_fire : ∀ a w wm, good a → known a w →
    ∃ b a', should_fire T wm w (TriggerContext w) a = Returns (b, a') ∧
            keeps_window w a a';
  wb_on_fire : ∀ a w wm, good a → known a w →
    ∃ b a', on_fire T wm w (TriggerContext w) a = Returns (b, a') ∧
            keeps_window w a a';
  wb_reset : ∀ a w, good a → known a w →
    ∃ a', reset T w (TriggerContext w) a = Returns (tt, a') ∧
          keeps_window w a a'
}.

(** The window function never merges (fixed, sliding or global windows). *)
Definition never_merges (f : WindowFn) : Prop := ∀ ws, merge_calls f ws = [].

(** What [should_fire]/[on_fire]/[_output] leave behind for the window. *)
Definition fired (drv : GeneralTriggerDriver) (w : window)
    (a : MergeableStateAdapter) (panes : list pane) (a' : MergeableStateAdapter) :
    Prop :=
  (panes = [] ∧ held a' w = held a w ∧
   cells_of a' "tombstone" w = cells_of a "tombstone" w) ∨
  (panes = [(w, VList (held a w))] ∧
   ((held a' w = [] ∧
     (tombstoned a' w ∨ accumulation_mode drv = DISCARDING)) ∨
    (accumulation_mode drv = ACCUMULATING ∧ held a' w = held a w ∧
     cells_of a' "tombstone" w = cells_of a "tombstone" w))).

(** What the element loop leaves behind for one window with values: a
    tombstoned window is skipped; otherwise the values join the elements
    held and the window may fire. *)
Definition window_step (drv : GeneralTriggerDriver) (w : window)
    (values : list pyval) (a : MergeableStateAdapter) (panes : list pane)
    (a' : MergeableStateAdapter) : Prop :=
  (tombstoned a w ∧ panes = [] ∧ untouched w a a') ∨
  (¬ tombstoned a w ∧ known a' w ∧
   ((panes = [] ∧ held a' w ≡ₚ held a w ++ values ∧ ¬ tombstoned a' w) ∨
    (∃ vs, panes = [(w, VList vs)] ∧ vs ≡ₚ held a w ++ values ∧
       ((held a' w = [] ∧
         (tombstoned a' w ∨ accumulation_mode drv = DISCARDING)) ∨
        (accumulation_mode drv = ACCUMULATING ∧ held a' w = vs ∧
         ¬ tombstoned a' w))))).

(** The value of the counter [AfterCount] keeps for a window. *)
Definition count_of (a : MergeableStateAdapter) (w : window) : Z :=
  Z.of_nat (length (cells_of a "count" w)).

Definition driver_of (f : WindowFn) (T : TriggerFn MergeableStateAdapter)
    (mode : AccumulationMode) : GeneralTriggerDriver :=
  {| window_fn := f; trigger_fn := T; accumulation_mode := mode |}.

(** The values a call adds to the [ELEMENTS] state of window [w]: those
    a bundle addresses to it, unless its tombstone is set. *)
Definition added_by (ev : event) (raw : raw_backend) (w : window) : list pyval :=
  match ev with
  | Elements wvs =>
      match cells_of (Adapter.init raw) "tombstone" w with
      | [] => addressed wvs w
      | _ => []
      end
  | Timer _ _ _ => []
  end.

(** The values a run adds to the [ELEMENTS] state of window [w]. *)
Fixpoint appended (drv : GeneralTriggerDriver) (evs : list event)
    (raw : raw_backend) (w : window) : list pyval :=
  match evs with
  | [] => []
  | ev :: evs' =>
      added_by ev raw w ++
      match step drv ev raw with
      | Returns (_, raw') => appended drv evs' raw' w
      | Raises _ => []
      end
  end.

(** Each pane carries at least the elements of the one before it, the
    first at least [lower]. *)
Fixpoint grows (lower : list pyval) (panes : list pane) : Prop :=
  match panes with
  | [] => True
  | p :: panes' => lower ⊆+ as_list p.2 ∧ grows (as_list p.2) panes'
  end.

(** The elements of the last pane of a list, [lower] when it has none. *)
Definition last_of (lower : list pyval) (panes : list pane) : list pyval :=
  match last panes with
  | Some p => as_list p.2
  | None => lower
  end.


(** ** Example states of the driver *)

(** The backend after [AfterCount(1)] has fired and finished [W0]. *)
Definition fired_backend : raw_backend :=
  state_after (Driver.process_elements (count_driver 1 DISCARDING) [in_W0 7])
    empty_backend.

(** The backend in which [W0] holds one element and has not fired. *)
Definition holding_backend : raw_backend :=
  state_after (Driver.process_elements (count_driver 3 DISCARDING) [in_W0 7])
    empty_backend.

(** ** Observations of the in-memory backend *)

(** The timestamp of timer [name] of window [w], if it is set. *)
Definition timer_of {K G} `{Countable K} (s : InMemoryUnmergedState K G)
    (w : K) (name : string) : option Z :=
  default ∅ (timers s !! w) !! name.

(** What a tag reads from a cell holding the list [l]. *)
Definition read_as (t : StateTag) (l : list pyval) : pyval :=
  match t with
  | CombiningValueStateTag _ cf => apply cf l
  | _ => VList l
  end.


(** ** Observations of the merging path *)

(** The window the loop [while window in merged_away] is at after [n]
    steps, if it gets that far. *)
Fixpoint walk (merged_away : gmap window window) (n : nat) (w : window) :
    option window :=
  match n with
  | O => Some w
  | Datatypes.S n' => merged_away !! w ≫= walk merged_away n'
  end.

(** The driver [drv] with another window function. *)
Definition with_window_fn (f : WindowFn) (drv : GeneralTriggerDriver) :
    GeneralTriggerDriver :=
  {| window_fn := f; trigger_fn := trigger_fn drv;
     accumulation_mode := accumulation_mode drv |}.

(** A window function that merges all windows into [r]. *)
Definition merge_all_into (r : window) : WindowFn :=
  {| merge_calls := λ ws, [(ws, r)] |}.


(** ** Triggers in nested contexts *)

(** The strings [t] can end with. *)
Fixpoint suffixes (t : string) : list string :=
  t :: match t with
       | EmptyString => []
       | String _ t' => suffixes t'
       end.

(** A trigger that is well-behaved in every context, nested or not, of a
    window that has state. *)
Record well_behaved_nested (T : TriggerFn MergeableStateAdapter) : Prop := {
  wn_on_element : ∀ a w c v, good a → known a (window_of c) →
    ∃ a', on_element T v w c a = Returns (tt, a') ∧
          keeps_window (window_of c) a a';
  wn_should_fire : ∀ a w c wm, good a → known a (window_of c) →
    ∃ b a', should_fire T wm w c a = Returns (b, a') ∧
            keeps_window (window_of c) a a';
  wn_on_fire : ∀ a w c wm, good a → known a (window_of c) →
    ∃ b a', on_fire T wm w c a = Returns (b, a') ∧
            keeps_window (window_of c) a a';
  wn_reset : ∀ a w c, good a → known a (window_of c) →
    ∃ a', reset T w c a = Returns (tt, a') ∧
          keeps_window (window_of c) a a'
}.

(** An operation that returns a truth value and keeps window [w]. *)
Definition keeps (w : window) (item : M MergeableStateAdapter bool) : Prop :=
  ∀ a, good a → known a w →
       ∃ b a', item a = Returns (b, a') ∧ keeps_window w a a'.


(** * Properties *)

(** ** Monad and backend basics *)

Lemma on_raw_get_state (a : MergeableStateAdapter) (id : Z) (t : StateTag) v :
  InMemory.get_state id t (raw_state a) = Returns (v, raw_state a) →
  Adapter.on_raw (InMemory.get_state id t) a = Returns (v, a).
Proof.
  intros Hr. unfold Adapter.on_raw. rewrite Hr. by destruct a.
Qed.

Lemma InMemory_get_state_pure {K G} `{Countable K}
    (s : InMemoryUnmergedState K G) (w : K) (t : StateTag) v s' :
  InMemory.get_state w t s = Returns (v, s') → s' = s.
Proof.
  unfold InMemory.get_state, bind, get, ret, raise.
  destruct t; try destruct (InMemory.cell s w _); intros; simplify_eq; done.
Qed.

(** ** Nested contexts (C9) *)

Lemma string_append_assoc (p q s : string) :
  p +:+ (q +:+ s) = (p +:+ q) +:+ s.
Proof.
  induction p as [|ch p IH]; [done|].
  change (String ch (p +:+ (q +:+ s)) = String ch ((p +:+ q) +:+ s)).
  by rewrite IH.
Qed.

Lemma with_prefix_twice (t : StateTag) (p q : string) :
  with_prefix (with_prefix t q) p = with_prefix t (p +:+ q).
Proof. destruct t; cbn [with_prefix]; by rewrite string_append_assoc. Qed.

(** C9: a state or timer operation through
    [NestedContext(NestedContext(ctx, "a/"), "b/")] is the operation on
    [ctx] itself with the tag prefixed by ["a/b/"]
    ([tag.with_prefix("a/b/")] for state, ["a/b/" + tag] for timers); this
    holds for writes, reads and clears, over every state backend and every
    base context. *)
Theorem nested_context_composes
    {W S : Type} `{SimpleState.ops W S}
    (ctx : context W) (t : StateTag) (v : pyval) (name : string) (ts : Z) :
  let nested := NestedContext (NestedContext ctx "a/") "b/" in
  Ctx.add_state nested t v = Ctx.add_state ctx (with_prefix t "a/b/") v ∧
  Ctx.get_state nested t = Ctx.get_state ctx (with_prefix t "a/b/") ∧
  Ctx.clear_state nested t = Ctx.clear_state ctx (with_prefix t "a/b/") ∧
  Ctx.set_timer nested name ts = Ctx.set_timer ctx ("a/b/" +:+ name) ts ∧
  Ctx.clear_timer nested name = Ctx.clear_timer ctx ("a/b/" +:+ name).
Proof.
  cbn [Ctx.add_state Ctx.get_state Ctx.clear_state Ctx.set_timer Ctx.clear_timer].
  rewrite with_prefix_twice, !string_append_assoc. done.
Qed.

(** ** Repeatedly (C6) *)

(** C6: [Repeatedly(t).on_fire] never returns true, and when
    [t.on_fire] returns true it runs [t.reset] on the same window and
    context, from the state [t.on_fire] left, before returning; it raises
    only what [t.on_fire] or that [t.reset] raises. *)
Theorem Repeatedly_on_fire_never_finishes
    {S : Type} `{SimpleState.ops window S}
    (t : TriggerFn S) (wm : watermark) (w : window) (c : context window) (s : S) :
  match on_fire (Repeatedly t) wm w c s with
  | Returns (finished, s') =>
      finished = false ∧
      match on_fire t wm w c s with
      | Returns (true, s1) => reset t w c s1 = Returns (tt, s')
      | Returns (false, s1) => s' = s1
      | Raises _ => False
      end
  | Raises e =>
      match on_fire t wm w c s with
      | Returns (true, s1) => reset t w c s1 = Raises e
      | Returns (false, _) => False
      | Raises e' => e' = e
      end
  end.
Proof.
  simpl. unfold bind, ret.
  destruct (on_fire t wm w c s) as [[[] s1]|e]; simpl; [|done..].
  destruct (reset t w c s1) as [[[] s2]|e]; done.
Qed.

(** ** Reading the in-memory backend (C8) *)

(** C8, as stated, fails for a [Value] tag: the cell of a tag that was
    never written reads as the empty list, not as [None]. *)
Lemma unwritten_value_tag_reads_empty_list :
  InMemory.get_state 1 (ValueStateTag "last") empty_backend
    = Returns (VList [], empty_backend) ∧
  InMemory.get_state 1 (ValueStateTag "last") empty_backend
    ≠ Returns (VNone, empty_backend).
Proof. split; [reflexivity | discriminate]. Qed.

(** C8 (amended): reading a cell of the in-memory backend that was never
    written returns, without raising and without changing the backend,
    the empty list for a [List] tag and for a [Value] tag, and the
    combine_fn's extraction of the empty accumulator for a [Combining]
    tag. *)
Theorem unwritten_cell_reads_default {K G} `{Countable K}
    (s : InMemoryUnmergedState K G) (w : K) (t : StateTag) :
  default ∅ (state s !! w) !! tag t = None →
  InMemory.get_state w t s = Returns (unwritten t, s).
Proof.
  intros Hnone.
  unfold InMemory.get_state, InMemory.cell, bind, get, ret.
  rewrite Hnone. by destruct t.
Qed.

Lemma unwritten_cell_reads_default_witness :
  default ∅ (state empty_backend !! 1) !! tag COUNT_TAG = None ∧
  InMemory.get_state 1 COUNT_TAG empty_backend = Returns (VInt 0, empty_backend).
Proof.
  split; [reflexivity|].
  apply (unwritten_cell_reads_default empty_backend 1 COUNT_TAG). reflexivity.
Defined.

(** ** Timers without a window (C4) *)

Lemma get_window_unknown (a : MergeableStateAdapter) (timer_id : Z) :
  (∀ w ids, window_ids a !! w = Some ids → timer_id ∉ ids) →
  Adapter.get_window timer_id a = Raises (ValueError "No window for timer").
Proof.
  intros Hno. unfold Adapter.get_window, bind, get.
  destruct (list_find _ _) as [[i [w ids]]|] eqn:Hfind; [|done].
  apply list_find_Some in Hfind as (Hlook & Hin & _).
  apply list_elem_of_lookup_2, elem_of_map_to_list in Hlook.
  by destruct (Hno w ids Hlook).
Qed.

(** C4, as stated, fails: a timer whose id belongs to no window makes
    [process_timer] raise the adapter's [ValueError]. *)
Lemma orphan_timer_raises :
  Driver.process_timer (count_driver 2 DISCARDING) 7 100 "" empty_backend
    = Raises (ValueError "No window for timer") ∧
  ∀ raw', Driver.process_timer (count_driver 2 DISCARDING) 7 100 "" empty_backend
    ≠ Returns ([], raw').
Proof. split; [reflexivity | discriminate]. Qed.

(** C4 (amended): for a timer id that no window of the merge adapter's
    id map holds, [get_window] raises [ValueError] and [process_timer]
    yields no pane and lets that [ValueError] propagate to its caller. *)
Theorem process_timer_without_window_raises
    (drv : GeneralTriggerDriver) (raw : raw_backend)
    (timer_id timestamp : Z) (name : string) :
  (∀ w ids, window_ids (Adapter.init raw) !! w = Some ids → timer_id ∉ ids) →
  Adapter.get_window timer_id (Adapter.init raw)
    = Raises (ValueError "No window for timer") ∧
  Driver.process_timer drv timer_id timestamp name raw
    = Raises (ValueError "No window for timer").
Proof.
  intros Hno. pose proof (get_window_unknown _ _ Hno) as Hraise.
  split; [done|].
  unfold Driver.process_timer, Driver.wrapped, bind. by rewrite Hraise.
Qed.

Lemma process_timer_without_window_raises_witness :
  (∀ w ids, window_ids (Adapter.init empty_backend) !! w = Some ids → 7 ∉ ids) ∧
  Driver.process_timer (count_driver 2 DISCARDING) 7 100 "" empty_backend
    = Raises (ValueError "No window for timer").
Proof.
  assert (Hno : ∀ w ids,
    window_ids (Adapter.init empty_backend) !! w = Some ids → 7 ∉ ids)
    by (intros w ids Hl; change ((∅ : gmap window (list Z)) !! w = Some ids) in Hl;
        by rewrite lookup_empty in Hl).
  split; [exact Hno|].
  exact (proj2 (process_timer_without_window_raises
                  (count_driver 2 DISCARDING) empty_backend 7 100 "" Hno)).
Defined.

(** ** Reading a combining tag through the adapter (C7) *)

Lemma raw_get_state_combining (raw : raw_backend) (id : Z) name cf l :
  InMemory.cell raw id name = VList l →
  InMemory.get_state id (CombiningValueStateTag name cf) raw
    = Returns (raw_value cf raw name id, raw).
Proof.
  intros Hc. unfold InMemory.get_state, raw_value, bind, get, ret. simpl.
  by rewrite Hc.
Qed.

Lemma map_m_raw_values (a : MergeableStateAdapter) name cf (ids : list Z) :
  (∀ id, id ∈ ids → ∃ l, InMemory.cell (raw_state a) id name = VList l) →
  map_m (λ id, Adapter.on_raw
           (InMemory.get_state id (CombiningValueStateTag name cf))) ids a
    = Returns (raw_value cf (raw_state a) name <$> ids, a).
Proof.
  induction ids as [|id ids IH]; intros Hl; [done|].
  simpl. unfold bind at 1.
  destruct (Hl id) as [l Hc]; [left|].
  rewrite (on_raw_get_state a id _ _ (raw_get_state_combining _ _ _ cf _ Hc)).
  unfold bind. rewrite IH; [done|]. intros id' Hin. apply Hl. by right.
Qed.

(** C7, as stated, fails for a window with exactly one internal id: the
    value the backend returns for that id (here 100) is not passed
    through, [extract_output] is applied to it once more (giving 10000). *)
Lemma single_id_value_is_extracted_again :
  window_ids one_id_state !! W0 = Some [1] ∧
  InMemory.get_state 1 PERCENT_TAG (raw_state one_id_state)
    = Returns (VInt 100, raw_state one_id_state) ∧
  Adapter.get_state W0 PERCENT_TAG one_id_state
    = Returns (VInt 10000, one_id_state).
Proof. repeat split; vm_compute; reflexivity. Qed.

(** C7 (amended): for a [Combining] tag, [MergeableStateAdapter.get_state]
    reads the backend's value at each internal id of the window and
    returns [extract_output] of: [merge_accumulators] of these values when
    there are two or more ids; the single value itself when there is
    exactly one id (no merge, but [extract_output] is still applied);
    [create_accumulator()] when there is none. *)
Theorem adapter_get_state_combining
    (a : MergeableStateAdapter) (w : window) (name : string) (cf : CombineFn) :
  let ids := default [] (window_ids a !! w) in
  let values := raw_value cf (raw_state a) name <$> ids in
  (∀ id, id ∈ ids → ∃ l, InMemory.cell (raw_state a) id name = VList l) →
  Adapter.get_state w (CombiningValueStateTag name cf) a
    = Returns (extract_output cf
                 match values with
                 | [] => create_accumulator cf
                 | [v] => v
                 | _ => merge_accumulators cf values
                 end, a).
Proof.
  intros ids values Hl.
  unfold Adapter.get_state, Adapter._get_ids, bind at 1 2, get, ret.
  fold ids. unfold bind. rewrite (map_m_raw_values a name cf ids Hl).
  fold values. by destruct values as [|? [|? ?]].
Qed.

Lemma adapter_get_state_combining_witness :
  (∀ id, id ∈ default [] (window_ids one_id_state !! W0) →
     ∃ l, InMemory.cell (raw_state one_id_state) id "percent" = VList l) ∧
  Adapter.get_state W0 PERCENT_TAG one_id_state
    = Returns (VInt 10000, one_id_state).
Proof.
  assert (Hl : ∀ id, id ∈ default [] (window_ids one_id_state !! W0) →
     ∃ l, InMemory.cell (raw_state one_id_state) id "percent" = VList l).
  { intros id Hin. change (id ∈ [1]) in Hin.
    apply list_elem_of_singleton in Hin as ->. by exists [VInt 5]. }
  split; [exact Hl|].
  exact (adapter_get_state_combining one_id_state W0 "percent" PercentCombineFn Hl).
Defined.

(** ** The id map of the merge adapter (C10) *)

Lemma elem_of_all_ids (m : gmap window (list Z)) (id : Z) :
  id ∈ Adapter.all_ids m ↔ ∃ w, holds m w id.
Proof.
  unfold Adapter.all_ids, holds. rewrite list_elem_of_join. split.
  - intros (ids & Hin & Hids). apply list_elem_of_fmap in Hids as ([w ids'] & -> & Hp).
    apply elem_of_map_to_list in Hp. eauto.
  - intros (w & ids & Hl & Hin). exists ids. split; [done|].
    apply list_elem_of_fmap. exists (w, ids). split; [done|].
    by apply elem_of_map_to_list.
Qed.

Lemma foldl_max_le (ks : list Z) (k : Z) : k ≤ foldl Z.max k ks.
Proof.
  revert k. induction ks as [|x ks IH]; intros k; simpl; [lia|].
  etrans; [|apply IH]. lia.
Qed.

Lemma foldl_max_ge (ks : list Z) (k x : Z) : x ∈ ks → x ≤ foldl Z.max k ks.
Proof.
  revert k. induction ks as [|y ks IH]; intros k Hin; [by inversion Hin|].
  simpl. apply elem_of_cons in Hin as [->|Hin]; [|by apply IH].
  etrans; [|apply foldl_max_le]. lia.
Qed.

Lemma holds_insert (m : gmap window (list Z)) w ids w' k :
  holds (<[w := ids]> m) w' k ↔ (w' = w ∧ k ∈ ids) ∨ (w' ≠ w ∧ holds m w' k).
Proof.
  unfold holds. destruct (decide (w' = w)) as [->|Hne].
  - rewrite lookup_insert_eq. split.
    + intros (l & [= <-] & Hk). by left.
    + intros [[_ Hk]|[Hne _]]; [by exists ids|done].
  - rewrite lookup_insert_ne by done. split.
    + intros Hk. by right.
    + intros [[Heq _]|[_ Hk]]; done.
Qed.

Lemma holds_delete (m : gmap window (list Z)) w w' k :
  holds (delete w m) w' k ↔ w' ≠ w ∧ holds m w' k.
Proof.
  unfold holds. destruct (decide (w' = w)) as [->|Hne].
  - rewrite lookup_delete_eq. split.
    + by intros (l & Hl & _).
    + by intros [Hne _].
  - rewrite lookup_delete_ne by done. split.
    + by intros Hk.
    + by intros [_ Hk].
Qed.

Lemma holds_empty w k : ¬ holds ∅ w k.
Proof. intros (ids & Hl & _). by rewrite lookup_empty in Hl. Qed.

Lemma ids_wf_empty c : ids_wf ∅ c.
Proof.
  split.
  - intros w. by rewrite lookup_empty.
  - intros w ids Hl. by rewrite lookup_empty in Hl.
  - intros w1 w2 id H1. by apply holds_empty in H1.
  - intros k w id _ H1. by apply holds_empty in H1.
Qed.

Lemma ids_wf_forget m c : ids_wf m c → ids_wf m None.
Proof. intros [? ? ? ?]. by split. Qed.

Lemma ids_wf_alloc m c w id :
  ids_wf m c → m !! w = None → fresh_above m id →
  ids_wf (<[w := [id]]> m) (Some id).
Proof.
  intros [Hne Hnd Hdj Hc] Hnone Hfresh. split.
  - intros w'. destruct (decide (w' = w)) as [->|?].
    + by rewrite lookup_insert_eq.
    + rewrite lookup_insert_ne by done. apply Hne.
  - intros w' ids. destruct (decide (w' = w)) as [->|?].
    + rewrite lookup_insert_eq. intros [= <-]. apply NoDup_singleton.
    + rewrite lookup_insert_ne by done. apply Hnd.
  - intros w1 w2 k. rewrite !holds_insert.
    intros [[-> Hk1]|[? H1]] [[-> Hk2]|[? H2]]; [done| | |by eapply Hdj].
    + apply list_elem_of_singleton in Hk1 as ->.
      specialize (Hfresh _ _ H2). lia.
    + apply list_elem_of_singleton in Hk2 as ->.
      specialize (Hfresh _ _ H1). lia.
  - intros k w' k' [= <-]. rewrite holds_insert.
    intros [[-> Hk]|[? Hk]].
    + apply list_elem_of_singleton in Hk as ->. lia.
    + specialize (Hfresh _ _ Hk). lia.
Qed.

Lemma ids_wf_delete m c w : ids_wf m c → ids_wf (delete w m) c.
Proof.
  intros [Hne Hnd Hdj Hc]. split.
  - intros w'. destruct (decide (w' = w)) as [->|?].
    + by rewrite lookup_delete_eq.
    + rewrite lookup_delete_ne by done. apply Hne.
  - intros w' ids. destruct (decide (w' = w)) as [->|?].
    + by rewrite lookup_delete_eq.
    + rewrite lookup_delete_ne by done. apply Hnd.
  - intros w1 w2 k. rewrite !holds_delete. intros [_ H1] [_ H2]. by eapply Hdj.
  - intros k w' k' Hk. rewrite holds_delete. intros [_ H1]. by eapply Hc.
Qed.

(** One step of [merge]: the ids of [src] go to the end of [dst]'s. *)
Lemma holds_move (m : gmap window (list Z)) src dst ids w k :
  src ≠ dst → m !! src = Some ids →
  holds (<[dst := default [] (m !! dst) ++ ids]> (delete src m)) w k ↔
  (w = dst ∧ (holds m dst k ∨ holds m src k)) ∨
  (w ≠ dst ∧ w ≠ src ∧ holds m w k).
Proof.
  intros Hne Hsrc. rewrite holds_insert, holds_delete, elem_of_app. split.
  - intros [[-> [Hk|Hk]]|[? [? Hk]]]; [| |by right].
    + left. split; [done|]. left. destruct (m !! dst) as [old|] eqn:Hd.
      * by exists old.
      * by inversion Hk.
    + left. split; [done|]. right. by exists ids.
  - intros [[-> [(old & Hd & Hk)|(ids' & Hs & Hk)]]|(? & ? & Hk)].
    + left. split; [done|]. left. by rewrite Hd.
    + left. split; [done|]. right. by simplify_eq.
    + by right.
Qed.

Lemma ids_wf_move m c src dst ids :
  ids_wf m c → src ≠ dst → m !! src = Some ids →
  ids_wf (<[dst := default [] (m !! dst) ++ ids]> (delete src m)) c.
Proof.
  intros [Hne Hnd Hdj Hc] Hsd Hsrc. split.
  - intros w. destruct (decide (w = dst)) as [->|?].
    + rewrite lookup_insert_eq. intros [= Happ].
      apply app_eq_nil in Happ as [_ ->]. by apply (Hne src).
    + rewrite lookup_insert_ne by done.
      destruct (decide (w = src)) as [->|?].
      * by rewrite lookup_delete_eq.
      * rewrite lookup_delete_ne by done. apply Hne.
  - intros w l. destruct (decide (w = dst)) as [->|?].
    + rewrite lookup_insert_eq. intros [= <-]. apply NoDup_app. split_and!.
      * destruct (m !! dst) as [old|] eqn:Hd; [by eapply Hnd|apply NoDup_nil_2].
      * intros k Hk Hk'. apply Hsd. apply (Hdj src dst k).
        -- by exists ids.
        -- destruct (m !! dst) as [old|] eqn:Hd; [by exists old|by inversion Hk].
      * by eapply Hnd.
    + rewrite lookup_insert_ne by done.
      destruct (decide (w = src)) as [->|?].
      * by rewrite lookup_delete_eq.
      * rewrite lookup_delete_ne by done. apply Hnd.
  - intros w1 w2 k. rewrite !(holds_move m src dst ids) by done.
    intros [[-> H1]|(? & ? & H1)] [[-> H2]|(? & ? & H2)]; [done| | |by eapply Hdj].
    + destruct H1 as [H1|H1]; [by destruct (Hdj _ _ _ H1 H2)|].
      by destruct (Hdj _ _ _ H1 H2).
    + destruct H2 as [H2|H2]; [by destruct (Hdj _ _ _ H1 H2)|].
      by destruct (Hdj _ _ _ H1 H2).
  - intros k w k' Hk. rewrite (holds_move m src dst ids) by done.
    intros [[-> [H1|H1]]|(? & ? & H1)]; by eapply Hc.
Qed.

(** *** What the adapter's private helpers do *)

Lemma set_ids_persist (m : gmap window (list Z)) (a : MergeableStateAdapter) :
  (modify (Adapter.set_window_ids m) ;; Adapter._persist_window_ids) a
    = Returns (tt, with_ids m a).
Proof. reflexivity. Qed.

Lemma on_raw_modify (f : raw_backend → raw_backend) (a : MergeableStateAdapter) :
  Adapter.on_raw (modify f) a = Returns (tt, with_raw f a).
Proof. reflexivity. Qed.

Lemma get_next_counter_spec (a : MergeableStateAdapter) :
  ids_wf (window_ids a) (counter a) →
  ∃ id, Adapter._get_next_counter a = Returns (id, Adapter.set_counter id a) ∧
        fresh_above (window_ids a) id.
Proof.
  intros Hwf. unfold Adapter._get_next_counter, bind at 1, get.
  case_bool_decide as Hempty.
  - exists (0 + 1). split; [done|]. intros w k Hk. rewrite Hempty in Hk.
    by apply holds_empty in Hk.
  - destruct (counter a) as [c|] eqn:Hc.
    + exists (c + 1). split; [done|]. intros w k Hk.
      pose proof (wf_counter _ _ Hwf c w k eq_refl Hk). lia.
    + apply map_choose in Hempty as (w0 & ids0 & Hl0).
      destruct ids0 as [|k0 ids0]; [by destruct (wf_nonempty _ _ Hwf w0)|].
      assert (k0 ∈ Adapter.all_ids (window_ids a)) as Hin.
      { apply elem_of_all_ids. exists w0, (k0 :: ids0). split; [done|left]. }
      destruct (Adapter.all_ids (window_ids a)) as [|k ks] eqn:Hall;
        [by inversion Hin|].
      exists (foldl Z.max k ks + 1). split; [done|]. intros w x Hx.
      assert (x ∈ k :: ks) as Hx'.
      { rewrite <- Hall. apply elem_of_all_ids. by exists w. }
      apply elem_of_cons in Hx' as [->|Hx'].
      * pose proof (foldl_max_le ks k). lia.
      * pose proof (foldl_max_ge ks k x Hx'). lia.
Qed.

Lemma get_id_known (a : MergeableStateAdapter) w id ids :
  window_ids a !! w = Some (id :: ids) →
  Adapter._get_id w a = Returns (id, a).
Proof. intros Hl. unfold Adapter._get_id, bind, get. by rewrite Hl. Qed.

(** The adapter after [_get_id] has given the new window [w] the id [id]. *)
Lemma get_id_fresh (a : MergeableStateAdapter) w :
  ids_wf (window_ids a) (counter a) → window_ids a !! w = None →
  ∃ id, Adapter._get_id w a
          = Returns (id, with_ids (<[w := [id]]> (window_ids a))
                                  (Adapter.set_counter id a)) ∧
        fresh_above (window_ids a) id.
Proof.
  intros Hwf Hnone. destruct (get_next_counter_spec a Hwf) as (id & Hnext & Hfresh).
  exists id. split; [|done].
  unfold Adapter._get_id, bind at 1, get. rewrite Hnone.
  unfold bind at 1. rewrite Hnext. done.
Qed.

(** *** The invariant under changes of the id map and of the backend *)

Lemma good_with_ids (a : MergeableStateAdapter) (m : gmap window (list Z)) :
  good a → ids_wf m (counter a) →
  (∀ id, is_Some (state (raw_state a) !! id) → ∃ w, holds m w id) →
  good (with_ids m a).
Proof.
  intros [Hids Hp Hcells Hown] Hwf Hcover. split; simpl; [done| |done|done].
  unfold persisted. simpl. by rewrite lookup_insert_eq.
Qed.

Lemma good_alloc (a : MergeableStateAdapter) w id :
  good a → window_ids a !! w = None → fresh_above (window_ids a) id →
  good (with_ids (<[w := [id]]> (window_ids a)) (Adapter.set_counter id a)).
Proof.
  intros [Hids Hp Hcells Hown] Hnone Hfresh. split; simpl.
  - by eapply ids_wf_alloc.
  - unfold persisted. simpl. by rewrite lookup_insert_eq.
  - done.
  - intros k Hk. destruct (Hown k Hk) as (w' & Hh). exists w'.
    apply holds_insert. right. split; [|done]. intros ->.
    destruct Hh as (ids & Hl & _). congruence.
Qed.

Lemma good_with_raw (a : MergeableStateAdapter) (f : raw_backend → raw_backend) :
  good a →
  global_state (f (raw_state a)) = global_state (raw_state a) →
  (∀ id name, ∃ l, InMemory.cell (f (raw_state a)) id name = VList l) →
  (∀ id, is_Some (state (f (raw_state a)) !! id) →
         is_Some (state (raw_state a) !! id) ∨ ∃ w, holds (window_ids a) w id) →
  good (with_raw f a).
Proof.
  intros [Hids Hp Hcells Hown] Hg Hc Ho. split; simpl; [done| |done|].
  - unfold persisted. simpl. by rewrite Hg.
  - intros id Hs. destruct (Ho id Hs) as [Hs'|Hh]; [by apply Hown|done].
Qed.

Lemma good_init_empty (dc : bool) : good (Adapter.init (InMemory.init dc)).
Proof.
  split.
  - apply ids_wf_empty.
  - done.
  - intros id name. by exists [].
  - intros id [d Hd]. simpl in Hd. by rewrite lookup_empty in Hd.
Qed.

Lemma good_rewrap (a : MergeableStateAdapter) :
  good a → good (Adapter.init (raw_state a)).
Proof.
  intros [Hids Hp Hcells Hown]. unfold persisted in Hp.
  split; unfold Adapter.init; simpl; rewrite ?Hp.
  - by eapply ids_wf_forget.
  - unfold persisted. simpl. by rewrite Hp.
  - done.
  - done.
Qed.

(** *** Cells of the in-memory backend *)

Lemma cell_set_cell (raw : raw_backend) id name v id' name' :
  InMemory.cell (InMemory.set_cell id name v raw) id' name' =
  if decide (id' = id ∧ name' = name) then v else InMemory.cell raw id' name'.
Proof.
  unfold InMemory.cell, InMemory.set_cell. cbn [state InMemory.with_state].
  case_decide as Hc.
  - destruct Hc as [-> ->]. rewrite lookup_insert_eq. cbn.
    by rewrite lookup_insert_eq.
  - destruct (decide (id' = id)) as [->|Hid].
    + rewrite lookup_insert_eq. cbn. rewrite lookup_insert_ne; [done|].
      intros ->. tauto.
    + by rewrite lookup_insert_ne.
Qed.

Lemma state_set_cell_is_Some (raw : raw_backend) id name v id' :
  is_Some (state (InMemory.set_cell id name v raw) !! id') →
  id' = id ∨ is_Some (state raw !! id').
Proof.
  unfold InMemory.set_cell. simpl. destruct (decide (id' = id)) as [->|Hid].
  - by left.
  - rewrite lookup_insert_ne by done. by right.
Qed.

Lemma state_drop_ids (ids : list Z) (raw : raw_backend) id :
  state (drop_ids ids raw) !! id =
  if decide (id ∈ ids) then None else state raw !! id.
Proof.
  revert raw. induction ids as [|k ids IH]; intros raw.
  - destruct (decide (id ∈ [])) as [Hin|_]; [by inversion Hin|done].
  - change (drop_ids (k :: ids) raw)
      with (drop_ids ids (InMemory.with_state (delete k) raw)).
    rewrite IH. cbn [state InMemory.with_state].
    destruct (decide (id ∈ ids)) as [Hin|Hnin].
    + rewrite decide_True; [done|by right].
    + destruct (decide (id = k)) as [->|Hne].
      * rewrite lookup_delete_eq. rewrite decide_True; [done|left].
      * rewrite lookup_delete_ne by done. rewrite decide_False; [done|].
        intros Hin. apply elem_of_cons in Hin as [?|?]; done.
Qed.

Lemma global_drop_ids (ids : list Z) (raw : raw_backend) :
  global_state (drop_ids ids raw) = global_state raw.
Proof. revert raw. induction ids as [|k ids IH]; intros raw; [done|]. simpl.
  fold (drop_ids ids (InMemory.with_state (delete k) raw)). by rewrite IH. Qed.

Lemma cell_drop_cell (raw : raw_backend) name id id' name' :
  InMemory.cell (drop_cell name id raw) id' name' =
  if decide (id' = id ∧ name' = name) then VList []
  else InMemory.cell raw id' name'.
Proof.
  unfold InMemory.cell, drop_cell. cbn [state InMemory.with_state].
  destruct (state raw !! id) as [d|] eqn:Hd.
  - case_decide as Hc.
    + destruct Hc as [-> ->]. rewrite lookup_insert_eq. cbn.
      by rewrite lookup_delete_eq.
    + destruct (decide (id' = id)) as [->|Hid].
      * rewrite lookup_insert_eq, Hd. cbn. rewrite lookup_delete_ne; [done|].
        intros ->. tauto.
      * by rewrite lookup_insert_ne.
  - case_decide as Hc; [|done]. destruct Hc as [-> ->]. by rewrite Hd.
Qed.

Lemma cell_drop_cells (raw : raw_backend) name ids id' name' :
  InMemory.cell (drop_cells name ids raw) id' name' =
  if decide (id' ∈ ids ∧ name' = name) then VList []
  else InMemory.cell raw id' name'.
Proof.
  revert raw. induction ids as [|k ids IH]; intros raw.
  - destruct (decide (id' ∈ [] ∧ name' = name)) as [[Hin _]|_];
      [by inversion Hin|done].
  - change (drop_cells name (k :: ids) raw)
      with (drop_cells name ids (drop_cell name k raw)).
    rewrite IH, cell_drop_cell.
    destruct (decide (id' ∈ ids ∧ name' = name)) as [[Hin ->]|Hn1].
    + rewrite decide_True; [done|]. split; [by right|done].
    + destruct (decide (id' = k ∧ name' = name)) as [[-> ->]|Hn2].
      * rewrite decide_True; [done|]. split; [left|done].
      * rewrite decide_False; [done|]. intros [Hin ->].
        apply elem_of_cons in Hin as [->|Hin]; tauto.
Qed.

Lemma state_drop_cell_is_Some (raw : raw_backend) name id id' :
  is_Some (state (drop_cell name id raw) !! id') ↔ is_Some (state raw !! id').
Proof.
  unfold drop_cell. simpl. destruct (state raw !! id) as [d|] eqn:Hd; [|done].
  destruct (decide (id' = id)) as [->|Hid].
  - rewrite lookup_insert_eq, Hd. split; eauto.
  - by rewrite lookup_insert_ne.
Qed.

Lemma state_drop_cells_is_Some (raw : raw_backend) name ids id' :
  is_Some (state (drop_cells name ids raw) !! id') ↔ is_Some (state raw !! id').
Proof.
  revert raw. induction ids as [|k ids IH]; intros raw; [done|]. simpl.
  fold (drop_cells name ids (drop_cell name k raw)).
  by rewrite IH, state_drop_cell_is_Some.
Qed.

Lemma global_drop_cells (raw : raw_backend) name ids :
  global_state (drop_cells name ids raw) = global_state raw.
Proof.
  revert raw. induction ids as [|k ids IH]; intros raw; [done|]. simpl.
  fold (drop_cells name ids (drop_cell name k raw)). by rewrite IH.
Qed.

(** *** Steps of monadic code *)

Lemma bind_returns {S A B} (c : M S A) (k : A → M S B) s x s' :
  c s = Returns (x, s') → bind c k s = k x s'.
Proof. intros Hc. unfold bind. by rewrite Hc. Qed.

Lemma bind_raises {S A B} (c : M S A) (k : A → M S B) s e :
  c s = Raises e → bind c k s = Raises e.
Proof. intros Hc. unfold bind. by rewrite Hc. Qed.

Lemma for_each_app {S A} (xs ys : list A) (body : A → M S unit) s s' :
  for_each xs body s = Returns (tt, s') →
  for_each (xs ++ ys) body s = for_each ys body s'.
Proof.
  revert s. induction xs as [|x xs IH]; intros s; simpl.
  - by intros [= ->].
  - unfold bind. destruct (body x s) as [[[] s1]|e]; [|done]. apply IH.
Qed.

Lemma for_each_on_raw_modify {A} (f : A → raw_backend → raw_backend)
    (xs : list A) (a : MergeableStateAdapter) :
  for_each xs (λ x, Adapter.on_raw (modify (f x))) a
    = Returns (tt, with_raw (λ raw, foldl (λ r x, f x r) raw xs) a).
Proof.
  revert a. induction xs as [|x xs IH]; intros a; simpl.
  - by destruct a.
  - erewrite bind_returns by apply on_raw_modify. by rewrite IH.
Qed.

(** *** Untouched windows read the same *)

Lemma cell_of_state (raw raw' : raw_backend) id name :
  state raw' !! id = state raw !! id →
  InMemory.cell raw' id name = InMemory.cell raw id name.
Proof. intros Hs. unfold InMemory.cell. by rewrite Hs. Qed.

Lemma untouched_cells_of (w : window) (a a' : MergeableStateAdapter) name :
  untouched w a a' → cells_of a' name w = cells_of a name w.
Proof.
  intros [Hids Hst]. unfold cells_of, ids_of in *. rewrite Hids. f_equal.
  apply list_fmap_ext. intros i id Hl. f_equal. apply cell_of_state, Hst.
  by eapply list_elem_of_lookup_2.
Qed.

Lemma untouched_refl w a : untouched w a a.
Proof. by split. Qed.

Lemma untouched_trans w a1 a2 a3 :
  untouched w a1 a2 → untouched w a2 a3 → untouched w a1 a3.
Proof.
  intros [Hi1 Hs1] [Hi2 Hs2]. split; [congruence|].
  intros id Hin. rewrite Hs2, Hs1; [done..|].
  unfold ids_of in *. by rewrite Hi1.
Qed.

Lemma others_untouched_refl w a : others_untouched w a a.
Proof. intros w' _. apply untouched_refl. Qed.

Lemma others_untouched_trans w a1 a2 a3 :
  others_untouched w a1 a2 → others_untouched w a2 a3 →
  others_untouched w a1 a3.
Proof. intros H1 H2 w' Hne. eapply untouched_trans; eauto. Qed.

Lemma untouched_known w a a' : untouched w a a' → known a' w ↔ known a w.
Proof. intros [Hi _]. unfold known. by rewrite Hi. Qed.

Lemma untouched_tombstoned w a a' :
  untouched w a a' → tombstoned a' w ↔ tombstoned a w.
Proof. intros Hu. unfold tombstoned. by rewrite (untouched_cells_of _ _ _ _ Hu). Qed.

(** Changing only timers, the counter or ids of other windows. *)
Lemma untouched_same_state w a a' :
  window_ids a' !! w = window_ids a !! w →
  state (raw_state a') = state (raw_state a) →
  untouched w a a'.
Proof. intros Hi Hs. split; [done|]. intros id _. by rewrite Hs. Qed.

Lemma ids_of_lookup a w ids : window_ids a !! w = Some ids → ids_of a w = ids.
Proof. unfold ids_of. by intros ->. Qed.

Lemma in_ids_of_holds a w id : id ∈ ids_of a w ↔ holds (window_ids a) w id.
Proof.
  unfold ids_of, holds. destruct (window_ids a !! w) as [ids|]; simpl.
  - split; [by exists ids|]. by intros (? & [= <-] & ?).
  - split; [by intros Hin; inversion Hin|]. by intros (? & [=] & _).
Qed.

(** *** Reading through the adapter *)

Lemma raw_get_state_list (raw : raw_backend) (id : Z) name :
  InMemory.get_state id (ListStateTag name) raw
    = Returns (InMemory.cell raw id name, raw).
Proof. reflexivity. Qed.

Lemma map_m_raw_lists (a : MergeableStateAdapter) name (ids : list Z) :
  map_m (λ id, Adapter.on_raw (InMemory.get_state id (ListStateTag name))) ids a
    = Returns ((λ id, InMemory.cell (raw_state a) id name) <$> ids, a).
Proof.
  induction ids as [|id ids IH]; [done|]. simpl.
  erewrite bind_returns by (apply on_raw_get_state, raw_get_state_list).
  by erewrite bind_returns by apply IH.
Qed.

Lemma flatten_lists (a : MergeableStateAdapter) (vs : list pyval) :
  (∀ v, v ∈ vs → ∃ l, v = VList l) →
  Adapter.flatten vs a = Returns (mjoin (as_list <$> vs), a).
Proof.
  induction vs as [|v vs IH]; intros Hl; [done|].
  destruct (Hl v) as [l ->]; [left|]. simpl.
  erewrite bind_returns; [done|]. apply IH. intros v' Hin. apply Hl. by right.
Qed.

Lemma get_state_list (a : MergeableStateAdapter) (w : window) (name : string) :
  good a →
  Adapter.get_state w (ListStateTag name) a = Returns (VList (cells_of a name w), a).
Proof.
  intros Hg. unfold Adapter.get_state.
  erewrite bind_returns by reflexivity.
  erewrite bind_returns by apply map_m_raw_lists.
  erewrite bind_returns.
  2:{ apply flatten_lists. intros v Hin.
      apply list_elem_of_fmap in Hin as (id & -> & _). apply (good_cells _ Hg). }
  unfold cells_of, ids_of. by rewrite <- list_fmap_compose.
Qed.

Lemma apply_count (l : list pyval) :
  apply CountCombineFn l = VInt (Z.of_nat (length l)).
Proof.
  unfold apply. simpl.
  assert (∀ z, foldl (λ acc _, VInt (as_int acc + 1)) (VInt z) l
               = VInt (z + Z.of_nat (length l))) as Hf.
  { induction l as [|x l IH]; intros z; simpl; [f_equal; lia|].
    rewrite IH. f_equal. lia. }
  by rewrite Hf.
Qed.

Lemma sum_counts (f : Z → list pyval) (ids : list Z) :
  foldr (λ a s, as_int a + s) 0 ((λ id, apply CountCombineFn (f id)) <$> ids)
    = Z.of_nat (length (mjoin (f <$> ids))).
Proof.
  induction ids as [|id ids IH]; [done|].
  rewrite !fmap_cons.
  change (mjoin (f id :: (f <$> ids))) with (f id ++ mjoin (f <$> ids)).
  cbn [foldr]. rewrite IH, apply_count, length_app. cbn [as_int]. lia.
Qed.

(** A counter tag reads as the number of values written for the window. *)
Lemma get_state_count (a : MergeableStateAdapter) (w : window) (name : string) :
  good a →
  Adapter.get_state w (CombiningValueStateTag name CountCombineFn) a
    = Returns (VInt (Z.of_nat (length (cells_of a name w))), a).
Proof.
  intros Hg.
  unfold Adapter.get_state, Adapter._get_ids, bind at 1 2, get, ret.
  unfold bind.
  rewrite (map_m_raw_values a name CountCombineFn)
    by (intros id _; apply (good_cells _ Hg)).
  change (default [] (window_ids a !! w)) with (ids_of a w).
  f_equal. f_equal. unfold cells_of, raw_value.
  set (f := λ id, as_list (InMemory.cell (raw_state a) id name)).
  pose proof (sum_counts f (ids_of a w)) as Hsum.
  destruct (ids_of a w) as [|id [|id' ids]]; [done| |].
  - rewrite !fmap_cons. cbn [extract_output CountCombineFn].
    change (mjoin (f id :: (f <$> []))) with (f id ++ []).
    by rewrite app_nil_r, apply_count.
  - rewrite <- Hsum. done.
Qed.

(** *** Effects of the adapter's methods *)

Lemma known_first_id (a : MergeableStateAdapter) w :
  good a → known a w → ∃ id ids, window_ids a !! w = Some (id :: ids).
Proof.
  intros Hg [ids Hl]. destruct ids as [|id ids]; [|by eauto].
  by destruct (wf_nonempty _ _ (good_ids _ Hg) w).
Qed.

(** [_get_id] returns the first id of the window, giving it a new id
    (whose state is empty) when it has none. *)
Lemma get_id_ensures (a : MergeableStateAdapter) w :
  good a →
  ∃ id rest a1,
    Adapter._get_id w a = Returns (id, a1) ∧ good a1 ∧
    window_ids a1 !! w = Some (id :: rest) ∧
    state (raw_state a1) = state (raw_state a) ∧
    (∀ w', w' ≠ w → window_ids a1 !! w' = window_ids a !! w') ∧
    (known a w → a1 = a) ∧
    (¬ known a w → rest = [] ∧ state (raw_state a) !! id = None).
Proof.
  intros Hg. destruct (window_ids a !! w) as [ids|] eqn:Hl.
  - destruct (known_first_id a w Hg) as (id & rest & Hl'); [by exists ids|].
    exists id, rest, a. split_and!; try done.
    + by apply (get_id_known a w id rest).
    + intros Hk. destruct Hk. unfold known. by rewrite Hl'.
  - destruct (get_id_fresh a w (good_ids _ Hg) Hl) as (id & Hget & Hfresh).
    exists id, [], (with_ids (<[w := [id]]> (window_ids a)) (Adapter.set_counter id a)).
    split_and!; try done.
    + by apply good_alloc.
    + simpl. by rewrite lookup_insert_eq.
    + intros w' Hne. simpl. by rewrite lookup_insert_ne.
    + intros [? Hk]. congruence.
    + intros _. split; [done|].
      destruct (state (raw_state a) !! id) eqn:Hs; [|done].
      destruct (good_owned _ Hg id) as (w' & Hh); [by rewrite Hs|].
      specialize (Hfresh _ _ Hh). lia.
Qed.

Lemma set_timer_known (a : MergeableStateAdapter) w name ts :
  good a → known a w →
  ∃ a', Adapter.set_timer w name ts a = Returns (tt, a') ∧ good a' ∧
        window_ids a' = window_ids a ∧
        state (raw_state a') = state (raw_state a).
Proof.
  intros Hg Hk. destruct (known_first_id a w Hg Hk) as (id & rest & Hl).
  unfold Adapter.set_timer.
  erewrite bind_returns by (by eapply get_id_known).
  unfold InMemory.set_timer. rewrite on_raw_modify.
  eexists. split; [done|]. split_and!; [|done..].
  apply good_with_raw; [done|done|apply (good_cells _ Hg)|]. intros id'. by left.
Qed.

Lemma clear_timer_spec (a : MergeableStateAdapter) w name :
  good a →
  ∃ a', Adapter.clear_timer w name a = Returns (tt, a') ∧ good a' ∧
        window_ids a' = window_ids a ∧
        state (raw_state a') = state (raw_state a).
Proof.
  intros Hg. unfold Adapter.clear_timer.
  erewrite bind_returns by reflexivity.
  unfold InMemory.clear_timer. rewrite for_each_on_raw_modify.
  eexists. split; [done|].
  assert (∀ ids (raw : raw_backend),
    state (foldl (λ r x, InMemory.with_timers (λ tm,
        match tm !! x with Some d => <[x := delete name d]> tm | None => tm end) r)
      raw ids) = state raw ∧
    global_state (foldl (λ r x, InMemory.with_timers (λ tm,
        match tm !! x with Some d => <[x := delete name d]> tm | None => tm end) r)
      raw ids) = global_state raw) as Hsame.
  { induction ids as [|k ids IH]; intros raw; [done|]. simpl.
    destruct (IH (InMemory.with_timers (λ tm,
        match tm !! k with Some d => <[k := delete name d]> tm | None => tm end) raw))
      as [-> ->]. done. }
  destruct (Hsame (default [] (window_ids a !! w)) (raw_state a)) as [Hs Hgl].
  split_and!; [|done|done].
  apply good_with_raw; [done|done| |].
  - intros id n. unfold InMemory.cell. rewrite Hs. apply (good_cells _ Hg).
  - intros id. rewrite Hs. by left.
Qed.

Lemma raw_add_state (raw : raw_backend) id t v l :
  (∀ name, t ≠ ValueStateTag name) →
  InMemory.cell raw id (tag t) = VList l →
  InMemory.add_state id t v raw
    = Returns (tt, InMemory.set_cell id (tag t) (VList (l ++ [v])) raw).
Proof.
  intros Hnv Hc. unfold InMemory.add_state.
  erewrite bind_returns by reflexivity.
  destruct t as [name|name cf|name]; [by destruct (Hnv name)|..];
    simpl in *; rewrite Hc; by destruct (defensive_copy raw).
Qed.

Lemma on_raw_returns {A} (c : M raw_backend A) (a : MergeableStateAdapter) x raw' :
  c (raw_state a) = Returns (x, raw') →
  Adapter.on_raw c a = Returns (x, with_raw (λ _, raw') a).
Proof. intros Hc. unfold Adapter.on_raw. by rewrite Hc. Qed.

Lemma perm_middle_snoc {A} (l r : list A) (v : A) :
  (l ++ [v]) ++ r ≡ₚ (l ++ r) ++ [v].
Proof. rewrite <- !app_assoc. apply Permutation_app_head, Permutation_app_comm. Qed.

(** Writing a value under a list or combining tag: the value joins the
    values of the window, and every other observation is left alone. *)
Lemma add_state_spec (a : MergeableStateAdapter) w t v :
  good a → (∀ name, t ≠ ValueStateTag name) →
  ∃ a', Adapter.add_state w t v a = Returns (tt, a') ∧ good a' ∧ known a' w ∧
        others_untouched w a a' ∧
        (known a w → window_ids a' = window_ids a) ∧
        cells_of a' (tag t) w ≡ₚ cells_of a (tag t) w ++ [v] ∧
        (length (ids_of a w) ≤ 1 →
           cells_of a' (tag t) w = cells_of a (tag t) w ++ [v])%nat ∧
        (∀ name, name ≠ tag t → cells_of a' name w = cells_of a name w).
Proof.
  intros Hg Hnv.
  destruct (get_id_ensures a w Hg)
    as (id & rest & a1 & Hget & Hg1 & Hl1 & Hs1 & Hoth & Hkn & Hfr).
  destruct (good_cells _ Hg1 id (tag t)) as [l Hc].
  set (a' := with_raw (λ _, InMemory.set_cell id (tag t) (VList (l ++ [v]))
                              (raw_state a1)) a1).
  assert (Adapter.add_state w t v a = Returns (tt, a')) as Hrun.
  { unfold Adapter.add_state.
    destruct t as [name|name cf|name]; [by destruct (Hnv name)|..];
      (erewrite bind_returns by apply Hget);
      by apply on_raw_returns, raw_add_state. }
  assert (∀ k, k ≠ id →
            state (raw_state a') !! k = state (raw_state a) !! k) as Hstate.
  { intros k Hne. unfold a'. simpl. rewrite lookup_insert_ne by done.
    by rewrite Hs1. }
  assert (∀ k name, InMemory.cell (raw_state a') k name =
            if decide (k = id ∧ name = tag t) then VList (l ++ [v])
            else InMemory.cell (raw_state a) k name) as Hcell.
  { intros k name. unfold a'. simpl. rewrite cell_set_cell.
    case_decide; [done|]. apply cell_of_state. by rewrite Hs1. }
  assert (∀ k, k ∈ rest → k ≠ id) as Hrest.
  { intros k Hin ->. pose proof (wf_nodup _ _ (good_ids _ Hg1) _ _ Hl1) as Hnd.
    by apply NoDup_cons in Hnd as [? _]. }
  assert (ids_of a w = id :: rest ∨ (ids_of a w = [] ∧ rest = [] ∧ l = [])) as Hids.
  { destruct (decide (known a w)) as [Hk|Hk].
    - left. rewrite (Hkn Hk) in Hl1. unfold ids_of. by rewrite Hl1.
    - right. destruct (Hfr Hk) as [-> Hnone]. split_and!; [|done|].
      + unfold ids_of. destruct (window_ids a !! w) eqn:Hw; [|done].
        destruct Hk. by eexists.
      + unfold InMemory.cell in Hc. rewrite Hs1, Hnone in Hc. simpl in Hc.
        by injection Hc as <-. }
  assert (∀ name, cells_of a' name w =
     (if decide (name = tag t) then l ++ [v]
      else as_list (InMemory.cell (raw_state a) id name)) ++
     mjoin ((λ k, as_list (InMemory.cell (raw_state a) k name)) <$> rest))
    as Hcells.
  { intros name. assert (window_ids a' !! w = Some (id :: rest)) as Hl' by done.
    unfold cells_of. rewrite (ids_of_lookup _ _ _ Hl'), fmap_cons.
    change (mjoin (?x :: ?xs)) with (x ++ mjoin xs). f_equal.
    - rewrite Hcell. destruct (decide (name = tag t)) as [->|Hn].
      + by rewrite decide_True.
      + by rewrite decide_False by tauto.
    - f_equal. apply list_fmap_ext. intros i k Hk. rewrite Hcell.
      rewrite decide_False; [done|]. intros [-> _].
      eapply (Hrest id); [by eapply list_elem_of_lookup_2|done]. }
  assert (InMemory.cell (raw_state a) id (tag t) = VList l ∨ ids_of a w = []) as Hl.
  { destruct Hids as [_|[? _]]; [|by right]. left.
    rewrite <- Hc. symmetry. apply cell_of_state. by rewrite Hs1. }
  exists a'. split_and!; try done.
  - unfold a'. apply good_with_raw; [done|done| |].
    + intros k name. simpl. rewrite cell_set_cell. case_decide; [by eexists|].
      apply (good_cells _ Hg1).
    + intros k Hk. apply state_set_cell_is_Some in Hk as [->|Hk]; [|by left].
      right. exists w, (id :: rest). split; [done|left].
  - unfold known, a'. simpl. by rewrite Hl1.
  - intros w' Hne. split; [by apply Hoth|].
    intros k Hk. apply Hstate. intros ->.
    apply in_ids_of_holds in Hk.
    assert (holds (window_ids a1) w' id) as Hh'.
    { destruct Hk as (ids & Hlw & Hin). exists ids. by rewrite Hoth. }
    apply Hne. eapply (wf_disjoint _ _ (good_ids _ Hg1)); [exact Hh'|].
    exists (id :: rest). split; [done|left].
  - intros Hk. unfold a'. simpl. by rewrite (Hkn Hk).
  - rewrite Hcells, decide_True by done.
    destruct Hids as [Hi|(Hi & -> & ->)].
    + unfold cells_of. rewrite Hi, fmap_cons.
      change (mjoin (?x :: ?xs)) with (x ++ mjoin xs).
      destruct Hl as [Hl|Hl]; [|by rewrite Hl in Hi].
      rewrite Hl. apply perm_middle_snoc.
    + unfold cells_of. by rewrite Hi.
  - intros Hlen. rewrite Hcells, decide_True by done.
    destruct Hids as [Hi|(Hi & -> & ->)].
    + rewrite Hi in Hlen. destruct rest; [|simpl in Hlen; lia].
      unfold cells_of. rewrite Hi. simpl.
      destruct Hl as [Hl|Hl]; [|by rewrite Hl in Hi].
      rewrite Hl. simpl. by rewrite !app_nil_r.
    + unfold cells_of. by rewrite Hi.
  - intros name Hn. rewrite Hcells, decide_False by done.
    destruct Hids as [Hi|(Hi & -> & ->)].
    + unfold cells_of. by rewrite Hi, fmap_cons.
    + unfold cells_of. rewrite Hi. simpl.
      destruct (decide (known a w)) as [Hk|Hk].
      * destruct Hk as [ids Hk]. unfold ids_of in Hi. rewrite Hk in Hi.
        simpl in Hi. subst ids. by destruct (wf_nonempty _ _ (good_ids _ Hg) w).
      * destruct (Hfr Hk) as [_ Hnone]. unfold InMemory.cell.
        by rewrite Hnone.
Qed.

Lemma state_drop_cell_ne (raw : raw_backend) name id k :
  k ≠ id → state (drop_cell name id raw) !! k = state raw !! k.
Proof.
  intros Hne. unfold drop_cell. simpl.
  destruct (state raw !! id); [|done]. by rewrite lookup_insert_ne.
Qed.

Lemma state_drop_cells_ne (raw : raw_backend) name ids k :
  k ∉ ids → state (drop_cells name ids raw) !! k = state raw !! k.
Proof.
  revert raw. induction ids as [|id ids IH]; intros raw Hnin; [done|].
  change (drop_cells name (id :: ids) raw)
    with (drop_cells name ids (drop_cell name id raw)).
  apply not_elem_of_cons in Hnin as [Hne Hnin].
  by rewrite IH, state_drop_cell_ne.
Qed.

Lemma other_window_ids_differ (a : MergeableStateAdapter) w w' k :
  good a → w' ≠ w → k ∈ ids_of a w' → k ∉ ids_of a w.
Proof.
  intros Hg Hne Hk Hk'. apply in_ids_of_holds in Hk, Hk'.
  apply Hne. by eapply (wf_disjoint _ _ (good_ids _ Hg)).
Qed.

Lemma cells_of_ext (a a' : MergeableStateAdapter) name w (g : Z → list pyval) :
  window_ids a' !! w = window_ids a !! w →
  (∀ k, k ∈ ids_of a w →
        as_list (InMemory.cell (raw_state a') k name) = g k) →
  cells_of a' name w = mjoin (g <$> ids_of a w).
Proof.
  intros Hi Hc. unfold cells_of.
  assert (ids_of a' w = ids_of a w) as -> by (unfold ids_of; by rewrite Hi).
  f_equal. apply list_fmap_ext. intros i k Hk. apply Hc.
  by eapply list_elem_of_lookup_2.
Qed.

Lemma mjoin_fmap_nil {A B} (l : list A) :
  mjoin ((λ _ : A, @nil B) <$> l) = [].
Proof. induction l as [|x l IH]; [done|]. by rewrite fmap_cons. Qed.

Lemma clear_state_tag_spec (a : MergeableStateAdapter) w t :
  good a →
  ∃ a', Adapter.clear_state w (Some t) a = Returns (tt, a') ∧ good a' ∧
        window_ids a' = window_ids a ∧ others_untouched w a a' ∧
        cells_of a' (tag t) w = [] ∧
        (∀ name, name ≠ tag t → cells_of a' name w = cells_of a name w).
Proof.
  intros Hg.
  exists (with_raw (drop_cells (tag t) (ids_of a w)) a). split_and!.
  - unfold Adapter.clear_state. erewrite bind_returns by reflexivity.
    erewrite bind_returns; [done|].
    apply (for_each_on_raw_modify (λ id, drop_cell (tag t) id)).
  - apply good_with_raw; [done|apply global_drop_cells| |].
    + intros id name. rewrite cell_drop_cells. case_decide; [by eexists|].
      apply (good_cells _ Hg).
    + intros id Hs. left. by apply state_drop_cells_is_Some in Hs.
  - done.
  - intros w' Hne. split; [done|]. intros k Hk. simpl.
    apply state_drop_cells_ne. by eapply other_window_ids_differ.
  - rewrite (cells_of_ext a _ _ w (λ _, [])); [apply mjoin_fmap_nil|done|].
    intros k Hk. simpl. rewrite cell_drop_cells. by rewrite decide_True.
  - intros name Hn.
    apply (cells_of_ext a _ _ w
             (λ k, as_list (InMemory.cell (raw_state a) k name))); [done|].
    intros k Hk. simpl. rewrite cell_drop_cells.
    rewrite decide_False; [done|]. by intros [_ ?].
Qed.

Lemma cell_drop_ids (raw : raw_backend) ids id name :
  InMemory.cell (drop_ids ids raw) id name =
  if decide (id ∈ ids) then VList [] else InMemory.cell raw id name.
Proof.
  unfold InMemory.cell. rewrite state_drop_ids. by case_decide.
Qed.

(** Clearing all state of a window also forgets the window. *)
Lemma clear_state_all_spec (a : MergeableStateAdapter) w :
  good a → known a w →
  ∃ a', Adapter.clear_state w None a = Returns (tt, a') ∧ good a' ∧
        window_ids a' = delete w (window_ids a) ∧
        counter a' = counter a ∧
        others_untouched w a a'.
Proof.
  intros Hg [ids Hl].
  exists (with_ids (delete w (window_ids a)) (with_raw (drop_ids (ids_of a w)) a)).
  split_and!.
  - unfold Adapter.clear_state. erewrite bind_returns by reflexivity.
    set (a1 := with_raw (drop_ids (ids_of a w)) a).
    assert (for_each (default [] (window_ids a !! w))
              (λ id, Adapter.on_raw (InMemory.clear_state id None)) a
            = Returns (tt, a1)) as Hfor
      by apply (for_each_on_raw_modify (λ id, InMemory.with_state (delete id))).
    erewrite bind_returns by apply Hfor.
    erewrite bind_returns by reflexivity.
    change (window_ids a1) with (window_ids a). rewrite Hl.
    apply set_ids_persist.
  - apply good_with_ids.
    + apply good_with_raw; [done|apply global_drop_ids| |].
      * intros id name. rewrite cell_drop_ids. case_decide; [by eexists|].
        apply (good_cells _ Hg).
      * intros id Hs. left. rewrite state_drop_ids in Hs.
        case_decide; [by destruct Hs|done].
    + simpl. apply ids_wf_delete, (good_ids _ Hg).
    + intros id Hs. simpl in Hs. rewrite state_drop_ids in Hs.
      case_decide as Hin; [by destruct Hs|].
      destruct (good_owned _ Hg id Hs) as (w' & Hh). exists w'.
      apply holds_delete. split; [|done]. intros ->.
      by apply Hin, in_ids_of_holds.
  - done.
  - done.
  - intros w' Hne. split.
    + simpl. by rewrite lookup_delete_ne.
    + intros k Hk. simpl. rewrite state_drop_ids.
      rewrite decide_False; [done|]. by eapply other_window_ids_differ.
Qed.

Lemma merge_step_good (a : MergeableStateAdapter) src dst ids :
  good a → src ≠ dst → window_ids a !! src = Some ids →
  good (with_ids (<[dst := default [] (window_ids a !! dst) ++ ids]>
                    (delete src (window_ids a))) a).
Proof.
  intros Hg Hne Hl. apply good_with_ids; [done| |].
  - apply ids_wf_move; [apply (good_ids _ Hg)|done..].
  - intros k Hs. destruct (good_owned _ Hg k Hs) as (w' & Hh).
    destruct (decide (w' = src)) as [->|Hs'].
    + exists dst. apply (holds_move _ src dst ids); [done..|]. left. tauto.
    + destruct (decide (w' = dst)) as [->|Hd].
      * exists dst. apply (holds_move _ src dst ids); [done..|]. left. tauto.
      * exists w'. apply (holds_move _ src dst ids); [done..|]. right. tauto.
Qed.

Lemma merge_one_spec (a : MergeableStateAdapter) (src dst : window) :
  good a →
  ∃ a1, Adapter.merge_one dst src a = Returns (tt, a1) ∧ good a1 ∧
        state (raw_state a1) = state (raw_state a) ∧
        counter a1 = counter a ∧
        (∀ k, holds (window_ids a1) dst k ↔
              holds (window_ids a) dst k ∨ (src ≠ dst ∧ holds (window_ids a) src k)) ∧
        (src ≠ dst → window_ids a1 !! src = None) ∧
        (∀ w, w ≠ src → w ≠ dst → window_ids a1 !! w = window_ids a !! w).
Proof.
  intros Hg. unfold Adapter.merge_one.
  case_bool_decide as Hne.
  2:{ exists a. split_and!; try done. intros k. tauto. }
  erewrite bind_returns by reflexivity.
  destruct (window_ids a !! src) as [ids|] eqn:Hl.
  2:{ exists a. split_and!; try done. intros k. split; [tauto|].
      intros [?|[_ (? & Hs & _)]]; [done|congruence]. }
  eexists. split; [apply set_ids_persist|]. split_and!; try done.
  - by apply merge_step_good.
  - intros k. simpl. rewrite (holds_move _ src dst ids) by done. tauto.
  - intros _. simpl. rewrite lookup_insert_ne by done. apply lookup_delete_eq.
  - intros w Hws Hwd. simpl. rewrite lookup_insert_ne by done.
    by rewrite lookup_delete_ne.
Qed.

(** [merge] returns and keeps the state of every id; the destination
    ends with its own ids and those of the source windows, the sources
    leave the map and every other window keeps its id-list. *)
Lemma merge_spec (a : MergeableStateAdapter) (srcs : list window) (dst : window) :
  good a →
  ∃ a', Adapter.merge srcs dst a = Returns (tt, a') ∧ good a' ∧
        state (raw_state a') = state (raw_state a) ∧
        counter a' = counter a ∧
        (∀ k, holds (window_ids a') dst k ↔
              holds (window_ids a) dst k ∨
              ∃ w, w ∈ srcs ∧ w ≠ dst ∧ holds (window_ids a) w k) ∧
        (∀ w, w ∈ srcs → w ≠ dst → window_ids a' !! w = None) ∧
        (∀ w, w ∉ srcs → w ≠ dst → window_ids a' !! w = window_ids a !! w).
Proof.
  unfold Adapter.merge. revert a.
  induction srcs as [|src srcs IH]; intros a Hg.
  - exists a. split_and!; try done.
    + intros k. split; [tauto|]. intros [?|(w & Hin & _)]; [done|inversion Hin].
    + intros w Hin. inversion Hin.
  - cbn [for_each].
    destruct (merge_one_spec a src dst Hg)
      as (a1 & Hstep & Hg1 & Hs1 & Hc1 & Hh1 & Hsrc1 & Hoth1).
    destruct (IH a1 Hg1) as (a' & Hrun & Hg' & Hs' & Hc' & Hh' & Hsrc' & Hoth').
    exists a'. split_and!.
    + by erewrite bind_returns by apply Hstep.
    + done.
    + congruence.
    + congruence.
    + intros k. rewrite Hh', Hh1. split.
      * intros [[?|[? ?]]|(w & Hin & Hwd & Hw)]; [by left| |].
        -- right. exists src. split_and!; [left|done..].
        -- right. exists w. split_and!; [by right|done|].
           destruct (decide (w = src)) as [->|Hws].
           ++ destruct Hw as (? & Hl & _). rewrite Hsrc1 in Hl; done.
           ++ unfold holds in *. by rewrite <- Hoth1.
      * intros [?|(w & Hin & Hwd & Hw)]; [by left; left|].
        destruct (decide (w = src)) as [->|Hws]; [left; right; done|].
        apply elem_of_cons in Hin as [->|Hin]; [done|].
        right. exists w. split_and!; [done..|].
        unfold holds in *. by rewrite Hoth1.
    + intros w Hin Hwd. apply elem_of_cons in Hin as [->|Hin]; [|by apply Hsrc'].
      destruct (decide (src ∈ srcs)) as [Hin|Hnin]; [by apply Hsrc'|].
      rewrite Hoth' by done. by apply Hsrc1.
    + intros w Hnin Hwd. apply not_elem_of_cons in Hnin as [Hne Hnin].
      rewrite Hoth' by done. by apply Hoth1.
Qed.

Lemma clear_state_all_unknown (a : MergeableStateAdapter) w :
  ¬ known a w → Adapter.clear_state w None a = Raises KeyError.
Proof.
  intros Hk. unfold Adapter.clear_state.
  erewrite bind_returns by reflexivity.
  destruct (window_ids a !! w) as [ids|] eqn:Hl; [destruct Hk; by eexists|].
  cbn [default for_each]. erewrite bind_returns by reflexivity.
  erewrite bind_returns by reflexivity. by rewrite Hl.
Qed.

Lemma set_timer_good (a : MergeableStateAdapter) w name ts a' :
  good a → Adapter.set_timer w name ts a = Returns (tt, a') → good a'.
Proof.
  intros Hg. unfold Adapter.set_timer.
  destruct (get_id_ensures a w Hg) as (id & rest & a1 & Hget & Hg1 & _).
  erewrite bind_returns by apply Hget.
  unfold InMemory.set_timer. rewrite on_raw_modify. intros [= <-].
  apply good_with_raw; [done|done|apply (good_cells _ Hg1)|]. intros k. by left.
Qed.

Lemma call_good (a a' : MergeableStateAdapter) (c : adapter_call) :
  good a → call c a = Returns (tt, a') → good a'.
Proof.
  intros Hg. destruct c as [w name ts|w name|w t v|w [t|]|srcs dst]; simpl.
  - by apply set_timer_good.
  - destruct (clear_timer_spec a w name Hg) as (a1 & -> & Hg1 & _).
    by intros [= <-].
  - destruct t as [name|name cf|name]; [done|..].
    + destruct (add_state_spec a w (CombiningValueStateTag name cf) v Hg)
        as (a1 & -> & Hg1 & _); [done|]. by intros [= <-].
    + destruct (add_state_spec a w (ListStateTag name) v Hg)
        as (a1 & -> & Hg1 & _); [done|]. by intros [= <-].
  - destruct (clear_state_tag_spec a w t Hg) as (a1 & -> & Hg1 & _).
    by intros [= <-].
  - destruct (decide (known a w)) as [Hk|Hk].
    + destruct (clear_state_all_spec a w Hg Hk) as (a1 & -> & Hg1 & _).
      by intros [= <-].
    + by rewrite clear_state_all_unknown.
  - destruct (merge_spec a srcs dst Hg) as (a1 & -> & Hg1 & _).
    by intros [= <-].
Qed.

Lemma reachable_good (a : MergeableStateAdapter) : reachable a → good a.
Proof.
  induction 1 as [dc|a c a' _ IH Hcall|a _ IH].
  - apply good_init_empty.
  - by eapply call_good.
  - by apply good_rewrap.
Qed.

Lemma get_window_returns (a a' : MergeableStateAdapter) (id : Z) (w : window) :
  Adapter.get_window id a = Returns (w, a') →
  a' = a ∧ holds (window_ids a) w id.
Proof.
  unfold Adapter.get_window. erewrite bind_returns by reflexivity.
  destruct (list_find _ _) as [[i [w' ids]]|] eqn:Hfind; [|done].
  intros [= <- <-]. split; [done|].
  apply list_find_Some in Hfind as (Hlook & Hin & _).
  apply list_elem_of_lookup_2, elem_of_map_to_list in Hlook. by exists ids.
Qed.

(** C10: in every state the merge adapter can reach, an internal id is
    in the id-list of at most one window (and once in it); the id
    [_get_id] gives a new window is above every id of the map; [merge]
    moves the ids of the source windows to the destination, removes the
    sources and leaves the other windows alone; and [get_window(id)]
    can only return the one window holding [id]. *)
Theorem window_ids_hold_each_id_once (a : MergeableStateAdapter) :
  reachable a →
  (∀ w1 w2 id,
     holds (window_ids a) w1 id → holds (window_ids a) w2 id → w1 = w2) ∧
  (∀ w ids, window_ids a !! w = Some ids → NoDup ids) ∧
  (∀ w, window_ids a !! w = None →
     ∃ id a', Adapter._get_id w a = Returns (id, a') ∧
              window_ids a' = <[w := [id]]> (window_ids a) ∧
              ∀ w' k, holds (window_ids a) w' k → k < id) ∧
  (∀ srcs dst,
     ∃ a', Adapter.merge srcs dst a = Returns (tt, a') ∧
           (∀ k, holds (window_ids a') dst k ↔
                 holds (window_ids a) dst k ∨
                 ∃ w, w ∈ srcs ∧ w ≠ dst ∧ holds (window_ids a) w k) ∧
           (∀ w, w ∈ srcs → w ≠ dst → window_ids a' !! w = None) ∧
           (∀ w, w ∉ srcs → w ≠ dst →
                 window_ids a' !! w = window_ids a !! w)) ∧
  (∀ id w a', Adapter.get_window id a = Returns (w, a') →
     holds (window_ids a) w id ∧
     ∀ w', holds (window_ids a) w' id → w' = w).
Proof.
  intros Hr. pose proof (reachable_good a Hr) as Hg.
  pose proof (good_ids _ Hg) as Hwf. split_and!.
  - apply (wf_disjoint _ _ Hwf).
  - apply (wf_nodup _ _ Hwf).
  - intros w Hnone. destruct (get_id_fresh a w Hwf Hnone) as (id & Hget & Hfresh).
    eexists id, _. split; [exact Hget|]. split; [done|]. exact Hfresh.
  - intros srcs dst.
    destruct (merge_spec a srcs dst Hg) as (a' & Hm & _ & _ & _ & Hd & Hs & Ho).
    by exists a'.
  - intros id w a' Hgw. apply get_window_returns in Hgw as [_ Hh].
    split; [done|]. intros w' Hh'. by apply (wf_disjoint _ _ Hwf _ _ id).
Qed.

Lemma merged_state_reachable : reachable merged_state.
Proof.
  apply (reachable_call W1_written (CallMerge [W0; W1] W01));
    [|vm_compute; reflexivity].
  apply (reachable_call W0_written
           (CallAddState W1 (ListStateTag "elements") (VInt 2)));
    [|vm_compute; reflexivity].
  apply (reachable_call (Adapter.init empty_backend)
           (CallAddState W0 (ListStateTag "elements") (VInt 1)));
    [|vm_compute; reflexivity].
  apply (reachable_new true).
Qed.

Lemma window_ids_hold_each_id_once_witness :
  reachable merged_state ∧
  ∀ w1 w2 id,
    holds (window_ids merged_state) w1 id →
    holds (window_ids merged_state) w2 id → w1 = w2.
Proof.
  split; [exact merged_state_reachable|].
  exact (proj1 (window_ids_hold_each_id_once merged_state merged_state_reachable)).
Defined.

(** ** The general driver on one window *)

Lemma truthy_count (l : list pyval) :
  truthy (VInt (Z.of_nat (length l))) = true ↔ l ≠ [].
Proof.
  unfold truthy. rewrite negb_true_iff, Z.eqb_neq. split.
  - intros Hn ->. by apply Hn.
  - intros Hn Hz. destruct l; [done|]. cbn [length] in Hz. lia.
Qed.

Lemma get_state_tombstone (a : MergeableStateAdapter) (w : window) :
  good a →
  ∃ v, Adapter.get_state w Driver.TOMBSTONE a = Returns (v, a) ∧
       (truthy v = true ↔ tombstoned a w).
Proof.
  intros Hg. exists (VInt (Z.of_nat (length (cells_of a "tombstone" w)))).
  split; [apply get_state_count, Hg|apply truthy_count].
Qed.

Lemma keeps_window_refl w a : good a → known a w → keeps_window w a a.
Proof. intros Hg Hk. split; try done; apply others_untouched_refl. Qed.

Lemma keeps_window_trans w a1 a2 a3 :
  keeps_window w a1 a2 → keeps_window w a2 a3 → keeps_window w a1 a3.
Proof.
  intros [? ? Ho1 He1 Ht1] [? ? Ho2 He2 Ht2]. split; try done.
  - by eapply others_untouched_trans.
  - congruence.
  - congruence.
Qed.

Lemma perm_nil_snoc {A} (l : list A) (v : A) : ¬ ([] ≡ₚ l ++ [v]).
Proof.
  intros Hp. apply Permutation_length in Hp. rewrite length_app in Hp.
  simpl in Hp. lia.
Qed.

(** [_output]: the pane carries the elements held; a finished window
    ends with no element and its tombstone set, a window fired in
    DISCARDING mode with no element, one fired in ACCUMULATING mode
    unchanged. *)
Lemma output_spec (drv : GeneralTriggerDriver) (a : MergeableStateAdapter)
    (w : window) (finished : bool) :
  good a → known a w →
  ∃ a', Driver._output drv w finished a = Returns ((w, VList (held a w)), a') ∧
        good a' ∧ known a' w ∧ others_untouched w a a' ∧
        (tombstoned a w → tombstoned a' w) ∧
        (finished = true → tombstoned a' w ∧ held a' w = []) ∧
        (finished = false → accumulation_mode drv = DISCARDING →
           held a' w = [] ∧
           cells_of a' "tombstone" w = cells_of a "tombstone" w) ∧
        (finished = false → accumulation_mode drv = ACCUMULATING → a' = a).
Proof.
  intros Hg Hk. unfold Driver._output.
  erewrite bind_returns by (by apply get_state_list).
  destruct finished.
  - destruct (clear_state_all_spec a w Hg Hk) as (a1 & Hc & Hg1 & Hi1 & _ & Ho1).
    destruct (add_state_spec a1 w Driver.TOMBSTONE (VInt 1) Hg1)
      as (a2 & Ha & Hg2 & Hk2 & Ho2 & _ & Hp2 & _ & Hn2); [done|].
    exists a2.
    assert (tombstoned a2 w) as Ht.
    { unfold tombstoned. intros Hnil. simpl in Hp2. rewrite Hnil in Hp2.
      by apply perm_nil_snoc in Hp2. }
    assert (ids_of a1 w = []) as Hids1.
    { unfold ids_of. by rewrite Hi1, lookup_delete_eq. }
    split_and!; try done.
    + erewrite bind_returns; [done|].
      erewrite bind_returns by apply Hc. exact Ha.
    + by eapply others_untouched_trans.
    + split; [done|]. unfold held. rewrite Hn2 by done.
      unfold cells_of. by rewrite Hids1.
  - destruct (accumulation_mode drv) eqn:Hmode.
    + destruct (clear_state_tag_spec a w Driver.ELEMENTS Hg)
        as (a1 & Hc & Hg1 & Hi1 & Ho1 & He1 & Hn1).
      exists a1. split_and!; try done.
      * by erewrite bind_returns by apply Hc.
      * unfold known. by rewrite Hi1.
      * unfold tombstoned. by rewrite Hn1.
      * intros _ _. split; [done|]. by apply Hn1.
    + exists a. split_and!; try done; apply others_untouched_refl.
Qed.

Lemma maybe_fire_spec (drv : GeneralTriggerDriver) (a : MergeableStateAdapter)
    (wm : watermark) (w : window) :
  well_behaved (trigger_fn drv) → good a → known a w →
  ∃ panes a', Driver.maybe_fire drv wm w a = Returns (panes, a') ∧
              good a' ∧ known a' w ∧ others_untouched w a a' ∧
              (tombstoned a w → tombstoned a' w) ∧
              fired drv w a panes a'.
Proof.
  intros Hwb Hg Hk. unfold Driver.maybe_fire.
  destruct (wb_should_fire _ Hwb a w wm Hg Hk) as (b & a1 & Hsf & Hk1).
  erewrite bind_returns by apply Hsf.
  destruct Hk1 as [Hg1 Hkn1 Ho1 He1 Ht1]. destruct b.
  - destruct (wb_on_fire _ Hwb a1 w wm Hg1 Hkn1) as (fin & a2 & Hof & Hk2).
    erewrite bind_returns by apply Hof.
    destruct Hk2 as [Hg2 Hkn2 Ho2 He2 Ht2].
    destruct (output_spec drv a2 w fin Hg2 Hkn2)
      as (a3 & Hout & Hg3 & Hkn3 & Ho3 & Htm & Hfin & Hdis & Hacc).
    erewrite bind_returns by apply Hout.
    assert (held a2 w = held a w) as Hheld by (unfold held; congruence).
    exists [(w, VList (held a w))], a3. split_and!; try done.
    + by rewrite Hheld.
    + eapply others_untouched_trans; [|done].
      by eapply others_untouched_trans.
    + intros Ht. apply Htm. unfold tombstoned in *. congruence.
    + right. split; [done|]. destruct fin.
      * left. destruct (Hfin eq_refl) as [? ?]. split; [done|by left].
      * destruct (accumulation_mode drv) eqn:Hmode.
        -- left. destruct (Hdis eq_refl eq_refl) as [? ?]. split; [done|by right].
        -- right. rewrite (Hacc eq_refl eq_refl). split_and!; [done..|congruence].
  - exists [], a1. split_and!; try done.
    + unfold tombstoned. congruence.
    + left. split_and!; [done|by unfold held|done].
Qed.

Lemma add_elements_spec (drv : GeneralTriggerDriver) (a : MergeableStateAdapter)
    (w : window) (values : list pyval) :
  well_behaved (trigger_fn drv) → good a →
  ∃ a', Driver.add_elements drv w values a = Returns (tt, a') ∧ good a' ∧
        others_untouched w a a' ∧
        held a' w ≡ₚ held a w ++ values ∧
        cells_of a' "tombstone" w = cells_of a "tombstone" w ∧
        (known a w ∨ values ≠ [] → known a' w).
Proof.
  intros Hwb. unfold Driver.add_elements. revert a.
  induction values as [|v values IH]; intros a Hg.
  - exists a.
    split_and!; [done|done|apply others_untouched_refl|by rewrite app_nil_r|
                 done|by intros [?|?]].
  - cbn [for_each].
    destruct (add_state_spec a w Driver.ELEMENTS v Hg)
      as (a1 & Ha & Hg1 & Hk1 & Ho1 & _ & Hp1 & _ & Hn1); [done|].
    destruct (wb_on_element _ Hwb a1 w v Hg1 Hk1) as (a2 & Hoe & Hk2).
    destruct Hk2 as [Hg2 Hkn2 Ho2 He2 Ht2].
    destruct (IH a2 Hg2) as (a' & Hrest & Hg' & Ho' & Hp' & Ht' & Hk').
    exists a'. split_and!; try done.
    + erewrite bind_returns; [exact Hrest|].
      erewrite bind_returns by apply Ha. exact Hoe.
    + eapply others_untouched_trans; [|done].
      by eapply others_untouched_trans.
    + rewrite Hp'. unfold held. rewrite He2. simpl in Hp1. rewrite Hp1.
      by rewrite <- app_assoc.
    + rewrite Ht', Ht2. by apply Hn1.
    + intros _. apply Hk'. by left.
Qed.

Lemma process_window_spec (drv : GeneralTriggerDriver) (a : MergeableStateAdapter)
    (w : window) (values : list pyval) :
  well_behaved (trigger_fn drv) → good a → values ≠ [] →
  ∃ panes a', Driver.process_window drv w values a = Returns (panes, a') ∧
              good a' ∧ others_untouched w a a' ∧
              window_step drv w values a panes a'.
Proof.
  intros Hwb Hg Hne. unfold Driver.process_window.
  destruct (get_state_tombstone a w Hg) as (v & Hget & Htr).
  erewrite bind_returns by apply Hget.
  destruct (truthy v) eqn:Hv.
  - exists [], a. split_and!; [done|done|apply others_untouched_refl|].
    left. split_and!; [by apply Htr|done|apply untouched_refl].
  - assert (¬ tombstoned a w) as Hnt.
    { intros Ht. apply Htr in Ht. congruence. }
    destruct (add_elements_spec drv a w values Hwb Hg)
      as (a1 & Ha & Hg1 & Ho1 & Hp1 & Ht1 & Hk1).
    erewrite bind_returns by apply Ha.
    destruct (maybe_fire_spec drv a1 NegInf w Hwb Hg1)
      as (panes & a2 & Hf & Hg2 & Hk2 & Ho2 & _ & Hfired); [by apply Hk1; right|].
    exists panes, a2. split_and!; try done.
    + by eapply others_untouched_trans.
    + right. split_and!; [done..|].
      destruct Hfired as [(-> & Hh & Ht)|(-> & Hh)].
      * left. split_and!; [done|by rewrite Hh|].
        unfold tombstoned in *. by rewrite Ht, Ht1.
      * right. exists (held a1 w). split_and!; [done..|].
        destruct Hh as [[? ?]|(? & ? & Ht)]; [by left|right].
        split_and!; [done..|]. unfold tombstoned in *. by rewrite Ht, Ht1.
Qed.

(** *** The element loop *)

Lemma panes_for_app w (p1 p2 : list pane) :
  panes_for w (p1 ++ p2) = panes_for w p1 ++ panes_for w p2.
Proof. apply filter_app. Qed.

Lemma window_step_panes drv w values a panes a' w' :
  window_step drv w values a panes a' →
  panes_for w' panes = if decide (w' = w) then panes else [].
Proof.
  intros [(_ & -> & _)|(_ & _ & [(-> & _)|(vs & -> & _)])];
    [by case_decide..|].
  unfold panes_for. rewrite filter_cons. simpl.
  destruct (decide (w' = w)) as [->|Hne].
  - by rewrite decide_True.
  - by rewrite decide_False by done.
Qed.

Lemma element_loop_spec (drv : GeneralTriggerDriver)
    (items : list (window * list pyval)) (a : MergeableStateAdapter) :
  well_behaved (trigger_fn drv) → good a →
  NoDup items.*1 → (∀ w vs, (w, vs) ∈ items → vs ≠ []) →
  ∃ panes a', Driver.element_loop drv items a = Returns (panes, a') ∧ good a' ∧
    (∀ w, w ∉ items.*1 → untouched w a a' ∧ panes_for w panes = []) ∧
    (∀ w vs, (w, vs) ∈ items →
       ∃ a1 a2, good a1 ∧ untouched w a a1 ∧
                Driver.process_window drv w vs a1
                  = Returns (panes_for w panes, a2) ∧
                untouched w a2 a').
Proof.
  intros Hwb. revert a. induction items as [|[w vs] items IH];
    intros a Hg Hnd Hne.
  - exists [], a. split_and!; [done|done| |].
    + intros w _. split; [apply untouched_refl|done].
    + intros w vs Hin. inversion Hin.
  - cbn [Driver.element_loop]. rewrite fmap_cons in Hnd.
    apply NoDup_cons in Hnd as [Hnin Hnd].
    destruct (process_window_spec drv a w vs Hwb Hg)
      as (pw & a1 & Hpw & Hg1 & Ho1 & Hstep); [eapply Hne; left|].
    destruct (IH a1 Hg1 Hnd) as (later & a' & Hloop & Hg' & Hout & Hin).
    { intros w' vs' Hin'. eapply Hne. by right. }
    exists (pw ++ later), a'. split_and!; [|done| |].
    + erewrite bind_returns by apply Hpw. by erewrite bind_returns by apply Hloop.
    + intros w' Hw'. rewrite fmap_cons in Hw'.
      apply not_elem_of_cons in Hw' as [Hne' Hw']. simpl in Hne'.
      destruct (Hout w' Hw') as [Hu Hp]. split.
      * eapply untouched_trans; [by apply Ho1|done].
      * rewrite panes_for_app, Hp, (window_step_panes _ _ _ _ _ _ w' Hstep).
        by rewrite decide_False.
    + intros w' vs' Hin'. apply elem_of_cons in Hin' as [[= -> ->]|Hin'].
      * destruct (Hout w Hnin) as [Hu Hp]. exists a, a1.
        split_and!; [done|apply untouched_refl| |done].
        rewrite panes_for_app, Hp, (window_step_panes _ _ _ _ _ _ w Hstep).
        by rewrite decide_True, app_nil_r.
      * assert (w' ≠ w) as Hne'.
        { intros ->. apply Hnin. apply list_elem_of_fmap. by exists (w, vs'). }
        destruct (Hin w' vs' Hin') as (b1 & b2 & Hgb & Hub & Hpb & Hub').
        exists b1, b2. split_and!; [done| | |done].
        -- eapply untouched_trans; [by apply Ho1|done].
        -- rewrite panes_for_app, (window_step_panes _ _ _ _ _ _ w' Hstep).
           by rewrite decide_False.
Qed.

(** *** Bucketing the values of a bundle by window *)

Lemma extend_keys (w : window) (vs : list pyval) (d : list (window * list pyval)) :
  (Driver.extend w vs d).*1 = if decide (w ∈ d.*1) then d.*1 else d.*1 ++ [w].
Proof.
  induction d as [|[w' vs'] d IH].
  - cbn [Driver.extend]. destruct (decide (w ∈ ([] : list (window * list pyval)).*1))
      as [Hin|_]; [inversion Hin|done].
  - cbn [Driver.extend]. rewrite !fmap_cons. cbn [fst].
    case_bool_decide as Hw.
    + subst w'. rewrite decide_True; [done|left].
    + rewrite fmap_cons, IH. cbn [fst].
      destruct (decide (w ∈ d.*1)) as [Hin|Hnin].
      * rewrite decide_True; [done|by right].
      * rewrite decide_False; [done|].
        intros Hin. apply elem_of_cons in Hin as [?|?]; done.
Qed.

Lemma extend_NoDup w vs d : NoDup d.*1 → NoDup (Driver.extend w vs d).*1.
Proof.
  intros Hnd. rewrite extend_keys. case_decide as Hin; [done|].
  apply NoDup_app. split_and!; [done| |apply NoDup_singleton].
  intros x Hx Hx'. apply list_elem_of_singleton in Hx' as ->. done.
Qed.

Lemma bucket_values_cons p d w :
  bucket_values (p :: d) w =
  (if decide (p.1 = w) then p.2 else []) ++ bucket_values d w.
Proof. done. Qed.

Lemma bucket_values_absent d w : w ∉ d.*1 → bucket_values d w = [].
Proof.
  induction d as [|[w' vs'] d IH]; intros Hnin; [done|].
  rewrite fmap_cons in Hnin. apply not_elem_of_cons in Hnin as [Hne Hnin].
  rewrite bucket_values_cons. cbn [fst snd] in *.
  rewrite decide_False by done. by apply IH.
Qed.

Lemma bucket_values_extend w vs d w' :
  NoDup d.*1 →
  bucket_values (Driver.extend w vs d) w' =
  bucket_values d w' ++ (if decide (w = w') then vs else []).
Proof.
  induction d as [|[w0 vs0] d IH]; intros Hnd.
  - cbn [Driver.extend]. rewrite bucket_values_cons. cbn [fst snd].
    by rewrite app_nil_r.
  - rewrite fmap_cons in Hnd. apply NoDup_cons in Hnd as [Hnin Hnd].
    cbn [fst] in Hnin. cbn [Driver.extend]. case_bool_decide as Hw.
    + subst w0. rewrite !bucket_values_cons. cbn [fst snd].
      destruct (decide (w = w')) as [->|Hne].
      * rewrite (bucket_values_absent d w' Hnin). by rewrite !app_nil_r.
      * by rewrite !app_nil_r.
    + rewrite !bucket_values_cons. rewrite IH by done. by rewrite app_assoc.
Qed.

Lemma bucket_values_member d w vs :
  NoDup d.*1 → (w, vs) ∈ d → bucket_values d w = vs.
Proof.
  induction d as [|[w0 vs0] d IH]; intros Hnd Hin; [inversion Hin|].
  rewrite fmap_cons in Hnd. apply NoDup_cons in Hnd as [Hnin Hnd].
  cbn [fst] in Hnin. rewrite bucket_values_cons. cbn [fst snd].
  apply elem_of_cons in Hin as [[= -> ->]|Hin].
  - rewrite decide_True by done.
    by rewrite (bucket_values_absent d w0 Hnin), app_nil_r.
  - rewrite decide_False.
    + by apply IH.
    + intros ->. apply Hnin. apply list_elem_of_fmap. by exists (w, vs).
Qed.

Lemma extend_nonempty w vs d :
  vs ≠ [] → (∀ w' vs', (w', vs') ∈ d → vs' ≠ []) →
  ∀ w' vs', (w', vs') ∈ Driver.extend w vs d → vs' ≠ [].
Proof.
  intros Hvs. induction d as [|[w0 vs0] d IH]; intros Hd w' vs' Hin.
  - apply list_elem_of_singleton in Hin as [= -> ->]. done.
  - cbn [Driver.extend] in Hin. case_bool_decide as Hw.
    + apply elem_of_cons in Hin as [[= -> ->]|Hin].
      * intros Happ. apply app_eq_nil in Happ as [_ ?]. done.
      * eapply Hd. by right.
    + apply elem_of_cons in Hin as [[= -> ->]|Hin].
      * eapply Hd. left.
      * eapply IH; [|done]. intros w1 vs1 Hin1. eapply Hd. by right.
Qed.

Lemma addressed_cons wv wvs w :
  addressed (wv :: wvs) w =
  mjoin ((λ w', if decide (w' = w) then [value wv] else []) <$> windows wv)
  ++ addressed wvs w.
Proof. done. Qed.

Lemma bucket_windows_spec (wv : WindowedValue) (ws : list window)
    (d : list (window * list pyval)) :
  NoDup d.*1 → (∀ w vs, (w, vs) ∈ d → vs ≠ []) →
  let d' := foldl (λ d w, Driver.extend w [value wv] d) d ws in
  NoDup d'.*1 ∧ (∀ w vs, (w, vs) ∈ d' → vs ≠ []) ∧
  ∀ w, bucket_values d' w = bucket_values d w ++
         mjoin ((λ w', if decide (w' = w) then [value wv] else []) <$> ws).
Proof.
  revert d. induction ws as [|w0 ws IH]; intros d Hnd Hne.
  - cbn [foldl]. split_and!; [done..|]. intros w. rewrite fmap_nil.
    by rewrite app_nil_r.
  - cbn [foldl].
    destruct (IH (Driver.extend w0 [value wv] d)) as (Hnd' & Hne' & Hv').
    { by apply extend_NoDup. }
    { by apply extend_nonempty. }
    split_and!; [done..|]. intros w. rewrite Hv'.
    rewrite bucket_values_extend by done. rewrite fmap_cons.
    change (mjoin (?x :: ?xs)) with (x ++ mjoin xs).
    by rewrite <- app_assoc.
Qed.

Lemma bucket_fold_spec (wvs : list WindowedValue) (d : list (window * list pyval)) :
  NoDup d.*1 → (∀ w vs, (w, vs) ∈ d → vs ≠ []) →
  let d' := foldl (λ d wv, foldl (λ d w, Driver.extend w [value wv] d) d
                                  (windows wv)) d wvs in
  NoDup d'.*1 ∧ (∀ w vs, (w, vs) ∈ d' → vs ≠ []) ∧
  ∀ w, bucket_values d' w = bucket_values d w ++ addressed wvs w.
Proof.
  revert d. induction wvs as [|wv wvs IH]; intros d Hnd Hne.
  - cbn [foldl]. split_and!; [done..|]. intros w. by rewrite app_nil_r.
  - cbn [foldl].
    destruct (bucket_windows_spec wv (windows wv) d Hnd Hne) as (Hnd1 & Hne1 & Hv1).
    destruct (IH _ Hnd1 Hne1) as (Hnd2 & Hne2 & Hv2).
    split_and!; [done..|]. intros w. rewrite Hv2, Hv1, addressed_cons.
    by rewrite <- app_assoc.
Qed.

(** The buckets of a bundle have distinct windows, no empty bucket, and
    hold for each window the values addressed to it, in order. *)
Lemma bucket_spec (wvs : list WindowedValue) :
  NoDup (Driver.bucket wvs).*1 ∧
  (∀ w vs, (w, vs) ∈ Driver.bucket wvs → vs ≠ []) ∧
  (∀ w, bucket_values (Driver.bucket wvs) w = addressed wvs w).
Proof.
  destruct (bucket_fold_spec wvs []) as (Hnd & Hne & Hv).
  - apply NoDup_nil_2.
  - intros w vs Hin. inversion Hin.
  - split_and!; [done..|]. intros w. exact (Hv w).
Qed.

(** *** Windows that do not merge *)

Lemma extend_absent w vs (d : list (window * list pyval)) :
  w ∉ d.*1 → Driver.extend w vs d = d ++ [(w, vs)].
Proof.
  induction d as [|[w0 vs0] d IH]; intros Hnin; [done|].
  rewrite fmap_cons in Hnin. apply not_elem_of_cons in Hnin as [Hne Hnin].
  cbn [Driver.extend]. cbn [fst] in Hne. rewrite bool_decide_eq_false_2 by done.
  by rewrite IH.
Qed.

Lemma rewrite_buckets_no_merge (items merged : list (window * list pyval))
    (a : MergeableStateAdapter) :
  NoDup (merged ++ items).*1 →
  Driver.rewrite_buckets ∅ items merged a = Returns (merged ++ items, a).
Proof.
  revert merged. induction items as [|[w vs] items IH]; intros merged Hnd.
  - by rewrite app_nil_r.
  - cbn [Driver.rewrite_buckets]. rewrite map_size_empty.
    cbn [Driver.chase]. rewrite lookup_empty.
    rewrite extend_absent.
    + rewrite IH; rewrite <- app_assoc; done.
    + rewrite fmap_app, fmap_cons in Hnd. apply NoDup_app in Hnd as (_ & Hd & _).
      intros Hin. apply (Hd w Hin). left.
Qed.

Lemma handle_merging_no_merge (drv : GeneralTriggerDriver)
    (items : list (window * list pyval)) (a : MergeableStateAdapter) :
  never_merges (window_fn drv) → NoDup items.*1 →
  Driver.handle_merging drv items a = Returns (items, a).
Proof.
  intros Hnm Hnd. unfold Driver.handle_merging.
  erewrite bind_returns by reflexivity.
  case_bool_decide; [|done]. rewrite Hnm. cbn [Driver.run_merges].
  erewrite bind_returns by reflexivity.
  by apply (rewrite_buckets_no_merge items []).
Qed.

(** *** A new adapter over the backend an adapter has worked on *)

Lemma rewrap_window_ids (a : MergeableStateAdapter) :
  good a → window_ids (Adapter.init (raw_state a)) = window_ids a.
Proof. intros Hg. apply (good_persisted _ Hg). Qed.

Lemma rewrap_untouched (a : MergeableStateAdapter) w :
  good a → untouched w a (Adapter.init (raw_state a)).
Proof.
  intros Hg. apply untouched_same_state; [|done].
  by rewrite rewrap_window_ids.
Qed.

Lemma untouched_sym w a a' : untouched w a a' → untouched w a' a.
Proof.
  intros [Hi Hs]. split; [done|]. intros id Hin. symmetry. apply Hs.
  unfold ids_of in *. by rewrite <- Hi.
Qed.

(** *** Whole calls of the driver *)

Lemma untouched_held w a a' : untouched w a a' → held a' w = held a w.
Proof. apply untouched_cells_of. Qed.

Lemma window_step_transfer drv w vs a a1 pw a2 a' :
  untouched w a a1 → window_step drv w vs a1 pw a2 → untouched w a2 a' →
  window_step drv w vs a pw a'.
Proof.
  intros Hu1 Hstep Hu2.
  pose proof (untouched_held _ _ _ Hu1) as Hh1.
  pose proof (untouched_held _ _ _ Hu2) as Hh2.
  pose proof (untouched_tombstoned _ _ _ Hu1) as Ht1.
  pose proof (untouched_tombstoned _ _ _ Hu2) as Ht2.
  pose proof (untouched_known _ _ _ Hu2) as Hk2.
  destruct Hstep as [(Ht & -> & Hu)|(Hnt & Hk & Hcases)].
  - left. split_and!; [by apply Ht1|done|].
    eapply untouched_trans; [done|]. by eapply untouched_trans.
  - right. split_and!; [by rewrite <- Ht1|by apply Hk2|].
    rewrite Hh2, <- Hh1.
    destruct Hcases as [(-> & Hp & Hn)|(vs0 & -> & Hp & Hc)].
    + left. split_and!; [done|done|by rewrite Ht2].
    + right. exists vs0. split_and!; [done..|].
      destruct Hc as [[? Hc]|(? & ? & ?)]; [left|right].
      * split; [done|]. destruct Hc as [?|?]; [left|by right]. by rewrite Ht2.
      * split_and!; [done..|by rewrite Ht2].
Qed.

Lemma process_elements_spec (drv : GeneralTriggerDriver)
    (wvs : list WindowedValue) (raw : raw_backend) :
  well_behaved (trigger_fn drv) → never_merges (window_fn drv) → good_raw raw →
  ∃ panes raw',
    Driver.process_elements drv wvs raw = Returns (panes, raw') ∧
    good_raw raw' ∧
    ∀ w,
      (addressed wvs w = [] →
         untouched w (Adapter.init raw) (Adapter.init raw') ∧
         panes_for w panes = []) ∧
      (addressed wvs w ≠ [] →
         ∃ a1 a2, good a1 ∧ untouched w (Adapter.init raw) a1 ∧
                  Driver.process_window drv w (addressed wvs w) a1
                    = Returns (panes_for w panes, a2) ∧
                  untouched w a2 (Adapter.init raw')).
Proof.
  intros Hwb Hnm Hg. destruct (bucket_spec wvs) as (Hnd & Hne & Hv).
  destruct (element_loop_spec drv (Driver.bucket wvs) (Adapter.init raw)
              Hwb Hg Hnd Hne) as (panes & a' & Hloop & Hg' & Hout & Hin).
  exists panes, (raw_state a'). split_and!.
  - unfold Driver.process_elements, Driver.wrapped.
    erewrite bind_returns by (by apply handle_merging_no_merge).
    by rewrite Hloop.
  - by apply good_rewrap.
  - intros w. destruct (decide (w ∈ (Driver.bucket wvs).*1)) as [Hw|Hw].
    + apply list_elem_of_fmap in Hw as ([w' vs] & -> & Hw). cbn [fst].
      pose proof (bucket_values_member _ _ _ Hnd Hw) as Hvs.
      rewrite Hv in Hvs. subst vs. split.
      * intros Hnil. by destruct (Hne _ _ Hw).
      * intros _. destruct (Hin _ _ Hw) as (a1 & a2 & Hg1 & Hu1 & Hpw & Hu2).
        exists a1, a2. split_and!; [done..|].
        eapply untouched_trans; [done|]. by apply rewrap_untouched.
    + destruct (Hout w Hw) as [Hu Hp]. split.
      * intros _. split; [|done].
        eapply untouched_trans; [done|]. by apply rewrap_untouched.
      * intros Hne'. destruct Hne'. rewrite <- Hv. by apply bucket_values_absent.
Qed.

(** A call of [process_elements] on windows that do not merge: a window
    the bundle does not address is left alone, a window it addresses
    makes one step of the element loop. *)
Lemma process_elements_steps (drv : GeneralTriggerDriver)
    (wvs : list WindowedValue) (raw : raw_backend) :
  well_behaved (trigger_fn drv) → never_merges (window_fn drv) → good_raw raw →
  ∃ panes raw',
    Driver.process_elements drv wvs raw = Returns (panes, raw') ∧
    good_raw raw' ∧
    ∀ w,
      (addressed wvs w = [] →
         untouched w (Adapter.init raw) (Adapter.init raw') ∧
         panes_for w panes = []) ∧
      (addressed wvs w ≠ [] →
         window_step drv w (addressed wvs w) (Adapter.init raw)
                     (panes_for w panes) (Adapter.init raw')).
Proof.
  intros Hwb Hnm Hg.
  destruct (process_elements_spec drv wvs raw Hwb Hnm Hg)
    as (panes & raw' & Hrun & Hg' & Hw).
  exists panes, raw'. split_and!; [done..|]. intros w.
  destruct (Hw w) as [Hnil Hne]. split; [done|]. intros Hadd.
  destruct (Hne Hadd) as (a1 & a2 & Hg1 & Hu1 & Hpw & Hu2).
  destruct (process_window_spec drv a1 w (addressed wvs w) Hwb Hg1 Hadd)
    as (pw & a2' & Hpw' & _ & _ & Hstep).
  rewrite Hpw in Hpw'. injection Hpw' as <- <-.
  by eapply window_step_transfer.
Qed.

Lemma known_windows_elem (a : MergeableStateAdapter) (w : window) :
  w ∈ Adapter.known_windows a ↔ known a w.
Proof.
  unfold Adapter.known_windows, known. rewrite list_elem_of_fmap. split.
  - intros ([w' ids] & -> & Hin). apply elem_of_map_to_list in Hin. by eexists.
  - intros [ids Hl]. exists (w, ids). split; [done|].
    by apply elem_of_map_to_list.
Qed.

Lemma get_window_cases (a : MergeableStateAdapter) (id : Z) :
  (∃ w, Adapter.get_window id a = Returns (w, a) ∧ holds (window_ids a) w id) ∨
  (Adapter.get_window id a = Raises (ValueError "No window for timer") ∧
   ∀ w, ¬ holds (window_ids a) w id).
Proof.
  destruct (Adapter.get_window id a) as [[w a']|e] eqn:Hgw.
  - left. apply get_window_returns in Hgw as Hr. destruct Hr as [-> Hh].
    by exists w.
  - right. unfold Adapter.get_window in Hgw.
    erewrite bind_returns in Hgw by reflexivity.
    destruct (list_find _ _) as [[i [w ids]]|] eqn:Hfind; [done|].
    injection Hgw as <-. split; [done|]. intros w (ids & Hl & Hin).
    apply list_find_None in Hfind.
    apply (proj1 (Forall_forall _ _) Hfind (w, ids)); [|done].
    by apply elem_of_map_to_list.
Qed.

(** A call of [process_timer]: it raises only for an id no window holds;
    otherwise the window holding the id is skipped when tombstoned and
    may fire, with the timestamp as watermark, when not. *)
Lemma process_timer_spec (drv : GeneralTriggerDriver) (raw : raw_backend)
    (id ts : Z) (name : string) :
  well_behaved (trigger_fn drv) → good_raw raw →
  (Driver.process_timer drv id ts name raw
     = Raises (ValueError "No window for timer") ∧
   ∀ w, ¬ holds (window_ids (Adapter.init raw)) w id) ∨
  (∃ w, holds (window_ids (Adapter.init raw)) w id ∧
        ((tombstoned (Adapter.init raw) w ∧
          Driver.process_timer drv id ts name raw = Returns ([], raw)) ∨
         (¬ tombstoned (Adapter.init raw) w ∧
          ∃ panes a',
            Driver.maybe_fire drv (At ts) w (Adapter.init raw)
              = Returns (panes, a') ∧
            Driver.process_timer drv id ts name raw
              = Returns (panes, raw_state a')))).
Proof.
  intros Hwb Hg. unfold Driver.process_timer, Driver.wrapped.
  destruct (get_window_cases (Adapter.init raw) id) as [(w & Hgw & Hh)|[Hgw Hno]].
  - right. exists w. split; [done|].
    erewrite bind_returns by apply Hgw.
    destruct (get_state_tombstone _ w Hg) as (v & Hget & Htr).
    erewrite bind_returns by apply Hget.
    destruct (truthy v) eqn:Hv.
    + left. split; [by apply Htr|done].
    + right. split; [intros Ht; apply Htr in Ht; congruence|].
      erewrite bind_returns by reflexivity.
      assert (known (Adapter.init raw) w) as Hk.
      { destruct Hh as (ids & Hl & _). by exists ids. }
      rewrite bool_decide_eq_true_2 by (by apply known_windows_elem).
      destruct (maybe_fire_spec drv _ (At ts) w Hwb Hg Hk)
        as (panes & a' & Hf & _).
      exists panes, a'. split; [done|]. by rewrite Hf.
  - left. split; [|done]. by erewrite bind_raises.
Qed.

(** ** The triggers as the driver uses them *)

Lemma keeps_window_same_state w a a' :
  good a' → known a w → window_ids a' = window_ids a →
  state (raw_state a') = state (raw_state a) → keeps_window w a a'.
Proof.
  intros Hg Hk Hi Hs.
  assert (∀ w', untouched w' a a') as Hu.
  { intros w'. apply untouched_same_state; [by rewrite Hi|done]. }
  split; [done| |by intros w' _|by apply untouched_cells_of..].
  unfold known. by rewrite Hi.
Qed.

Lemma keeps_window_add_state w a a' t :
  good a' → known a' w → others_untouched w a a' →
  (∀ name, name ≠ tag t → cells_of a' name w = cells_of a name w) →
  tag t ≠ "elements"%string → tag t ≠ "tombstone"%string →
  keeps_window w a a'.
Proof. intros Hg Hk Ho Hn He Ht. split; [done..| |]; by apply Hn. Qed.

Lemma DefaultTrigger_well_behaved : well_behaved DefaultTrigger.
Proof.
  split.
  - intros a w v Hg Hk. cbn.
    destruct (set_timer_known a w "" (w_end w) Hg Hk) as (a' & Hrun & Hg' & Hi & Hs).
    exists a'. split; [done|]. by apply keeps_window_same_state.
  - intros a w wm Hg Hk. eexists _, a. split; [reflexivity|].
    by apply keeps_window_refl.
  - intros a w wm Hg Hk. eexists _, a. split; [reflexivity|].
    by apply keeps_window_refl.
  - intros a w Hg Hk. cbn.
    destruct (clear_timer_spec a w "" Hg) as (a' & Hrun & Hg' & Hi & Hs).
    exists a'. split; [done|]. by apply keeps_window_same_state.
Qed.

Lemma AfterCount_on_element (a : MergeableStateAdapter) (n : Z) w v :
  good a → known a w →
  ∃ a', on_element (AfterCount n) v w (TriggerContext w) a = Returns (tt, a') ∧
        keeps_window w a a' ∧ count_of a' w = count_of a w + 1.
Proof.
  intros Hg Hk. cbn.
  destruct (add_state_spec a w COUNT_TAG (VInt 1) Hg)
    as (a' & Hrun & Hg' & Hk' & Ho & _ & Hp & _ & Hn); [done|].
  exists a'. split_and!; [done| |].
  - by eapply (keeps_window_add_state w a a' COUNT_TAG).
  - unfold count_of. cbn [tag COUNT_TAG] in Hp. rewrite Hp, length_app.
    cbn [length]. lia.
Qed.

Lemma AfterCount_should_fire (a : MergeableStateAdapter) (n : Z) wm w :
  good a →
  should_fire (AfterCount n) wm w (TriggerContext w) a
    = Returns (bool_decide (n ≤ count_of a w), a).
Proof.
  intros Hg. cbn. by erewrite bind_returns by (by apply get_state_count).
Qed.

Lemma AfterCount_well_behaved (n : Z) : well_behaved (AfterCount n).
Proof.
  split.
  - intros a w v Hg Hk.
    destruct (AfterCount_on_element a n w v Hg Hk) as (a' & Hrun & Hkw & _).
    by exists a'.
  - intros a w wm Hg Hk. eexists _, a.
    split; [by apply AfterCount_should_fire|]. by apply keeps_window_refl.
  - intros a w wm Hg Hk. eexists _, a. split; [reflexivity|].
    by apply keeps_window_refl.
  - intros a w Hg Hk. cbn.
    destruct (clear_state_tag_spec a w COUNT_TAG Hg)
      as (a' & Hrun & Hg' & Hi & Ho & _ & Hn).
    exists a'. split; [done|].
    eapply (keeps_window_add_state w a a' COUNT_TAG); try done.
    unfold known. by rewrite Hi.
Qed.

Lemma AfterWatermark_plain_on_element (a : MergeableStateAdapter) v w :
  on_element (AfterWatermark None None) v w (TriggerContext w) a
    = (Adapter.set_timer w "" (w_end w) ;; ret tt) a.
Proof. reflexivity. Qed.

Lemma AfterWatermark_plain_should_fire (a : MergeableStateAdapter) wm w :
  should_fire (AfterWatermark None None) wm w (TriggerContext w) a
    = Returns (watermark_ge wm (w_end w), a).
Proof. cbv [should_fire AfterWatermark]. cbn. by destruct (watermark_ge _ _). Qed.

Lemma AfterWatermark_plain_on_fire (a : MergeableStateAdapter) wm w :
  on_fire (AfterWatermark None None) wm w (TriggerContext w) a
    = if watermark_ge wm (w_end w)
      then (Adapter.add_state w LATE_TAG (VBool true) ;; ret true) a
      else Returns (false, a).
Proof. cbv [on_fire AfterWatermark]. cbn. by destruct (watermark_ge _ _). Qed.

Lemma AfterWatermark_plain_well_behaved : well_behaved (AfterWatermark None None).
Proof.
  split.
  - intros a w v Hg Hk. rewrite AfterWatermark_plain_on_element.
    destruct (set_timer_known a w "" (w_end w) Hg Hk) as (a' & Hrun & Hg' & Hi & Hs).
    exists a'. split; [by erewrite bind_returns by apply Hrun|].
    by apply keeps_window_same_state.
  - intros a w wm Hg Hk. rewrite AfterWatermark_plain_should_fire.
    eexists _, a. split; [done|]. by apply keeps_window_refl.
  - intros a w wm Hg Hk. rewrite AfterWatermark_plain_on_fire.
    destruct (watermark_ge wm (w_end w)).
    + destruct (add_state_spec a w LATE_TAG (VBool true) Hg)
        as (a' & Hrun & Hg' & Hk' & Ho & _ & _ & _ & Hn); [done|].
      exists true, a'. split; [by erewrite bind_returns by apply Hrun|].
      by eapply (keeps_window_add_state w a a' LATE_TAG).
    + exists false, a. split; [done|]. by apply keeps_window_refl.
  - intros a w Hg Hk. exists a. split; [done|]. by apply keeps_window_refl.
Qed.

Lemma Repeatedly_well_behaved (T : TriggerFn MergeableStateAdapter) :
  well_behaved T → well_behaved (Repeatedly T).
Proof.
  intros [Hoe Hsf Hof Hrs]. split.
  - exact Hoe.
  - exact Hsf.
  - intros a w wm Hg Hk. cbn.
    destruct (Hof a w wm Hg Hk) as (b & a1 & Hrun & Hkw).
    erewrite bind_returns by apply Hrun. destruct b.
    + destruct (Hrs a1 w (kw_good _ _ _ Hkw) (kw_known _ _ _ Hkw))
        as (a2 & Hrun2 & Hkw2).
      exists false, a2. split; [by erewrite bind_returns by apply Hrun2|].
      by eapply keeps_window_trans.
    + by exists false, a1.
  - exact Hrs.
Qed.

(** ** Guarantees of the general driver *)

(** An empty bundle: no pane, and the backend is left as it was,
    whatever the windowing and the state of the backend. *)
Theorem process_elements_empty_bundle (drv : GeneralTriggerDriver)
    (raw : raw_backend) :
  Driver.process_elements drv [] raw = Returns ([], raw).
Proof.
  unfold Driver.process_elements, Driver.wrapped, Driver.handle_merging.
  erewrite bind_returns.
  2:{ erewrite bind_returns by reflexivity.
      rewrite bool_decide_eq_false_2; [reflexivity|].
      intros Hne. apply Hne. cbn. by rewrite (right_id_L ∅ (∪)). }
  done.
Qed.

Lemma fired_panes drv w a panes a' w' :
  fired drv w a panes a' →
  panes_for w' panes = if decide (w' = w) then panes else [].
Proof.
  intros [(-> & _)|(-> & _)]; [by case_decide|].
  unfold panes_for. rewrite filter_cons. cbn [fst].
  destruct (decide (w' = w)) as [->|Hne].
  - by rewrite decide_True.
  - by rewrite decide_False by done.
Qed.

(** A timer that has a window: the other windows are left alone; the
    window itself is skipped when tombstoned and may fire when not. *)
Lemma process_timer_steps (drv : GeneralTriggerDriver) (raw : raw_backend)
    (id ts : Z) (name : string) :
  well_behaved (trigger_fn drv) → good_raw raw →
  (Driver.process_timer drv id ts name raw
     = Raises (ValueError "No window for timer") ∧
   ∀ w, ¬ holds (window_ids (Adapter.init raw)) w id) ∨
  (∃ w panes raw',
     holds (window_ids (Adapter.init raw)) w id ∧
     Driver.process_timer drv id ts name raw = Returns (panes, raw') ∧
     good_raw raw' ∧
     (∀ w', w' ≠ w → untouched w' (Adapter.init raw) (Adapter.init raw') ∧
                     panes_for w' panes = []) ∧
     panes_for w panes = panes ∧
     (tombstoned (Adapter.init raw) w → panes = [] ∧ raw' = raw) ∧
     (¬ tombstoned (Adapter.init raw) w →
        known (Adapter.init raw') w ∧
        fired drv w (Adapter.init raw) panes (Adapter.init raw'))).
Proof.
  intros Hwb Hg.
  destruct (process_timer_spec drv raw id ts name Hwb Hg)
    as [?|(w & Hh & [(Ht & Hrun)|(Hnt & panes & a' & Hf & Hrun)])]; [by left|..];
    right.
  - exists w, [], raw.
    split_and!; [done|done|done| |done|done|by intros Hnt; destruct Hnt].
    intros w' _. split; [apply untouched_refl|done].
  - assert (known (Adapter.init raw) w) as Hk.
    { destruct Hh as (ids & Hl & _). by exists ids. }
    destruct (maybe_fire_spec drv _ (At ts) w Hwb Hg Hk)
      as (panes' & a'' & Hf' & Hg' & Hk' & Ho & _ & Hfired).
    rewrite Hf in Hf'. injection Hf' as <- <-.
    pose proof (rewrap_untouched a' w Hg') as Huw.
    exists w, panes, (raw_state a').
    split_and!; [done|done|by apply good_rewrap| | |done|].
    + intros w' Hne. split.
      * eapply untouched_trans; [by apply Ho|by apply rewrap_untouched].
      * rewrite (fired_panes _ _ _ _ _ w' Hfired). by rewrite decide_False.
    + rewrite (fired_panes _ _ _ _ _ w Hfired). by rewrite decide_True.
    + intros _. split; [by apply (untouched_known _ _ _ Huw)|].
      unfold fired, held, tombstoned in *.
      rewrite !(untouched_cells_of _ _ _ _ Huw). done.
Qed.

(** The driver on a tombstoned window: [process_elements] emits no pane
    for it and leaves its state alone, whatever the bundle. *)
Lemma process_elements_skips_tombstoned (drv : GeneralTriggerDriver)
    (wvs : list WindowedValue) (raw : raw_backend) (w : window) :
  well_behaved (trigger_fn drv) → never_merges (window_fn drv) →
  good_raw raw → tombstoned (Adapter.init raw) w →
  ∃ panes raw',
    Driver.process_elements drv wvs raw = Returns (panes, raw') ∧
    good_raw raw' ∧ panes_for w panes = [] ∧
    untouched w (Adapter.init raw) (Adapter.init raw').
Proof.
  intros Hwb Hnm Hg Ht.
  destruct (process_elements_steps drv wvs raw Hwb Hnm Hg)
    as (panes & raw' & Hrun & Hg' & Hw).
  exists panes, raw'. split_and!; [done..| |];
    destruct (Hw w) as [Hnil Hadd];
    (destruct (decide (addressed wvs w = [])) as [He|Hne];
     [by destruct (Hnil He)|]);
    destruct (Hadd Hne) as [(_ & ? & ?)|(Hnt & _)]; done.
Qed.

(** Once tombstoned, always tombstoned: through any sequence of calls on
    windows that do not merge a tombstoned window emits no pane and keeps
    its state; the run can only be cut short by a timer without window. *)
Theorem tombstoned_window_stays_silent (drv : GeneralTriggerDriver)
    (evs : list event) (raw : raw_backend) (w : window) :
  well_behaved (trigger_fn drv) → never_merges (window_fn drv) →
  good_raw raw → tombstoned (Adapter.init raw) w →
  match run drv evs raw with
  | Returns (panes, raw') =>
      good_raw raw' ∧ panes_for w panes = [] ∧
      untouched w (Adapter.init raw) (Adapter.init raw')
  | Raises e => e = ValueError "No window for timer"
  end.
Proof.
  intros Hwb Hnm. revert raw. induction evs as [|ev evs IH]; intros raw Hg Ht.
  - cbn. split_and!; [done..|apply untouched_refl].
  - cbn [run].
    assert (match step drv ev raw with
            | Returns (panes, raw') =>
                good_raw raw' ∧ panes_for w panes = [] ∧
                untouched w (Adapter.init raw) (Adapter.init raw')
            | Raises e => e = ValueError "No window for timer"
            end) as Hstep.
    { destruct ev as [wvs|id ts name]; cbn [step].
      - destruct (process_elements_skips_tombstoned drv wvs raw w Hwb Hnm Hg Ht)
          as (panes & raw' & -> & ? & ? & ?). done.
      - destruct (process_timer_steps drv raw id ts name Hwb Hg)
          as [[-> _]|(w0 & panes & raw' & Hh & -> & Hg' & Hoth & Hown & Htomb & _)];
          [done|].
        destruct (decide (w = w0)) as [->|Hne].
        + destruct (Htomb Ht) as [-> ->]. split_and!; [done..|apply untouched_refl].
        + destruct (Hoth w Hne) as [? ?]. done. }
    unfold bind. destruct (step drv ev raw) as [[panes raw1]|e]; [|done].
    destruct Hstep as (Hg1 & Hp1 & Hu1).
    specialize (IH raw1 Hg1 (proj2 (untouched_tombstoned _ _ _ Hu1) Ht)).
    destruct (run drv evs raw1) as [[later raw']|e]; [|done].
    destruct IH as (Hg' & Hp' & Hu'). split_and!; [done| |].
    + by rewrite panes_for_app, Hp1, Hp'.
    + by eapply untouched_trans.
Qed.

Lemma pane_values_app w (p1 p2 : list pane) :
  pane_values w (p1 ++ p2) = pane_values w p1 ++ pane_values w p2.
Proof.
  unfold pane_values. by rewrite panes_for_app, fmap_app, join_app.
Qed.

Lemma pane_values_one w vs : pane_values w [(w, VList vs)] = vs.
Proof.
  unfold pane_values, panes_for. rewrite filter_cons. cbn [fst].
  rewrite decide_True by done. cbn. by rewrite app_nil_r.
Qed.

Lemma pane_values_single w panes vs :
  panes_for w panes = [(w, VList vs)] → pane_values w panes = vs.
Proof. intros Hp. unfold pane_values. rewrite Hp. cbn. apply app_nil_r. Qed.

Lemma pane_values_none w panes :
  panes_for w panes = [] → pane_values w panes = [].
Proof. intros Hp. unfold pane_values. by rewrite Hp. Qed.

Lemma step_conserves (drv : GeneralTriggerDriver) (ev : event)
    (raw : raw_backend) (w : window) :
  well_behaved (trigger_fn drv) → never_merges (window_fn drv) →
  accumulation_mode drv = DISCARDING → good_raw raw →
  match step drv ev raw with
  | Returns (panes, raw') =>
      good_raw raw' ∧
      pane_values w panes ++ held (Adapter.init raw') w
        ≡ₚ held (Adapter.init raw) w ++ added_by ev raw w
  | Raises e => e = ValueError "No window for timer"
  end.
Proof.
  intros Hwb Hnm Hmode Hg. destruct ev as [wvs|id ts name]; cbn [step added_by].
  - destruct (process_elements_steps drv wvs raw Hwb Hnm Hg)
      as (panes & raw' & -> & Hg' & Hw). split; [done|].
    destruct (Hw w) as [Hnil Hadd].
    destruct (decide (addressed wvs w = [])) as [He|Hne].
    + destruct (Hnil He) as [Hu Hp]. rewrite (pane_values_none _ _ Hp), He.
      rewrite (untouched_held _ _ _ Hu). cbn.
      by destruct (cells_of _ _ _); rewrite app_nil_r.
    + destruct (Hadd Hne) as [(Ht & Hp & Hu)|(Hnt & _ & Hcases)].
      * rewrite (pane_values_none _ _ Hp), (untouched_held _ _ _ Hu). cbn.
        unfold tombstoned in Ht.
        destruct (cells_of _ "tombstone" w); [done|by rewrite app_nil_r].
      * assert (cells_of (Adapter.init raw) "tombstone" w = []) as ->.
        { unfold tombstoned in Hnt.
          destruct (cells_of _ "tombstone" w); [done|by destruct Hnt]. }
        destruct Hcases as [(Hp & Hh & _)|(vs & Hp & Hvs & Hh)].
        -- by rewrite (pane_values_none _ _ Hp).
        -- rewrite (pane_values_single _ _ _ Hp).
           destruct Hh as [[-> _]|(Hacc & _)]; [|congruence].
           by rewrite app_nil_r.
  - destruct (process_timer_steps drv raw id ts name Hwb Hg)
      as [[-> _]|(w0 & panes & raw' & Hh & -> & Hg' & Hoth & Hown & Htomb & Hfire)];
      [done|]. split; [done|]. rewrite app_nil_r.
    destruct (decide (w = w0)) as [->|Hne].
    + destruct (decide (tombstoned (Adapter.init raw) w0)) as [Ht|Hnt].
      * by destruct (Htomb Ht) as [-> ->].
      * destruct (Hfire Hnt) as [_ [(-> & Hheld & _)|(-> & Hheld)]].
        -- by rewrite Hheld.
        -- rewrite pane_values_one.
           destruct Hheld as [[-> _]|(Hacc & _)]; [|congruence].
           by rewrite app_nil_r.
    + destruct (Hoth w Hne) as [Hu Hp]. rewrite (pane_values_none _ _ Hp).
      by rewrite (untouched_held _ _ _ Hu).
Qed.

(** DISCARDING mode conserves elements: through any sequence of calls on
    windows that do not merge, the elements of the panes emitted for a
    window together with the elements still held for it are the elements
    held at the start together with those added since; no element is
    emitted twice. *)
Theorem discarding_conserves_elements (drv : GeneralTriggerDriver)
    (evs : list event) (raw : raw_backend) (w : window) :
  well_behaved (trigger_fn drv) → never_merges (window_fn drv) →
  accumulation_mode drv = DISCARDING → good_raw raw →
  match run drv evs raw with
  | Returns (panes, raw') =>
      good_raw raw' ∧
      pane_values w panes ++ held (Adapter.init raw') w
        ≡ₚ held (Adapter.init raw) w ++ appended drv evs raw w
  | Raises e => e = ValueError "No window for timer"
  end.
Proof.
  intros Hwb Hnm Hmode. revert raw.
  induction evs as [|ev evs IH]; intros raw Hg.
  - cbn. split; [done|]. by rewrite app_nil_r.
  - cbn [run appended].
    pose proof (step_conserves drv ev raw w Hwb Hnm Hmode Hg) as Hstep.
    unfold bind. destruct (step drv ev raw) as [[panes raw1]|e]; [|done].
    destruct Hstep as [Hg1 Hp1]. specialize (IH raw1 Hg1).
    destruct (run drv evs raw1) as [[later raw']|e]; [|done].
    destruct IH as [Hg' Hp']. split; [done|].
    rewrite pane_values_app, <- app_assoc, Hp', !app_assoc.
    by rewrite Hp1.
Qed.

(** *** AfterCount under the driver *)





(** *** AfterWatermark() under the driver *)

Lemma maybe_fire_AfterWatermark (f : WindowFn) (mode : AccumulationMode)
    (a : MergeableStateAdapter) (wm : watermark) (w : window) :
  good a → known a w →
  if watermark_ge wm (w_end w) then
    ∃ a', Driver.maybe_fire (driver_of f (AfterWatermark None None) mode) wm w a
            = Returns ([(w, VList (held a w))], a') ∧
          good a' ∧ tombstoned a' w ∧ held a' w = []
  else
    Driver.maybe_fire (driver_of f (AfterWatermark None None) mode) wm w a
      = Returns ([], a).
Proof.
  intros Hg Hk. unfold Driver.maybe_fire. cbn [trigger_fn driver_of].
  erewrite bind_returns by apply AfterWatermark_plain_should_fire.
  destruct (watermark_ge wm (w_end w)) eqn:Hwm; [|done].
  destruct (wb_on_fire _ AfterWatermark_plain_well_behaved a w wm Hg Hk)
    as (b & a1 & Hof & Hkw).
  assert (b = true) as ->.
  { rewrite AfterWatermark_plain_on_fire, Hwm in Hof. unfold bind, ret in Hof.
    destruct (Adapter.add_state w LATE_TAG (VBool true) a) as [[[] ?]|?];
      by simplify_eq. }
  erewrite bind_returns by apply Hof.
  destruct Hkw as [Hg1 Hk1 _ He1 _].
  destruct (output_spec (driver_of f (AfterWatermark None None) mode) a1 w true
              Hg1 Hk1) as (a2 & Hout & Hg2 & _ & _ & _ & Hfin & _).
  erewrite bind_returns by apply Hout. destruct (Hfin eq_refl) as [? ?].
  exists a2. split_and!; [|done..]. unfold held. by rewrite He1.
Qed.

(** AfterWatermark() fires on the timer path only: a timer of a window
    that is not tombstoned emits the one pane of the window, with the
    elements held, and finishes it when its timestamp has reached the end
    of the window; an earlier timer does nothing. *)
Theorem AfterWatermark_fires_at_end_of_window (f : WindowFn)
    (mode : AccumulationMode) (raw : raw_backend) (id ts : Z) (name : string)
    (w : window) :
  good_raw raw → holds (window_ids (Adapter.init raw)) w id →
  ¬ tombstoned (Adapter.init raw) w →
  (ts < w_end w →
     Driver.process_timer (driver_of f (AfterWatermark None None) mode)
       id ts name raw = Returns ([], raw)) ∧
  (w_end w ≤ ts →
     ∃ raw',
       Driver.process_timer (driver_of f (AfterWatermark None None) mode)
         id ts name raw
         = Returns ([(w, VList (held (Adapter.init raw) w))], raw') ∧
       good_raw raw' ∧ tombstoned (Adapter.init raw') w ∧
       held (Adapter.init raw') w = []).
Proof.
  intros Hg Hh Hnt.
  set (drv := driver_of f (AfterWatermark None None) mode).
  pose proof (AfterWatermark_plain_well_behaved : well_behaved (trigger_fn drv))
    as Hwb.
  assert (known (Adapter.init raw) w) as Hk.
  { destruct Hh as (ids & Hl & _). by exists ids. }
  destruct (process_timer_spec drv raw id ts name Hwb Hg)
    as [[_ Hno]|(w0 & Hh0 & Hcases)]; [by destruct (Hno w)|].
  assert (w0 = w) as -> by (by eapply (wf_disjoint _ _ (good_ids _ Hg))).
  destruct Hcases as [[Ht _]|(_ & panes & a' & Hf & Hrun)]; [done|].
  pose proof (maybe_fire_AfterWatermark f mode _ (At ts) w Hg Hk) as Hmf.
  fold drv in Hmf. cbn [watermark_ge] in Hmf. split.
  - intros Hlt. rewrite bool_decide_eq_false_2 in Hmf by lia.
    rewrite Hmf in Hf. injection Hf as <- <-. done.
  - intros Hle. rewrite bool_decide_eq_true_2 in Hmf by done.
    destruct Hmf as (a2 & Hmf & Hg2 & Ht2 & Hh2).
    rewrite Hmf in Hf. injection Hf as <- <-.
    pose proof (rewrap_untouched a2 w Hg2) as Hu.
    exists (raw_state a2). split_and!; [done|by apply good_rewrap| |].
    + by apply (untouched_tombstoned _ _ _ Hu).
    + by rewrite (untouched_held _ _ _ Hu).
Qed.



(** *** Triggers that never finish *)

Lemma Repeatedly_on_fire_false (T : TriggerFn MergeableStateAdapter)
    wm w c a b a' :
  on_fire (Repeatedly T) wm w c a = Returns (b, a') → b = false.
Proof.
  cbn. unfold bind, ret.
  destruct (on_fire T wm w c a) as [[[] a1]|e]; [|by intros [= <- _]|done].
  destruct (reset T w c a1) as [[[] a2]|e]; [by intros [= <- _]|done].
Qed.

Lemma maybe_fire_Repeatedly (f : WindowFn) (T : TriggerFn MergeableStateAdapter)
    (mode : AccumulationMode) (a : MergeableStateAdapter) wm w :
  well_behaved T → good a → known a w →
  ∃ panes a',
    Driver.maybe_fire (driver_of f (Repeatedly T) mode) wm w a
      = Returns (panes, a') ∧
    cells_of a' "tombstone" w = cells_of a "tombstone" w.
Proof.
  intros Hwb Hg Hk. pose proof (Repeatedly_well_behaved T Hwb) as Hwr.
  set (drv := driver_of f (Repeatedly T) mode).
  unfold Driver.maybe_fire. cbn [trigger_fn drv driver_of].
  destruct (wb_should_fire _ Hwr a w wm Hg Hk) as (b & a1 & Hsf & Hk1).
  erewrite bind_returns by apply Hsf.
  destruct Hk1 as [Hg1 Hkn1 _ _ Ht1]. destruct b; [|by exists [], a1].
  destruct (wb_on_fire _ Hwr a1 w wm Hg1 Hkn1) as (fin & a2 & Hof & Hk2).
  pose proof (Repeatedly_on_fire_false _ _ _ _ _ _ _ Hof) as ->.
  erewrite bind_returns by apply Hof.
  destruct Hk2 as [Hg2 Hkn2 _ _ Ht2].
  destruct (output_spec drv a2 w false Hg2 Hkn2)
    as (a3 & Hout & _ & _ & _ & _ & _ & Hdis & Hacc).
  erewrite bind_returns by apply Hout.
  eexists _, a3. split; [done|].
  destruct (accumulation_mode drv) eqn:Hmode.
  - destruct (Hdis eq_refl eq_refl) as [_ ->]. congruence.
  - rewrite (Hacc eq_refl eq_refl). congruence.
Qed.

Lemma step_Repeatedly (f : WindowFn) (T : TriggerFn MergeableStateAdapter)
    (mode : AccumulationMode) (ev : event) (raw : raw_backend) (w : window) :
  well_behaved T → never_merges f → good_raw raw →
  match step (driver_of f (Repeatedly T) mode) ev raw with
  | Returns (panes, raw') =>
      good_raw raw' ∧
      cells_of (Adapter.init raw') "tombstone" w
        = cells_of (Adapter.init raw) "tombstone" w
  | Raises e => e = ValueError "No window for timer"
  end.
Proof.
  intros Hwb Hnm Hg. pose proof (Repeatedly_well_behaved T Hwb) as Hwr.
  set (drv := driver_of f (Repeatedly T) mode).
  destruct ev as [wvs|id ts name]; cbn [step].
  - destruct (process_elements_spec drv wvs raw Hwr Hnm Hg)
      as (panes & raw' & -> & Hg' & Hw). split; [done|].
    destruct (Hw w) as [Hnil Hadd].
    destruct (decide (addressed wvs w = [])) as [He|Hne].
    + destruct (Hnil He) as [Hu _]. by apply untouched_cells_of.
    + destruct (Hadd Hne) as (a1 & a2 & Hg1 & Hu1 & Hpw & Hu2).
      rewrite (untouched_cells_of _ _ _ _ Hu2),
        <- (untouched_cells_of _ _ _ _ Hu1).
      unfold Driver.process_window in Hpw.
      destruct (get_state_tombstone a1 w Hg1) as (v & Hget & Htr).
      erewrite bind_returns in Hpw by apply Hget.
      destruct (truthy v); [by injection Hpw as _ <-|].
      destruct (add_elements_spec drv a1 w (addressed wvs w) Hwr Hg1)
        as (a1' & Ha & Hg1' & _ & _ & Ht1 & Hk1).
      erewrite bind_returns in Hpw by apply Ha.
      destruct (maybe_fire_Repeatedly f T mode a1' NegInf w Hwb Hg1')
        as (pw & a2' & Hmf & Ht2); [by apply Hk1; right|].
      fold drv in Hmf. rewrite Hmf in Hpw. injection Hpw as _ <-. congruence.
  - destruct (process_timer_spec drv raw id ts name Hwr Hg)
      as [[-> _]|(w0 & Hh & [[Ht ->]|(Hnt & panes & a' & Hf & ->)])];
      [done|done|].
    assert (known (Adapter.init raw) w0) as Hk.
    { destruct Hh as (ids & Hl & _). by exists ids. }
    destruct (maybe_fire_spec drv _ (At ts) w0 Hwr Hg Hk)
      as (panes' & a'' & Hf' & Hg' & _ & Ho & _ & _).
    rewrite Hf in Hf'. injection Hf' as <- <-.
    split; [by apply good_rewrap|].
    rewrite (untouched_cells_of _ _ _ "tombstone" (rewrap_untouched a' w Hg')).
    destruct (decide (w = w0)) as [->|Hne].
    + destruct (maybe_fire_Repeatedly f T mode _ (At ts) w0 Hwb Hg Hk)
        as (pw & a2 & Hmf & Ht2).
      fold drv in Hmf. rewrite Hf in Hmf. by injection Hmf as <- <-.
    + by apply untouched_cells_of, Ho.
Qed.

(** With [Repeatedly(t)] as its trigger the driver never finishes a
    window: through any sequence of calls on windows that do not merge,
    no tombstone is set (nor cleared), so no element is ever dropped for a
    window that was not tombstoned. *)
Theorem Repeatedly_never_tombstones (f : WindowFn)
    (T : TriggerFn MergeableStateAdapter) (mode : AccumulationMode)
    (evs : list event) (raw : raw_backend) (w : window) :
  well_behaved T → never_merges f → good_raw raw →
  match run (driver_of f (Repeatedly T) mode) evs raw with
  | Returns (panes, raw') =>
      good_raw raw' ∧
      (tombstoned (Adapter.init raw') w ↔ tombstoned (Adapter.init raw) w)
  | Raises e => e = ValueError "No window for timer"
  end.
Proof.
  intros Hwb Hnm. revert raw. induction evs as [|ev evs IH]; intros raw Hg.
  - done.
  - cbn [run]. pose proof (step_Repeatedly f T mode ev raw w Hwb Hnm Hg) as Hstep.
    unfold bind. destruct (step _ ev raw) as [[panes raw1]|e]; [|done].
    destruct Hstep as [Hg1 Ht1]. specialize (IH raw1 Hg1).
    destruct (run _ evs raw1) as [[later raw']|e]; [|done].
    destruct IH as [Hg' Ht']. split; [done|].
    rewrite Ht'. unfold tombstoned. by rewrite Ht1.
Qed.

(** *** ACCUMULATING mode *)

Lemma grows_app lower p1 p2 :
  grows lower p1 → grows (last_of lower p1) p2 → grows lower (p1 ++ p2).
Proof.
  revert lower. induction p1 as [|p p1 IH]; intros lower H1 H2; [done|].
  destruct H1 as [Hl H1]. split; [done|]. apply IH; [done|].
  unfold last_of in H2 |- *. rewrite last_cons in H2.
  by destruct (last p1).
Qed.

Lemma last_of_app lower p1 p2 :
  last_of lower (p1 ++ p2) = last_of (last_of lower p1) p2.
Proof.
  unfold last_of. rewrite last_app. by destruct (last p2).
Qed.

Lemma step_grows (drv : GeneralTriggerDriver) (ev : event)
    (raw : raw_backend) (w : window) (lower : list pyval) :
  well_behaved (trigger_fn drv) → never_merges (window_fn drv) →
  accumulation_mode drv = ACCUMULATING → good_raw raw →
  (¬ tombstoned (Adapter.init raw) w → lower ⊆+ held (Adapter.init raw) w) →
  match step drv ev raw with
  | Returns (panes, raw') =>
      good_raw raw' ∧ grows lower (panes_for w panes) ∧
      (¬ tombstoned (Adapter.init raw') w →
       last_of lower (panes_for w panes) ⊆+ held (Adapter.init raw') w)
  | Raises e => e = ValueError "No window for timer"
  end.
Proof.
  intros Hwb Hnm Hmode Hg Hlow. destruct ev as [wvs|id ts name]; cbn [step].
  - destruct (process_elements_steps drv wvs raw Hwb Hnm Hg)
      as (panes & raw' & -> & Hg' & Hw). split; [done|].
    destruct (Hw w) as [Hnil Hadd].
    destruct (decide (addressed wvs w = [])) as [He|Hne].
    + destruct (Hnil He) as [Hu ->]. split; [done|]. intros Hnt.
      rewrite (untouched_held _ _ _ Hu). apply Hlow.
      by rewrite <- (untouched_tombstoned _ _ _ Hu).
    + destruct (Hadd Hne) as [(Ht & -> & Hu)|(Hnt & _ & Hcases)].
      * split; [done|]. intros Hnt. destruct Hnt.
        by apply (untouched_tombstoned _ _ _ Hu).
      * specialize (Hlow Hnt).
        destruct Hcases as [(-> & Hh & _)|(vs & -> & Hvs & Hh)].
        -- split; [done|]. intros _. cbn. rewrite Hh.
           by apply submseteq_inserts_r.
        -- split; [split; [|done]; cbn; rewrite Hvs;
                   by apply submseteq_inserts_r|].
           intros Hnt'. cbn.
           destruct Hh as [[_ [?|?]]|(_ & -> & _)]; [done|congruence|done].
  - destruct (process_timer_steps drv raw id ts name Hwb Hg)
      as [[-> _]|(w0 & panes & raw' & Hh & -> & Hg' & Hoth & Hown & Htomb & Hfire)];
      [done|]. split; [done|].
    destruct (decide (w = w0)) as [->|Hne].
    + rewrite Hown.
      destruct (decide (tombstoned (Adapter.init raw) w0)) as [Ht|Hnt].
      * destruct (Htomb Ht) as [-> ->]. split; [done|]. by intros Hnt.
      * specialize (Hlow Hnt).
        destruct (Hfire Hnt) as [_ [(-> & Hheld & _)|(-> & Hheld)]].
        -- split; [done|]. intros _. cbn. by rewrite Hheld.
        -- split; [by split|]. intros Hnt'. cbn.
           destruct Hheld as [[_ [?|?]]|(_ & -> & _)]; [done|congruence|done].
    + destruct (Hoth w Hne) as [Hu ->]. split; [done|]. intros Hnt.
      rewrite (untouched_held _ _ _ Hu). apply Hlow.
      by rewrite <- (untouched_tombstoned _ _ _ Hu).
Qed.

(** ACCUMULATING mode: through any sequence of calls on windows that do
    not merge, each pane emitted for a window carries at least the
    elements of the pane emitted before it, and the first at least the
    elements held at the start. *)
Theorem accumulating_panes_grow (drv : GeneralTriggerDriver)
    (evs : list event) (raw : raw_backend) (w : window) :
  well_behaved (trigger_fn drv) → never_merges (window_fn drv) →
  accumulation_mode drv = ACCUMULATING → good_raw raw →
  match run drv evs raw with
  | Returns (panes, raw') =>
      good_raw raw' ∧ grows (held (Adapter.init raw) w) (panes_for w panes)
  | Raises e => e = ValueError "No window for timer"
  end.
Proof.
  intros Hwb Hnm Hmode Hg.
  cut (∀ lower,
    (¬ tombstoned (Adapter.init raw) w → lower ⊆+ held (Adapter.init raw) w) →
    match run drv evs raw with
    | Returns (panes, raw') =>
        good_raw raw' ∧ grows lower (panes_for w panes) ∧
        (¬ tombstoned (Adapter.init raw') w →
         last_of lower (panes_for w panes) ⊆+ held (Adapter.init raw') w)
    | Raises e => e = ValueError "No window for timer"
    end).
  { intros Hcut. specialize (Hcut (held (Adapter.init raw) w) (λ _, reflexivity _)).
    destruct (run drv evs raw) as [[panes raw']|e]; [|done]. tauto. }
  revert raw Hg. induction evs as [|ev evs IH]; intros raw Hg lower Hlow.
  - cbn. done.
  - cbn [run]. pose proof (step_grows drv ev raw w lower Hwb Hnm Hmode Hg Hlow)
      as Hstep.
    unfold bind. destruct (step drv ev raw) as [[panes raw1]|e]; [|done].
    destruct Hstep as (Hg1 & Hgr1 & Hl1). specialize (IH raw1 Hg1 _ Hl1).
    destruct (run drv evs raw1) as [[later raw']|e]; [|done].
    destruct IH as (Hg' & Hgr' & Hl'). split_and!; [done| |].
    + rewrite panes_for_app. by apply grows_app.
    + by rewrite panes_for_app, last_of_app.
Qed.

(** ** More about the merge adapter *)

Lemma merge_one_ids (a : MergeableStateAdapter) (src dst : window) :
  good a →
  ∃ a1, Adapter.merge_one dst src a = Returns (tt, a1) ∧ good a1 ∧
        state (raw_state a1) = state (raw_state a) ∧
        ids_of a1 dst = ids_of a dst ++ (if decide (src = dst) then [] else ids_of a src) ∧
        (src ≠ dst → ids_of a1 src = []) ∧
        (∀ w, w ≠ src → w ≠ dst → ids_of a1 w = ids_of a w).
Proof.
  intros Hg. unfold Adapter.merge_one.
  case_bool_decide as Hne.
  2:{ exists a. subst src.
      rewrite decide_True by done. rewrite app_nil_r. done. }
  rewrite decide_False by done.
  erewrite bind_returns by reflexivity.
  destruct (window_ids a !! src) as [ids|] eqn:Hl.
  2:{ exists a. unfold ids_of at 3. rewrite Hl. cbn [default].
      rewrite app_nil_r. split_and!; [done..| |done].
      intros _. unfold ids_of. by rewrite Hl. }
  eexists. split; [apply set_ids_persist|].
  split_and!; [by apply merge_step_good|done| | |].
  - unfold ids_of. cbn [window_ids with_ids].
    by rewrite lookup_insert_eq, Hl.
  - intros _. unfold ids_of. cbn [window_ids with_ids].
    rewrite lookup_insert_ne by done. by rewrite lookup_delete_eq.
  - intros w Hws Hwd. unfold ids_of. cbn [window_ids with_ids].
    rewrite lookup_insert_ne by done. by rewrite lookup_delete_ne.
Qed.

Lemma merge_ids (a : MergeableStateAdapter) (srcs : list window) (dst : window) :
  good a → NoDup srcs →
  ∃ a', Adapter.merge srcs dst a = Returns (tt, a') ∧ good a' ∧
        state (raw_state a') = state (raw_state a) ∧
        ids_of a' dst
          = ids_of a dst ++ mjoin (ids_of a <$> filter (λ w, w ≠ dst) srcs) ∧
        (∀ w, w ∈ srcs → w ≠ dst → ids_of a' w = []) ∧
        (∀ w, w ∉ srcs → w ≠ dst → ids_of a' w = ids_of a w).
Proof.
  unfold Adapter.merge. revert a.
  induction srcs as [|src srcs IH]; intros a Hg Hnd.
  - exists a. rewrite app_nil_r. split_and!; [done..| |done].
    intros w Hin. inversion Hin.
  - apply NoDup_cons in Hnd as [Hnin Hnd]. cbn [for_each].
    destruct (merge_one_ids a src dst Hg)
      as (a1 & Hstep & Hg1 & Hs1 & Hd1 & Hsrc1 & Hoth1).
    destruct (IH a1 Hg1 Hnd) as (a' & Hrun & Hg' & Hs' & Hd' & Hsrc' & Hoth').
    assert (∀ w, w ∈ srcs → w ≠ dst → ids_of a1 w = ids_of a w) as Hsame.
    { intros w Hin Hwd. apply Hoth1; [|done]. by intros ->. }
    exists a'. split_and!.
    + by erewrite bind_returns by apply Hstep.
    + done.
    + congruence.
    + rewrite Hd', Hd1, filter_cons.
      assert (ids_of a1 <$> filter (λ w, w ≠ dst) srcs
              = ids_of a <$> filter (λ w, w ≠ dst) srcs) as ->.
      { apply list_fmap_ext. intros i w Hw.
        apply list_elem_of_lookup_2, list_elem_of_filter in Hw as [Hwd Hin].
        by apply Hsame. }
      destruct (decide (src = dst)) as [->|Hsd].
      * rewrite decide_False by (by intros ?). by rewrite app_nil_r.
      * rewrite decide_True by done. rewrite fmap_cons.
        change (mjoin (?x :: ?xs)) with (x ++ mjoin xs).
        by rewrite app_assoc.
    + intros w Hin Hwd. apply elem_of_cons in Hin as [->|Hin]; [|by apply Hsrc'].
      rewrite Hoth' by done. by apply Hsrc1.
    + intros w Hnin' Hwd. apply not_elem_of_cons in Hnin' as [Hne Hnin'].
      rewrite Hoth' by done. by apply Hoth1.
Qed.

Lemma cells_of_ids (a a' : MergeableStateAdapter) name w :
  state (raw_state a') = state (raw_state a) →
  cells_of a' name w
    = mjoin ((λ id, as_list (InMemory.cell (raw_state a) id name)) <$> ids_of a' w).
Proof.
  intros Hs. unfold cells_of. f_equal. apply list_fmap_ext. intros i id _.
  f_equal. apply cell_of_state. by rewrite Hs.
Qed.

(** Merging unions state without copying it: after [merge], what the
    destination reads under any list tag is what it read before followed
    by what each source window (other than the destination) read, in the
    order of [to_be_merged]; the sources are left without state. *)
Theorem merge_unions_state (a : MergeableStateAdapter) (srcs : list window)
    (dst : window) :
  good a → NoDup srcs →
  ∃ a', Adapter.merge srcs dst a = Returns (tt, a') ∧ good a' ∧
        (∀ name, cells_of a' name dst
                 = cells_of a name dst ++
                   mjoin (cells_of a name <$> filter (λ w, w ≠ dst) srcs)) ∧
        (∀ name w, w ∈ srcs → w ≠ dst → cells_of a' name w = []) ∧
        (∀ name w, w ∉ srcs → w ≠ dst → cells_of a' name w = cells_of a name w).
Proof.
  intros Hg Hnd.
  destruct (merge_ids a srcs dst Hg Hnd) as (a' & Hrun & Hg' & Hs & Hd & Hsrc & Hoth).
  exists a'. split_and!; [done..| | |].
  - intros name. rewrite (cells_of_ids a a' name dst Hs), Hd, fmap_app, join_app.
    f_equal. unfold cells_of.
    generalize (filter (λ w, w ≠ dst) srcs). intros ws.
    induction ws as [|w ws IH]; [reflexivity|].
    rewrite !fmap_cons.
    change (mjoin (ids_of a w :: (ids_of a <$> ws)))
      with (ids_of a w ++ mjoin (ids_of a <$> ws)).
    rewrite fmap_app, join_app, IH. reflexivity.
  - intros name w Hin Hwd. rewrite (cells_of_ids a a' name w Hs).
    by rewrite Hsrc.
  - intros name w Hnin Hwd. rewrite (cells_of_ids a a' name w Hs).
    by rewrite Hoth.
Qed.

(** Merging a window into itself, or merging windows that have no state,
    changes nothing: neither the id map nor the backend. *)
Theorem merge_without_sources_is_noop (a : MergeableStateAdapter)
    (srcs : list window) (dst : window) :
  (∀ w, w ∈ srcs → w = dst ∨ window_ids a !! w = None) →
  Adapter.merge srcs dst a = Returns (tt, a).
Proof.
  unfold Adapter.merge. induction srcs as [|src srcs IH]; intros Hsrc; [done|].
  cbn [for_each].
  assert (Adapter.merge_one dst src a = Returns (tt, a)) as Hone.
  { unfold Adapter.merge_one. case_bool_decide as Hne; [|done].
    erewrite bind_returns by reflexivity.
    destruct (Hsrc src) as [Heq|Hnone]; [left|done|by rewrite Hnone]. }
  erewrite bind_returns by apply Hone. apply IH.
  intros w Hin. apply Hsrc. by right.
Qed.

(** The id a window's timers are filed under leads back to the window:
    [get_window] of any id of a window returns that window. *)
Theorem get_window_of_own_id (a : MergeableStateAdapter) (w : window) (id : Z) :
  good a → holds (window_ids a) w id →
  Adapter.get_window id a = Returns (w, a).
Proof.
  intros Hg Hh.
  destruct (get_window_cases a id) as [(w0 & Hgw & Hh0)|[_ Hno]].
  - by rewrite (wf_disjoint _ _ (good_ids _ Hg) w w0 id Hh Hh0).
  - by destruct (Hno w).
Qed.



(** Clearing a window that has no state: with a tag nothing happens, with
    [None] (all state) the adapter's [del] raises [KeyError]. *)
Theorem clear_state_of_unknown_window (a : MergeableStateAdapter) (w : window)
    (t : StateTag) :
  window_ids a !! w = None →
  Adapter.clear_state w (Some t) a = Returns (tt, a) ∧
  Adapter.clear_state w None a = Raises KeyError.
Proof.
  intros Hl. split.
  - unfold Adapter.clear_state. erewrite bind_returns by reflexivity.
    rewrite Hl. cbn [default for_each]. by erewrite bind_returns by reflexivity.
  - apply clear_state_all_unknown. intros [ids Hk]. congruence.
Qed.

(** The id map survives in the backend: a new adapter over the backend a
    reachable adapter has worked on sees the same windows with the same
    ids. *)
Theorem id_map_is_persisted (a : MergeableStateAdapter) :
  reachable a → window_ids (Adapter.init (raw_state a)) = window_ids a.
Proof. intros Hr. apply rewrap_window_ids. by apply reachable_good. Qed.

(** ** Instances of the guarantees *)

Lemma never_merges_no_merging : never_merges no_merging.
Proof. by intros ws. Qed.

Lemma good_raw_empty : good_raw empty_backend.
Proof. apply good_init_empty. Qed.

Lemma good_raw_after_elements (drv : GeneralTriggerDriver)
    (wvs : list WindowedValue) (raw : raw_backend) :
  well_behaved (trigger_fn drv) → never_merges (window_fn drv) → good_raw raw →
  good_raw (state_after (Driver.process_elements drv wvs) raw).
Proof.
  intros Hwb Hnm Hg.
  destruct (process_elements_spec drv wvs raw Hwb Hnm Hg)
    as (panes & raw' & Hrun & Hg' & _).
  unfold state_after. by rewrite Hrun.
Qed.

Lemma good_raw_fired_backend : good_raw fired_backend.
Proof.
  apply good_raw_after_elements;
    [apply AfterCount_well_behaved|apply never_merges_no_merging|apply good_raw_empty].
Qed.

Lemma good_raw_holding_backend : good_raw holding_backend.
Proof.
  apply good_raw_after_elements;
    [apply AfterCount_well_behaved|apply never_merges_no_merging|apply good_raw_empty].
Qed.

Lemma fired_backend_tombstoned : tombstoned (Adapter.init fired_backend) W0.
Proof. unfold tombstoned. vm_compute. discriminate. Qed.

Lemma holding_backend_not_tombstoned :
  ¬ tombstoned (Adapter.init holding_backend) W0.
Proof. intros Ht. apply Ht. vm_compute. reflexivity. Qed.

Lemma holding_backend_id : holds (window_ids (Adapter.init holding_backend)) W0 1.
Proof. exists [1]. split; [vm_compute; reflexivity|by left]. Qed.

Lemma tombstoned_window_stays_silent_witness :
  tombstoned (Adapter.init fired_backend) W0 ∧
  match run (count_driver 1 DISCARDING)
          [Elements [in_W0 8]; Timer 1 60 ""; Elements [in_W0 9]]
          fired_backend with
  | Returns (panes, raw') => panes_for W0 panes = []
  | Raises e => e = ValueError "No window for timer"
  end.
Proof.
  split; [exact fired_backend_tombstoned|].
  pose proof (tombstoned_window_stays_silent (count_driver 1 DISCARDING)
                [Elements [in_W0 8]; Timer 1 60 ""; Elements [in_W0 9]]
                fired_backend W0 (AfterCount_well_behaved 1)
                never_merges_no_merging good_raw_fired_backend
                fired_backend_tombstoned) as Hs.
  destruct (run _ _ _) as [[panes raw']|e]; [|exact Hs].
  exact (proj1 (proj2 Hs)).
Defined.

Lemma discarding_conserves_elements_witness :
  good_raw holding_backend ∧
  match run (count_driver 2 DISCARDING)
          [Elements [in_W0 8]; Elements [in_W0 9]] holding_backend with
  | Returns (panes, raw') =>
      pane_values W0 panes ++ held (Adapter.init raw') W0
        ≡ₚ held (Adapter.init holding_backend) W0 ++
            appended (count_driver 2 DISCARDING)
              [Elements [in_W0 8]; Elements [in_W0 9]] holding_backend W0
  | Raises e => e = ValueError "No window for timer"
  end.
Proof.
  split; [exact good_raw_holding_backend|].
  pose proof (discarding_conserves_elements (count_driver 2 DISCARDING)
                [Elements [in_W0 8]; Elements [in_W0 9]] holding_backend W0
                (AfterCount_well_behaved 2) never_merges_no_merging eq_refl
                good_raw_holding_backend) as Hs.
  destruct (run _ _ _) as [[panes raw']|e]; [|exact Hs].
  exact (proj2 Hs).
Defined.

Lemma accumulating_panes_grow_witness :
  good_raw holding_backend ∧
  match run (driver_of no_merging (Repeatedly (AfterCount 2)) ACCUMULATING)
          [Elements [in_W0 8]; Elements [in_W0 9; in_W0 10]]
          holding_backend with
  | Returns (panes, raw') =>
      grows (held (Adapter.init holding_backend) W0) (panes_for W0 panes)
  | Raises e => e = ValueError "No window for timer"
  end.
Proof.
  split; [exact good_raw_holding_backend|].
  pose proof (accumulating_panes_grow
                (driver_of no_merging (Repeatedly (AfterCount 2)) ACCUMULATING)
                [Elements [in_W0 8]; Elements [in_W0 9; in_W0 10]]
                holding_backend W0
                (Repeatedly_well_behaved _ (AfterCount_well_behaved 2))
                never_merges_no_merging eq_refl good_raw_holding_backend) as Hs.
  destruct (run _ _ _) as [[panes raw']|e]; [|exact Hs].
  exact (proj2 Hs).
Defined.


Lemma AfterWatermark_fires_at_end_of_window_witness :
  holds (window_ids (Adapter.init holding_backend)) W0 1 ∧
  Driver.process_timer (driver_of no_merging (AfterWatermark None None) DISCARDING)
    1 59 "" holding_backend = Returns ([], holding_backend) ∧
  ∃ raw',
    Driver.process_timer (driver_of no_merging (AfterWatermark None None) DISCARDING)
      1 60 "" holding_backend
      = Returns ([(W0, VList (held (Adapter.init holding_backend) W0))], raw') ∧
    tombstoned (Adapter.init raw') W0.
Proof.
  split; [exact holding_backend_id|].
  destruct (AfterWatermark_fires_at_end_of_window no_merging DISCARDING
              holding_backend 1 59 "" W0 good_raw_holding_backend
              holding_backend_id holding_backend_not_tombstoned) as [Hearly _].
  destruct (AfterWatermark_fires_at_end_of_window no_merging DISCARDING
              holding_backend 1 60 "" W0 good_raw_holding_backend
              holding_backend_id holding_backend_not_tombstoned) as [_ Hlate].
  split; [apply Hearly; vm_compute; reflexivity|].
  destruct Hlate as (raw' & Hrun & _ & Ht & _); [vm_compute; discriminate|].
  by exists raw'.
Defined.


Lemma Repeatedly_never_tombstones_witness :
  good_raw holding_backend ∧
  match run (driver_of no_merging (Repeatedly (AfterCount 1)) DISCARDING)
          [Elements [in_W0 8]; Timer 1 60 ""; Elements [in_W0 9]]
          holding_backend with
  | Returns (panes, raw') => ¬ tombstoned (Adapter.init raw') W0
  | Raises e => e = ValueError "No window for timer"
  end.
Proof.
  split; [exact good_raw_holding_backend|].
  pose proof (Repeatedly_never_tombstones no_merging (AfterCount 1) DISCARDING
                [Elements [in_W0 8]; Timer 1 60 ""; Elements [in_W0 9]]
                holding_backend W0 (AfterCount_well_behaved 1)
                never_merges_no_merging good_raw_holding_backend) as Hs.
  destruct (run _ _ _) as [[panes raw']|e]; [|exact Hs].
  intros Ht. apply holding_backend_not_tombstoned. by apply (proj2 Hs).
Defined.

Lemma W1_written_reachable : reachable W1_written.
Proof.
  apply (reachable_call W0_written
           (CallAddState W1 (ListStateTag "elements") (VInt 2)));
    [|vm_compute; reflexivity].
  apply (reachable_call (Adapter.init empty_backend)
           (CallAddState W0 (ListStateTag "elements") (VInt 1)));
    [|vm_compute; reflexivity].
  apply (reachable_new true).
Qed.

Lemma W0_written_reachable : reachable W0_written.
Proof.
  apply (reachable_call (Adapter.init empty_backend)
           (CallAddState W0 (ListStateTag "elements") (VInt 1)));
    [|vm_compute; reflexivity].
  apply (reachable_new true).
Qed.

Lemma merge_unions_state_witness :
  (good W1_written ∧ NoDup [W0; W1]) ∧
  ∃ a', Adapter.merge [W0; W1] W01 W1_written = Returns (tt, a') ∧
        cells_of a' "elements" W01 = [VInt 1; VInt 2] ∧
        cells_of a' "elements" W0 = [].
Proof.
  assert (NoDup [W0; W1]) as Hnd.
  { apply NoDup_cons. split; [|apply NoDup_singleton].
    intros Hin. apply list_elem_of_singleton in Hin. discriminate. }
  pose proof (reachable_good _ W1_written_reachable) as Hg.
  split; [by split|].
  destruct (merge_unions_state W1_written [W0; W1] W01 Hg Hnd)
    as (a' & Hrun & _ & Hdst & Hsrc & _).
  exists a'. split; [exact Hrun|]. split.
  - rewrite Hdst. vm_compute. reflexivity.
  - apply Hsrc; [by left|discriminate].
Defined.

Lemma merge_without_sources_is_noop_witness :
  (∀ w, w ∈ [W0; W1] → w = W0 ∨ window_ids W0_written !! w = None) ∧
  Adapter.merge [W0; W1] W0 W0_written = Returns (tt, W0_written).
Proof.
  assert (∀ w, w ∈ [W0; W1] → w = W0 ∨ window_ids W0_written !! w = None) as Hs.
  { intros w Hin. apply elem_of_cons in Hin as [->|Hin]; [by left|].
    apply list_elem_of_singleton in Hin as ->. right. vm_compute. reflexivity. }
  split; [exact Hs|].
  exact (merge_without_sources_is_noop W0_written [W0; W1] W0 Hs).
Defined.

Lemma merged_state_id : holds (window_ids merged_state) W01 2.
Proof. exists [1; 2]. split; [vm_compute; reflexivity|]. right. by left. Qed.

Lemma get_window_of_own_id_witness :
  holds (window_ids merged_state) W01 2 ∧
  Adapter.get_window 2 merged_state = Returns (W01, merged_state).
Proof.
  split; [exact merged_state_id|].
  exact (get_window_of_own_id merged_state W01 2
           (reachable_good _ merged_state_reachable) merged_state_id).
Defined.

Lemma clear_state_of_unknown_window_witness :
  window_ids W0_written !! W1 = None ∧
  Adapter.clear_state W1 (Some Driver.ELEMENTS) W0_written
    = Returns (tt, W0_written) ∧
  Adapter.clear_state W1 None W0_written = Raises KeyError.
Proof.
  assert (window_ids W0_written !! W1 = None) as Hn by (vm_compute; reflexivity).
  split; [exact Hn|].
  exact (clear_state_of_unknown_window W0_written W1 Driver.ELEMENTS Hn).
Defined.

Lemma id_map_is_persisted_witness :
  reachable merged_state ∧
  window_ids (Adapter.init (raw_state merged_state)) = window_ids merged_state.
Proof.
  split; [exact merged_state_reachable|].
  exact (id_map_is_persisted merged_state merged_state_reachable).
Defined.

(** ** The in-memory backend as a store *)

Lemma backend_cell_set_cell {K G} `{Countable K}
    (s : InMemoryUnmergedState K G) (w : K) name v (w' : K) name' :
  InMemory.cell (InMemory.set_cell w name v s) w' name' =
  if decide (w' = w ∧ name' = name) then v else InMemory.cell s w' name'.
Proof.
  unfold InMemory.cell, InMemory.set_cell. cbn [state InMemory.with_state].
  case_decide as Hc.
  - destruct Hc as [-> ->]. rewrite lookup_insert_eq. cbn.
    by rewrite lookup_insert_eq.
  - destruct (decide (w' = w)) as [->|Hid].
    + rewrite lookup_insert_eq. cbn. rewrite lookup_insert_ne; [done|].
      intros ->. tauto.
    + by rewrite lookup_insert_ne.
Qed.

Lemma backend_add_state_list {K G} `{Countable K}
    (s : InMemoryUnmergedState K G) (w : K) (t : StateTag) (v : pyval) l :
  (∀ name, t ≠ ValueStateTag name) →
  InMemory.cell s w (tag t) = VList l →
  InMemory.add_state w t v s
    = Returns (tt, InMemory.set_cell w (tag t) (VList (l ++ [v])) s).
Proof.
  intros Hnv Hc. unfold InMemory.add_state, bind, get.
  destruct t as [name|name cf|name]; [by destruct (Hnv name)| |];
    cbn [tag] in *; rewrite Hc; by destruct (defensive_copy s).
Qed.

Lemma backend_add_state_value {K G} `{Countable K}
    (s : InMemoryUnmergedState K G) (w : K) (name : string) (v : pyval) :
  InMemory.add_state w (ValueStateTag name) v s
    = Returns (tt, InMemory.set_cell w name v s).
Proof. unfold InMemory.add_state, bind, get. by destruct (defensive_copy s). Qed.

(** A write followed by a read of the same cell: a [Value] tag reads the
    value written, whatever the cell held; a [List] tag reads the values
    of the cell with the new one at the end and a [Combining] tag their
    combination. Every other cell, the timers and the global area are
    left as they were. *)
Theorem backend_write_then_read {K G} `{Countable K}
    (s : InMemoryUnmergedState K G) (w : K) (t : StateTag) (v : pyval) :
  ((∀ name, t ≠ ValueStateTag name) →
   ∃ l, InMemory.cell s w (tag t) = VList l) →
  ∃ s', InMemory.add_state w t v s = Returns (tt, s') ∧
        InMemory.get_state w t s'
          = Returns (match t with
                     | ValueStateTag _ => v
                     | _ => read_as t (as_list (InMemory.cell s w (tag t)) ++ [v])
                     end, s') ∧
        (∀ w' name, (w', name) ≠ (w, tag t) →
                    InMemory.cell s' w' name = InMemory.cell s w' name) ∧
        timers s' = timers s ∧ global_state s' = global_state s.
Proof.
  intros Hl.
  assert (∀ c s', s' = InMemory.set_cell w (tag t) c s →
            (∀ w' name, (w', name) ≠ (w, tag t) →
                        InMemory.cell s' w' name = InMemory.cell s w' name)) as Hframe.
  { intros c s' -> w' name Hne. rewrite backend_cell_set_cell.
    rewrite decide_False; [done|]. intros [-> ->]. by apply Hne. }
  destruct t as [name|name cf|name].
  - eexists. split; [apply backend_add_state_value|].
    split_and!; [|by eapply Hframe|done..].
    unfold InMemory.get_state, bind, get, ret. cbn [tag].
    rewrite backend_cell_set_cell. by rewrite decide_True.
  - destruct Hl as [l Hc]; [done|]. cbn [tag] in *.
    eexists. split; [by apply backend_add_state_list|].
    split_and!; [|by eapply (Hframe _ _ eq_refl)|done..].
    unfold InMemory.get_state, bind, get, ret. cbn [tag].
    rewrite backend_cell_set_cell, decide_True by done. by rewrite Hc.
  - destruct Hl as [l Hc]; [done|]. cbn [tag] in *.
    eexists. split; [by apply backend_add_state_list|].
    split_and!; [|by eapply (Hframe _ _ eq_refl)|done..].
    unfold InMemory.get_state, bind, get, ret. cbn [tag].
    rewrite backend_cell_set_cell, decide_True by done. by rewrite Hc.
Qed.

Lemma backend_write_then_read_witness :
  ((∀ name, Driver.ELEMENTS ≠ ValueStateTag name) →
   ∃ l, InMemory.cell empty_backend 1 (tag Driver.ELEMENTS) = VList l) ∧
  ∃ s', InMemory.add_state 1 Driver.ELEMENTS (VInt 7) empty_backend
          = Returns (tt, s') ∧
        InMemory.get_state 1 Driver.ELEMENTS s' = Returns (VList [VInt 7], s').
Proof.
  assert ((∀ name, Driver.ELEMENTS ≠ ValueStateTag name) →
          ∃ l, InMemory.cell empty_backend 1 (tag Driver.ELEMENTS) = VList l) as Hl.
  { intros _. by exists []. }
  split; [exact Hl|].
  destruct (backend_write_then_read empty_backend 1 Driver.ELEMENTS (VInt 7) Hl)
    as (s' & Hadd & Hget & _).
  exists s'. split; [exact Hadd|exact Hget].
Defined.

(** Tags are told apart by name only: a [List] or [Combining] tag appends
    to the cell a [Value] tag of the same name has written, which raises
    [AttributeError] when the value written is not a list, and a [Value]
    tag reads the list a [List] tag has built. *)
Theorem backend_tags_of_one_name_share_a_cell {K G} `{Countable K}
    (s : InMemoryUnmergedState K G) (w : K) (t : StateTag) (v v' : pyval) :
  (∀ name, t ≠ ValueStateTag name) →
  (∃ s', InMemory.add_state w (ValueStateTag (tag t)) v s = Returns (tt, s') ∧
         match v with
         | VList l =>
             InMemory.add_state w t v' s'
               = Returns (tt, InMemory.set_cell w (tag t) (VList (l ++ [v'])) s')
         | _ => InMemory.add_state w t v' s' = Raises AttributeError
         end) ∧
  InMemory.get_state w (ValueStateTag (tag t)) s
    = Returns (InMemory.cell s w (tag t), s).
Proof.
  intros Hnv. split; [|done].
  eexists. split; [apply backend_add_state_value|].
  assert (InMemory.cell (InMemory.set_cell w (tag t) v s) w (tag t) = v) as Hc.
  { rewrite backend_cell_set_cell. by rewrite decide_True. }
  destruct v; try (unfold InMemory.add_state, bind, get;
    destruct t as [n|n cf|n]; [by destruct (Hnv n)|..];
    cbn [tag] in *; rewrite Hc; done).
  by apply backend_add_state_list.
Qed.

Lemma backend_tags_of_one_name_share_a_cell_witness :
  (∀ name, Driver.ELEMENTS ≠ ValueStateTag name) ∧
  ∃ s', InMemory.add_state 1 (ValueStateTag "elements") (VInt 3) empty_backend
          = Returns (tt, s') ∧
        InMemory.add_state 1 Driver.ELEMENTS (VInt 4) s' = Raises AttributeError.
Proof.
  assert (∀ name, Driver.ELEMENTS ≠ ValueStateTag name) as Hnv by (intros ?; discriminate).
  split; [exact Hnv|].
  destruct (backend_tags_of_one_name_share_a_cell empty_backend 1 Driver.ELEMENTS
              (VInt 3) (VInt 4) Hnv) as [(s' & Hadd & Hraise) _].
  exists s'. split; [exact Hadd|exact Hraise].
Defined.

(** Clearing: [clear_state(w, None)] leaves every tag of [w] reading as
    never written, [clear_state(w, tag)] that tag; the other cells are
    left as they were, and so are the timers, also those of [w]. *)
Theorem backend_clear_state {K G} `{Countable K}
    (s : InMemoryUnmergedState K G) (w : K) (t : StateTag) :
  (∃ s', InMemory.clear_state w None s = Returns (tt, s') ∧
         (∀ t', InMemory.get_state w t' s' = Returns (unwritten t', s')) ∧
         (∀ w' name, w' ≠ w → InMemory.cell s' w' name = InMemory.cell s w' name) ∧
         timers s' = timers s) ∧
  (∃ s', InMemory.clear_state w (Some t) s = Returns (tt, s') ∧
         InMemory.get_state w t s' = Returns (unwritten t, s') ∧
         (∀ w' name, (w', name) ≠ (w, tag t) →
                     InMemory.cell s' w' name = InMemory.cell s w' name) ∧
         timers s' = timers s).
Proof.
  split.
  - eexists. split; [reflexivity|]. split_and!; [| |done].
    + intros t'. unfold InMemory.get_state, InMemory.cell, bind, get, ret.
      cbn [state InMemory.with_state]. rewrite lookup_delete_eq. cbn [default].
      rewrite lookup_empty. by destruct t'.
    + intros w' name Hne. unfold InMemory.cell. cbn [state InMemory.with_state].
      by rewrite lookup_delete_ne.
  - eexists. split; [reflexivity|]. split_and!; [| |done].
    + unfold InMemory.get_state, InMemory.cell, bind, get, ret.
      cbn [state InMemory.with_state].
      destruct (state s !! w) as [d|] eqn:Hd.
      * rewrite lookup_insert_eq. cbn [from_option id]. rewrite lookup_delete_eq.
        by destruct t.
      * rewrite Hd. cbn [default]. rewrite lookup_empty. by destruct t.
    + intros w' name Hne. unfold InMemory.cell. cbn [state InMemory.with_state].
      destruct (state s !! w) as [d|] eqn:Hd; [|done].
      destruct (decide (w' = w)) as [->|Hw].
      * rewrite lookup_insert_eq, Hd. cbn [from_option id].
        rewrite lookup_delete_ne; [done|]. intros <-. by apply Hne.
      * by rewrite lookup_insert_ne.
Qed.

(** The global area: a value set under a [Value] tag is the value read
    back under that name, other names read as before, a name never set
    reads as the default given; setting under a tag of another kind fails
    the assertion and changes nothing. *)
Theorem backend_global_state {K G} `{Countable K}
    (s : InMemoryUnmergedState K G) (name : string) (value dflt : G)
    (t : StateTag) :
  (∃ s', InMemory.set_global_state (ValueStateTag name) value s = Returns (tt, s') ∧
         InMemory.get_global_state (ValueStateTag name) dflt s' = Returns (value, s') ∧
         (tag t ≠ name →
            global_state s' !! tag t = global_state s !! tag t) ∧
         state s' = state s ∧ timers s' = timers s) ∧
  (global_state s !! tag t = None →
     InMemory.get_global_state t dflt s = Returns (dflt, s)) ∧
  ((∀ name', t ≠ ValueStateTag name') →
     InMemory.set_global_state t value s = Raises AssertionError).
Proof.
  split_and!.
  - eexists. split; [reflexivity|]. split_and!; [| |done..].
    + unfold InMemory.get_global_state, bind, get, ret. cbn [global_state tag].
      by rewrite lookup_insert_eq.
    + intros Hne. cbn [global_state]. by rewrite lookup_insert_ne.
  - intros Hn. unfold InMemory.get_global_state, bind, get, ret. by rewrite Hn.
  - intros Hnv. destruct t as [name'| |]; [by destruct (Hnv name')|done..].
Qed.

(** ** Timers of the in-memory backend *)

Lemma timer_of_lookup {K G} `{Countable K}
    (s : InMemoryUnmergedState K G) (w : K) name ts :
  timer_of s w name = Some ts ↔
  ∃ tms, timers s !! w = Some tms ∧ tms !! name = Some ts.
Proof.
  unfold timer_of. split.
  - destruct (timers s !! w) as [tms|]; [by exists tms|done].
  - intros (tms & -> & Hl). done.
Qed.

Lemma del_timer_spec {K G} `{Countable K}
    (s : InMemoryUnmergedState K G) (w : K) name ts :
  timer_of s w name = Some ts →
  ∃ s', InMemory.del_timer w name s = Returns (tt, s') ∧
        timer_of s' w name = None ∧
        (∀ name', name' ≠ name → timer_of s' w name' = timer_of s w name') ∧
        (∀ w', w' ≠ w → timers s' !! w' = timers s !! w') ∧
        state s' = state s ∧ global_state s' = global_state s.
Proof.
  intros Ht. unfold InMemory.del_timer, bind, get.
  change (default ∅ (timers s !! w) !! name) with (timer_of s w name).
  rewrite Ht. eexists. split; [reflexivity|].
  unfold timer_of. cbn [timers InMemory.with_timers].
  split_and!; [| | |done..].
  - rewrite lookup_insert_eq. cbn [from_option id]. by rewrite lookup_delete_eq.
  - intros name' Hne. rewrite lookup_insert_eq. cbn [from_option id].
    by rewrite lookup_delete_ne.
  - intros w' Hne. by rewrite lookup_insert_ne.
Qed.

(** The inner loop over the timers [l] of one window. *)
Lemma expire_timers_spec {K G} `{Countable K} (wm : option Z) (w : K)
    (l : list (string * Z)) (acc : list (K * (string * Z)))
    (s : InMemoryUnmergedState K G) :
  NoDup l.*1 →
  (∀ name ts, (name, ts) ∈ l → timer_of s w name = Some ts) →
  ∃ s', fold_m (InMemory.expire_timer wm w) acc l s
          = Returns (acc ++ (pair w <$>
                       filter (λ p, InMemory.expired_at wm p.2 = true) l), s') ∧
        (∀ name ts, (name, ts) ∈ l → InMemory.expired_at wm ts = true →
                    timer_of s' w name = None) ∧
        (∀ name, (∀ ts, (name, ts) ∈ l → InMemory.expired_at wm ts = false) →
                 timer_of s' w name = timer_of s w name) ∧
        (∀ w', w' ≠ w → timers s' !! w' = timers s !! w') ∧
        (is_Some (timers s !! w) → is_Some (timers s' !! w)) ∧
        state s' = state s ∧ global_state s' = global_state s.
Proof.
  revert acc s. induction l as [|[name0 ts0] l IH]; intros acc s Hnd Hin.
  - exists s. cbn [fold_m]. rewrite filter_nil, app_nil_r.
    split_and!; try done. intros name ts Hl. inversion Hl.
  - cbn [fmap list_fmap fst] in Hnd. apply NoDup_cons in Hnd as [Hnin Hnd].
    cbn [fold_m]. unfold InMemory.expire_timer at 1. cbn [fst snd].
    rewrite filter_cons. cbn [snd].
    destruct (InMemory.expired_at wm ts0) eqn:Hexp.
    + destruct (del_timer_spec s w name0 ts0) as (s1 & Hdel & Hgone & Hkeep & Hoth & Hst & Hgl);
        [apply Hin; left|].
      erewrite bind_returns by (erewrite bind_returns by apply Hdel; reflexivity).
      destruct (IH (acc ++ [(w, (name0, ts0))]) s1 Hnd)
        as (s' & Hrun & Hexpd & Hrest & Hoth' & Hsome & Hst' & Hgl').
      { intros name ts Hl. rewrite Hkeep; [apply Hin; by right|].
        intros ->. apply Hnin. apply list_elem_of_fmap. by exists (name0, ts). }
      exists s'. rewrite decide_True by done. split_and!.
      * rewrite Hrun. rewrite fmap_cons, <- app_assoc. done.
      * intros name ts Hl Hx. apply elem_of_cons in Hl as [[= -> ->]|Hl];
          [|by eapply Hexpd].
        rewrite Hrest; [done|]. intros ts Hl. exfalso. apply Hnin.
        apply list_elem_of_fmap. by exists (name0, ts).
      * intros name Hall. rewrite Hrest.
        -- apply Hkeep. intros ->. specialize (Hall ts0). rewrite Hexp in Hall.
           by discriminate Hall; left.
        -- intros ts Hl. apply Hall. by right.
      * intros w' Hne. rewrite Hoth' by done. by apply Hoth.
      * intros Hs. apply Hsome.
        unfold InMemory.del_timer, bind, get in Hdel.
        destruct (default ∅ (timers s !! w) !! name0); [|done].
        injection Hdel as <-. cbn [timers InMemory.with_timers].
        by rewrite lookup_insert_eq.
      * congruence.
      * congruence.
    + erewrite bind_returns by reflexivity.
      destruct (IH acc s Hnd) as (s' & Hrun & Hexpd & Hrest & Hoth' & Hsome & Hst' & Hgl').
      { intros name ts Hl. apply Hin. by right. }
      exists s'. rewrite decide_False by done. split_and!; [done| | |done..].
      * intros name ts Hl Hx. apply elem_of_cons in Hl as [[= -> ->]|Hl];
          [congruence|by eapply Hexpd].
      * intros name Hall. apply Hrest. intros ts Hl. apply Hall. by right.
Qed.

Lemma timer_of_same {K G} `{Countable K}
    (s s' : InMemoryUnmergedState K G) (w : K) name :
  timers s' !! w = timers s !! w → timer_of s' w name = timer_of s w name.
Proof. intros Ht. unfold timer_of. by rewrite Ht. Qed.

(** The outer loop over the windows [L]. *)
Lemma expire_windows_spec {K G} `{Countable K} (wm : option Z)
    (L : list (K * gmap string Z)) (acc : list (K * (string * Z)))
    (s : InMemoryUnmergedState K G) :
  NoDup L.*1 →
  (∀ w tms, (w, tms) ∈ L → timers s !! w = Some tms) →
  ∃ s', fold_m (InMemory.expire_window wm) acc L s
          = Returns (acc ++ mjoin ((λ item, pair item.1 <$>
                        filter (λ p, InMemory.expired_at wm p.2 = true)
                               (map_to_list item.2)) <$> L), s') ∧
        (∀ w tms name, (w, tms) ∈ L →
           timer_of s' w name =
             match tms !! name with
             | Some ts => if InMemory.expired_at wm ts then None else Some ts
             | None => None
             end) ∧
        (∀ w, w ∈ L.*1 → timers s' !! w ≠ Some ∅) ∧
        (∀ w, w ∉ L.*1 → timers s' !! w = timers s !! w) ∧
        state s' = state s ∧ global_state s' = global_state s.
Proof.
  revert acc s. induction L as [|[w0 tms0] L IH]; intros acc s Hnd Hin.
  - exists s. cbn [fold_m]. rewrite app_nil_r.
    split_and!;
      [done|intros w tms name Hl; inversion Hl|intros w Hl; inversion Hl|done..].
  - cbn [fmap list_fmap fst] in Hnd. apply NoDup_cons in Hnd as [Hnin Hnd].
    cbn [fold_m]. unfold InMemory.expire_window at 1. cbn [fst snd].
    assert (timers s !! w0 = Some tms0) as Hw0 by (apply Hin; left).
    destruct (expire_timers_spec wm w0 (map_to_list tms0) acc s)
      as (s1 & Hrun1 & Hexpd & Hrest & Hoth1 & Hsome1 & Hst1 & Hgl1).
    { apply NoDup_fst_map_to_list. }
    { intros name ts Hl. apply elem_of_map_to_list in Hl.
      apply timer_of_lookup. by exists tms0. }
    (* the state after the test for an empty dictionary *)
    assert (∃ s2,
      (let* expired := fold_m (InMemory.expire_timer wm w0) acc (map_to_list tms0) in
       let* s := get in
       (if bool_decide (default ∅ (timers s !! w0) = ∅)
        then modify (InMemory.with_timers (delete w0))
        else ret tt) ;;
       ret expired) s
      = Returns (acc ++ (pair w0 <$>
                   filter (λ p, InMemory.expired_at wm p.2 = true)
                          (map_to_list tms0)), s2) ∧
      (∀ name, timer_of s2 w0 name = timer_of s1 w0 name) ∧
      timers s2 !! w0 ≠ Some ∅ ∧
      (∀ w', w' ≠ w0 → timers s2 !! w' = timers s1 !! w') ∧
      state s2 = state s1 ∧ global_state s2 = global_state s1)
      as (s2 & Hrun2 & Hsame & Hne & Hoth2 & Hst2 & Hgl2).
    { erewrite bind_returns by apply Hrun1.
      erewrite bind_returns by reflexivity.
      case_bool_decide as Hempty.
      - eexists. split; [reflexivity|].
        cbn [timers InMemory.with_timers state global_state].
        split_and!; [| | |done..].
        + intros name. unfold timer_of. cbn [timers InMemory.with_timers].
          rewrite lookup_delete_eq, Hempty. done.
        + by rewrite lookup_delete_eq.
        + intros w' Hw'. by rewrite lookup_delete_ne.
      - exists s1. split; [reflexivity|]. split_and!; [done| |done..].
        intros He. apply Hempty. by rewrite He. }
    destruct (IH (acc ++ (pair w0 <$>
                   filter (λ p, InMemory.expired_at wm p.2 = true)
                          (map_to_list tms0))) s2 Hnd)
      as (s' & Hrun & Hchar & Hnon & Hout & Hst & Hgl).
    { intros w tms Hl. rewrite Hoth2, Hoth1; [apply Hin; by right| |];
        intros ->; apply Hnin, list_elem_of_fmap; by exists (w0, tms). }
    exists s'. split_and!.
    + erewrite bind_returns by apply Hrun2. rewrite Hrun.
      rewrite fmap_cons. cbn [fst snd].
      change (mjoin (?x :: ?xs)) with (x ++ mjoin xs).
      by rewrite app_assoc.
    + intros w tms name Hl. apply elem_of_cons in Hl as [[= -> ->]|Hl];
        [|by apply Hchar].
      rewrite (timer_of_same s2 s') by (by apply Hout).
      rewrite Hsame.
      destruct (tms0 !! name) as [ts|] eqn:Hlook.
      * assert ((name, ts) ∈ map_to_list tms0) as Hl
          by (by apply elem_of_map_to_list).
        destruct (InMemory.expired_at wm ts) eqn:Hexp; [by eapply Hexpd|].
        rewrite Hrest.
        -- apply timer_of_lookup. by exists tms0.
        -- intros ts' Hl'. apply elem_of_map_to_list in Hl'. congruence.
      * rewrite Hrest.
        -- unfold timer_of. by rewrite Hw0.
        -- intros ts' Hl'. apply elem_of_map_to_list in Hl'. congruence.
    + intros w Hw. cbn [fmap list_fmap fst] in Hw.
      apply elem_of_cons in Hw as [->|Hw]; [|by apply Hnon].
      by rewrite Hout.
    + intros w Hw. cbn [fmap list_fmap fst] in Hw.
      apply not_elem_of_cons in Hw as [Hw0' Hw].
      rewrite Hout, Hoth2, Hoth1 by done. done.
    + congruence.
    + congruence.
Qed.

Lemma NoDup_tagged {A B C} (f : C → A) (g : C → list B) (L : list C) :
  NoDup (f <$> L) → (∀ c, c ∈ L → NoDup (g c)) →
  NoDup (mjoin ((λ c, pair (f c) <$> g c) <$> L)).
Proof.
  induction L as [|c L IH]; intros Hnd Hin; [constructor|].
  rewrite fmap_cons in Hnd. apply NoDup_cons in Hnd as [Hnin Hnd].
  rewrite fmap_cons. change (mjoin (?x :: ?xs)) with (x ++ mjoin xs).
  apply NoDup_app. split_and!.
  - apply NoDup_fmap_2; [|apply Hin; left]. by intros x y [= ->].
  - intros [a1 b1] Hx Hy. apply list_elem_of_fmap in Hx as (b2 & [= -> ->] & Hb).
    apply list_elem_of_join in Hy as (l1 & Hb1 & Hl1).
    apply list_elem_of_fmap in Hl1 as (c3 & -> & Hitem).
    apply list_elem_of_fmap in Hb1 as (b3 & [= Hf _] & _).
    apply Hnin, list_elem_of_fmap. by exists c3.
  - apply IH; [done|]. intros c' Hl'. apply Hin. by right.
Qed.

(** What [get_and_clear_timers] returns and leaves behind. *)
Lemma get_and_clear_timers_effect {K G} `{Countable K}
    (s : InMemoryUnmergedState K G) (wm : option Z) :
  ∃ expired s',
    InMemory.get_and_clear_timers wm s = Returns (expired, s') ∧
    NoDup expired ∧
    (∀ w name ts, (w, (name, ts)) ∈ expired ↔
                  timer_of s w name = Some ts ∧
                  InMemory.expired_at wm ts = true) ∧
    (∀ w name ts, timer_of s' w name = Some ts ↔
                  timer_of s w name = Some ts ∧
                  InMemory.expired_at wm ts = false) ∧
    (∀ w, timers s' !! w ≠ Some ∅) ∧
    state s' = state s ∧ global_state s' = global_state s.
Proof.
  destruct (expire_windows_spec wm (map_to_list (timers s)) [] s)
    as (s' & Hrun & Hchar & Hnon & Hout & Hst & Hgl).
  { apply NoDup_fst_map_to_list. }
  { intros w tms Hl. by apply elem_of_map_to_list in Hl. }
  eexists _, s'. split; [exact Hrun|]. cbn [app].
  assert (∀ w, w ∉ (map_to_list (timers s)).*1 → timers s !! w = None) as Hnone.
  { intros w Hw. destruct (timers s !! w) as [tms|] eqn:Hl; [|done].
    destruct Hw. apply list_elem_of_fmap. exists (w, tms).
    split; [done|]. by apply elem_of_map_to_list. }
  split_and!; [| | | |done..].
  - apply (NoDup_tagged fst
             (λ item : K * gmap string Z,
                filter (λ p, InMemory.expired_at wm p.2 = true)
                       (map_to_list item.2))).
    + apply NoDup_fst_map_to_list.
    + intros c _. apply NoDup_filter, NoDup_map_to_list.
  - intros w name ts. rewrite list_elem_of_join. split.
    + intros (l & Hin & Hl).
      apply list_elem_of_fmap in Hl as ([w' tms] & -> & Hitem).
      cbn [fst snd] in Hin.
      apply list_elem_of_fmap in Hin as ([name' ts'] & [= -> -> ->] & Hf).
      apply list_elem_of_filter in Hf as [Hexp Hl]. cbn [snd] in Hexp.
      split; [|done]. apply timer_of_lookup. exists tms.
      split; by apply elem_of_map_to_list.
    + intros [Ht Hexp]. apply timer_of_lookup in Ht as (tms & Hw & Hl).
      exists (pair w <$> filter (λ p, InMemory.expired_at wm p.2 = true)
                               (map_to_list tms)).
      split.
      * apply list_elem_of_fmap. exists (name, ts). split; [done|].
        apply list_elem_of_filter. split; [done|]. by apply elem_of_map_to_list.
      * apply list_elem_of_fmap. exists (w, tms). split; [done|].
        by apply elem_of_map_to_list.
  - intros w name ts.
    destruct (timers s !! w) as [tms|] eqn:Hw.
    + rewrite (Hchar w tms name) by (by apply elem_of_map_to_list).
      unfold timer_of at 1. rewrite Hw. cbn [from_option id].
      destruct (tms !! name) as [ts'|].
      * destruct (InMemory.expired_at wm ts') eqn:Hexp.
        -- split; [done|]. intros [[= ->] Hf]. congruence.
        -- split; [by intros [= ->]|by intros [[= ->] _]].
      * split; [done|]. by intros [? _].
    + assert (timers s' !! w = None) as Hw'.
      { rewrite Hout, Hw; [done|]. intros Hin.
        apply list_elem_of_fmap in Hin as ([w' tms] & -> & Hl).
        apply elem_of_map_to_list in Hl. cbn [fst] in Hw. congruence. }
      unfold timer_of. rewrite Hw, Hw'. cbn [from_option id].
      rewrite lookup_empty. split; [done|]. by intros [? _].
  - intros w. destruct (decide (w ∈ (map_to_list (timers s)).*1)) as [Hin|Hnin].
    + by apply Hnon.
    + rewrite Hout, Hnone by done. done.
Qed.

(** [get_and_clear_timers] returns, each once, exactly the timers whose
    timestamp is at most the watermark (all timers for the default
    watermark) and removes them; the timers it keeps are the others, no
    window is left with an empty dictionary of timers, and the state and
    the global area are not touched. It never raises. *)
Theorem get_and_clear_timers_spec {K G} `{Countable K}
    (s : InMemoryUnmergedState K G) (wm : option Z) :
  ∃ expired s',
    InMemory.get_and_clear_timers wm s = Returns (expired, s') ∧
    NoDup expired ∧
    (∀ w name ts, (w, (name, ts)) ∈ expired ↔
                  timer_of s w name = Some ts ∧
                  InMemory.expired_at wm ts = true) ∧
    (∀ w name ts, timer_of s' w name = Some ts ↔
                  timer_of s w name = Some ts ∧
                  InMemory.expired_at wm ts = false) ∧
    (∀ w, timers s' !! w ≠ Some ∅) ∧
    state s' = state s ∧ global_state s' = global_state s.
Proof. apply get_and_clear_timers_effect. Qed.

Lemma expire_timers_none {K G} `{Countable K} (wm : option Z) (w : K)
    (l : list (string * Z)) (acc : list (K * (string * Z)))
    (s : InMemoryUnmergedState K G) :
  (∀ name ts, (name, ts) ∈ l → InMemory.expired_at wm ts = false) →
  fold_m (InMemory.expire_timer wm w) acc l s = Returns (acc, s).
Proof.
  induction l as [|[name ts] l IH]; intros Hl; [done|].
  cbn [fold_m]. unfold InMemory.expire_timer at 1. cbn [fst snd].
  rewrite (Hl name ts) by left.
  erewrite bind_returns by reflexivity. apply IH.
  intros name' ts' Hin. apply (Hl name'). by right.
Qed.

Lemma expire_windows_none {K G} `{Countable K} (wm : option Z)
    (L : list (K * gmap string Z)) (acc : list (K * (string * Z)))
    (s : InMemoryUnmergedState K G) :
  (∀ w tms, (w, tms) ∈ L → timers s !! w = Some tms) →
  (∀ w, timers s !! w ≠ Some ∅) →
  (∀ w name ts, timer_of s w name = Some ts →
                InMemory.expired_at wm ts = false) →
  fold_m (InMemory.expire_window wm) acc L s = Returns (acc, s).
Proof.
  intros Hin Hne Hkeep. induction L as [|[w tms] L IH]; [done|].
  cbn [fold_m]. unfold InMemory.expire_window at 1. cbn [fst snd].
  assert (timers s !! w = Some tms) as Hw by (apply Hin; left).
  erewrite bind_returns.
  2:{ erewrite bind_returns.
      2:{ apply expire_timers_none. intros name ts Hl.
          apply elem_of_map_to_list in Hl. apply (Hkeep w name).
          apply timer_of_lookup. by exists tms. }
      erewrite bind_returns by reflexivity.
      rewrite Hw. cbn [from_option id].
      rewrite bool_decide_eq_false_2; [reflexivity|].
      intros ->. by apply (Hne w). }
  apply IH. intros w' tms' Hl. apply Hin. by right.
Qed.

(** A second call of [get_and_clear_timers], with a watermark that is not
    later than the first one, reports nothing and changes nothing: a
    timer is reported by one call only. *)
Theorem get_and_clear_timers_reports_once {K G} `{Countable K}
    (s : InMemoryUnmergedState K G) (wm wm' : option Z) :
  (∀ ts, InMemory.expired_at wm' ts = true → InMemory.expired_at wm ts = true) →
  ∃ expired s',
    InMemory.get_and_clear_timers wm s = Returns (expired, s') ∧
    InMemory.get_and_clear_timers wm' s' = Returns ([], s').
Proof.
  intros Hmono.
  destruct (get_and_clear_timers_effect s wm)
    as (expired & s' & Hrun & _ & _ & Hkept & Hne & _).
  exists expired, s'. split; [exact Hrun|].
  unfold InMemory.get_and_clear_timers. erewrite bind_returns by reflexivity.
  apply expire_windows_none; [|done|].
  - intros w tms Hl. by apply elem_of_map_to_list in Hl.
  - intros w name ts Ht. apply Hkept in Ht as [_ Hf].
    destruct (InMemory.expired_at wm' ts) eqn:Hexp; [|done].
    apply Hmono in Hexp. congruence.
Qed.

Lemma get_and_clear_timers_reports_once_witness :
  (∀ ts, InMemory.expired_at (Some 5) ts = true →
         InMemory.expired_at (Some 10) ts = true) ∧
  ∃ expired s',
    InMemory.get_and_clear_timers (Some 10)
      (state_after (InMemory.set_timer 1 "" 7) empty_backend)
      = Returns (expired, s') ∧
    InMemory.get_and_clear_timers (Some 5) s' = Returns ([], s').
Proof.
  assert (∀ ts, InMemory.expired_at (Some 5) ts = true →
                InMemory.expired_at (Some 10) ts = true) as Hmono.
  { intros ts Hexp. unfold InMemory.expired_at in *.
    apply bool_decide_eq_true in Hexp. apply bool_decide_eq_true. lia. }
  split; [exact Hmono|].
  exact (get_and_clear_timers_reports_once
           (state_after (InMemory.set_timer 1 "" 7) empty_backend)
           (Some 10) (Some 5) Hmono).
Defined.

(** [set_timer] sets the one timer of that window and name, replacing its
    timestamp if it was set, and [clear_timer] removes it if it was set;
    every other timer and the state are left as they were. *)
Lemma set_clear_timer_effect {K G} `{Countable K}
    (s : InMemoryUnmergedState K G) (w : K) (name : string) (ts : Z) :
  (∃ s', InMemory.set_timer w name ts s = Returns (tt, s') ∧
         timer_of s' w name = Some ts ∧
         (∀ w' name', (w', name') ≠ (w, name) →
                      timer_of s' w' name' = timer_of s w' name') ∧
         state s' = state s ∧ global_state s' = global_state s) ∧
  (∃ s', InMemory.clear_timer w name s = Returns (tt, s') ∧
         timer_of s' w name = None ∧
         (∀ w' name', (w', name') ≠ (w, name) →
                      timer_of s' w' name' = timer_of s w' name') ∧
         state s' = state s ∧ global_state s' = global_state s).
Proof.
  split.
  - eexists. split; [reflexivity|]. unfold timer_of.
    cbn [timers InMemory.with_timers state global_state].
    split_and!; [| |done..].
    + rewrite lookup_insert_eq. cbn [from_option id]. by rewrite lookup_insert_eq.
    + intros w' name' Hne. destruct (decide (w' = w)) as [->|Hw].
      * rewrite lookup_insert_eq. cbn [from_option id].
        rewrite lookup_insert_ne; [done|]. intros <-. by apply Hne.
      * by rewrite lookup_insert_ne.
  - eexists. split; [reflexivity|]. unfold timer_of.
    cbn [timers InMemory.with_timers state global_state].
    destruct (timers s !! w) as [d|] eqn:Hd.
    + split_and!; [| |done..].
      * rewrite lookup_insert_eq. cbn [from_option id]. by rewrite lookup_delete_eq.
      * intros w' name' Hne. destruct (decide (w' = w)) as [->|Hw].
        -- rewrite lookup_insert_eq, Hd. cbn [from_option id].
           rewrite lookup_delete_ne; [done|]. intros <-. by apply Hne.
        -- by rewrite lookup_insert_ne.
    + split_and!; [|done..]. rewrite Hd. cbn [from_option id].
      by rewrite lookup_empty.
Qed.

(** A timer that was set is reported by the next [get_and_clear_timers]
    whose watermark has reached its timestamp, with that timestamp and no
    other, and is gone afterwards; a timer that was cleared is not
    reported. *)
Theorem set_timer_is_reported_cleared_timer_is_not {K G} `{Countable K}
    (s : InMemoryUnmergedState K G) (w : K) (name : string) (ts : Z)
    (wm : option Z) :
  (InMemory.expired_at wm ts = true →
   ∃ s1 expired s2,
     InMemory.set_timer w name ts s = Returns (tt, s1) ∧
     InMemory.get_and_clear_timers wm s1 = Returns (expired, s2) ∧
     (∀ ts', (w, (name, ts')) ∈ expired ↔ ts' = ts) ∧
     timer_of s2 w name = None) ∧
  (∃ s1 expired s2,
     InMemory.clear_timer w name s = Returns (tt, s1) ∧
     InMemory.get_and_clear_timers wm s1 = Returns (expired, s2) ∧
     ∀ ts', (w, (name, ts')) ∉ expired).
Proof.
  destruct (set_clear_timer_effect s w name ts)
    as [(s1 & Hset & Ht1 & _) (s1' & Hclr & Ht1' & _)].
  split.
  - intros Hexp.
    destruct (get_and_clear_timers_effect s1 wm)
      as (expired & s2 & Hrun & _ & Hin & Hkept & _).
    exists s1, expired, s2. split_and!; [done..| |].
    + intros ts'. rewrite Hin, Ht1. split; [by intros [[= ->] _]|by intros ->].
    + destruct (timer_of s2 w name) as [ts'|] eqn:Ht2; [|done].
      apply Hkept in Ht2 as [Hs Hf]. rewrite Ht1 in Hs. congruence.
  - destruct (get_and_clear_timers_effect s1' wm)
      as (expired & s2 & Hrun & _ & Hin & _).
    exists s1', expired, s2. split_and!; [done..|].
    intros ts' Hl. apply Hin in Hl as [Hs _]. congruence.
Qed.

(** ** Contexts of any depth *)

Lemma with_prefix_empty (t : StateTag) : with_prefix t "" = t.
Proof. by destruct t. Qed.


(** ** DefaultTrigger and Repeatedly(AfterWatermark()) *)

Lemma bind_ret_tt {S} (c : M S unit) (s : S) : (c ;; ret tt) s = c s.
Proof. unfold bind, ret. by destruct (c s) as [[[] ?]|?]. Qed.

(** [DefaultTrigger] decides as [Repeatedly(AfterWatermark())] does:
    [on_element], [on_merge] and [should_fire] are the same operations,
    and [on_fire] is never finished for either. They differ in what they
    leave behind: a firing of [Repeatedly(AfterWatermark())] at or after
    the end of the window writes the [is_late] flag, which nothing reads
    or clears, and its [reset] does nothing, while [DefaultTrigger]'s
    [on_fire] does nothing and its [reset] clears the timer. *)
Theorem DefaultTrigger_decides_as_Repeatedly_AfterWatermark
    {S : Type} `{SimpleState.ops window S}
    (element : pyval) (w : window) (c : context window) (wm : watermark)
    (to_be_merged : list window) (merge_result : window) (s : S) :
  let other := Repeatedly (AfterWatermark None None) in
  on_element other element w c s = on_element DefaultTrigger element w c s ∧
  on_merge other to_be_merged merge_result c s
    = on_merge DefaultTrigger to_be_merged merge_result c s ∧
  should_fire other wm w c s = should_fire DefaultTrigger wm w c s ∧
  on_fire DefaultTrigger wm w c s = Returns (false, s) ∧
  on_fire other wm w c s
    = (if watermark_ge wm (w_end w)
       then (Ctx.add_state c LATE_TAG (VBool true) ;; ret false) s
       else Returns (false, s)) ∧
  reset other w c s = Returns (tt, s) ∧
  reset DefaultTrigger w c s = Ctx.clear_timer c "" s.
Proof.
  cbn zeta. split_and!.
  - cbn [on_element Repeatedly AfterWatermark DefaultTrigger fmap option_fmap
         option_map is_late when_some].
    erewrite bind_returns by reflexivity. apply bind_ret_tt.
  - cbn [on_merge Repeatedly AfterWatermark DefaultTrigger fmap option_fmap
         option_map is_late when_some].
    erewrite bind_returns by reflexivity. apply bind_ret_tt.
  - cbn [should_fire Repeatedly AfterWatermark DefaultTrigger fmap option_fmap
         option_map is_late].
    erewrite bind_returns by reflexivity. by destruct (watermark_ge _ _).
  - reflexivity.
  - cbn [on_fire reset Repeatedly AfterWatermark fmap option_fmap
         option_map is_late when_some].
    unfold bind at 1 2. cbn [ret].
    destruct (watermark_ge wm (w_end w)); [|reflexivity].
    unfold bind, ret.
    destruct (Ctx.add_state c LATE_TAG (VBool true) s) as [[[] s1]|e]; reflexivity.
  - reflexivity.
  - reflexivity.
Qed.

(** *** DefaultTrigger under the driver *)

Lemma maybe_fire_DefaultTrigger (f : WindowFn) (mode : AccumulationMode)
    (a : MergeableStateAdapter) (wm : watermark) (w : window) :
  good a → known a w →
  if watermark_ge wm (w_end w) then
    ∃ a', Driver.maybe_fire (driver_of f DefaultTrigger mode) wm w a
            = Returns ([(w, VList (held a w))], a') ∧
          good a' ∧
          cells_of a' "tombstone" w = cells_of a "tombstone" w ∧
          held a' w = match mode with
                      | DISCARDING => []
                      | ACCUMULATING => held a w
                      end
  else
    Driver.maybe_fire (driver_of f DefaultTrigger mode) wm w a = Returns ([], a).
Proof.
  intros Hg Hk. unfold Driver.maybe_fire.
  cbn [trigger_fn driver_of should_fire on_fire DefaultTrigger].
  erewrite bind_returns by reflexivity.
  destruct (watermark_ge wm (w_end w)); [|done].
  erewrite bind_returns by reflexivity.
  destruct (output_spec (driver_of f DefaultTrigger mode) a w false Hg Hk)
    as (a' & Hout & Hg' & _ & _ & _ & _ & Hdis & Hacc).
  erewrite bind_returns by apply Hout.
  exists a'. split; [done|]. split; [done|].
  destruct mode.
  - by destruct (Hdis eq_refl eq_refl) as [-> ->].
  - by rewrite (Hacc eq_refl eq_refl).
Qed.

(** [DefaultTrigger] under the driver: every timer of a window that is
    not tombstoned whose timestamp has reached the end of the window
    emits one pane with the elements held, and the window is not
    finished by it: in ACCUMULATING mode the elements stay, in DISCARDING
    mode they are dropped; an earlier timer does nothing. *)
Theorem DefaultTrigger_fires_on_every_late_timer (f : WindowFn)
    (mode : AccumulationMode) (raw : raw_backend) (id ts : Z) (name : string)
    (w : window) :
  good_raw raw → holds (window_ids (Adapter.init raw)) w id →
  ¬ tombstoned (Adapter.init raw) w →
  (ts < w_end w →
     Driver.process_timer (driver_of f DefaultTrigger mode) id ts name raw
       = Returns ([], raw)) ∧
  (w_end w ≤ ts →
     ∃ raw',
       Driver.process_timer (driver_of f DefaultTrigger mode) id ts name raw
         = Returns ([(w, VList (held (Adapter.init raw) w))], raw') ∧
       good_raw raw' ∧ ¬ tombstoned (Adapter.init raw') w ∧
       held (Adapter.init raw') w
         = match mode with
           | DISCARDING => []
           | ACCUMULATING => held (Adapter.init raw) w
           end).
Proof.
  intros Hg Hh Hnt.
  set (drv := driver_of f DefaultTrigger mode).
  pose proof (DefaultTrigger_well_behaved : well_behaved (trigger_fn drv)) as Hwb.
  assert (known (Adapter.init raw) w) as Hk.
  { destruct Hh as (ids & Hl & _). by exists ids. }
  destruct (process_timer_spec drv raw id ts name Hwb Hg)
    as [[_ Hno]|(w0 & Hh0 & Hcases)]; [by destruct (Hno w)|].
  assert (w0 = w) as -> by (by eapply (wf_disjoint _ _ (good_ids _ Hg))).
  destruct Hcases as [[Ht _]|(_ & panes & a' & Hf & Hrun)]; [done|].
  pose proof (maybe_fire_DefaultTrigger f mode _ (At ts) w Hg Hk) as Hmf.
  fold drv in Hmf. cbn [watermark_ge] in Hmf. split.
  - intros Hlt. rewrite bool_decide_eq_false_2 in Hmf by lia.
    rewrite Hmf in Hf. injection Hf as <- <-. done.
  - intros Hle. rewrite bool_decide_eq_true_2 in Hmf by done.
    destruct Hmf as (a2 & Hmf & Hg2 & Ht2 & Hh2).
    rewrite Hmf in Hf. injection Hf as <- <-.
    pose proof (rewrap_untouched a2 w Hg2) as Hu.
    exists (raw_state a2). split_and!; [done|by apply good_rewrap| |].
    + rewrite (untouched_tombstoned _ _ _ Hu). unfold tombstoned in *.
      by rewrite Ht2.
    + by rewrite (untouched_held _ _ _ Hu).
Qed.

Lemma DefaultTrigger_fires_on_every_late_timer_witness :
  holds (window_ids (Adapter.init holding_backend)) W0 1 ∧
  ∃ raw',
    Driver.process_timer (driver_of no_merging DefaultTrigger ACCUMULATING)
      1 75 "" holding_backend
      = Returns ([(W0, VList (held (Adapter.init holding_backend) W0))], raw') ∧
    ¬ tombstoned (Adapter.init raw') W0 ∧
    held (Adapter.init raw') W0 = held (Adapter.init holding_backend) W0.
Proof.
  split; [exact holding_backend_id|].
  destruct (DefaultTrigger_fires_on_every_late_timer no_merging ACCUMULATING
              holding_backend 1 75 "" W0 good_raw_holding_backend
              holding_backend_id holding_backend_not_tombstoned) as [_ Hlate].
  destruct Hlate as (raw' & Hrun & _ & Hnt & Hheld); [vm_compute; discriminate|].
  exists raw'. split; [exact Hrun|]. split; [exact Hnt|exact Hheld].
Defined.

(** ** Writing and reading through the adapter *)

(** A value written under a [List] tag is read back with the values the
    window had, as the last of them unless the window is a merge of
    several windows (then the order is not that of arrival); a counter
    tag of that name reads one more; other windows and other names read
    as before. *)
Theorem adapter_write_then_read (a : MergeableStateAdapter) (w : window)
    (name : string) (v : pyval) :
  good a →
  ∃ a' before after,
    Adapter.get_state w (ListStateTag name) a = Returns (VList before, a) ∧
    Adapter.add_state w (ListStateTag name) v a = Returns (tt, a') ∧
    Adapter.get_state w (ListStateTag name) a' = Returns (VList after, a') ∧
    after ≡ₚ before ++ [v] ∧
    ((length (ids_of a w) ≤ 1)%nat → after = before ++ [v]) ∧
    Adapter.get_state w (CombiningValueStateTag name CountCombineFn) a'
      = Returns (VInt (Z.of_nat (length before) + 1), a') ∧
    (∀ w' name', (w' ≠ w ∨ name' ≠ name) →
       ∃ vs, Adapter.get_state w' (ListStateTag name') a = Returns (VList vs, a) ∧
             Adapter.get_state w' (ListStateTag name') a' = Returns (VList vs, a')).
Proof.
  intros Hg.
  destruct (add_state_spec a w (ListStateTag name) v Hg)
    as (a' & Hadd & Hg' & _ & Hoth & _ & Hperm & Hone & Hnames); [done|].
  cbn [tag] in *.
  exists a', (cells_of a name w), (cells_of a' name w).
  split_and!; [by apply get_state_list|done|by apply get_state_list|done|done| |].
  - rewrite get_state_count by done. do 3 f_equal.
    rewrite (Permutation_length Hperm), length_app. cbn [length]. lia.
  - intros w' name' Hne. exists (cells_of a name' w').
    split; [by apply get_state_list|].
    rewrite get_state_list by done. do 3 f_equal.
    destruct (decide (w' = w)) as [->|Hw].
    + apply Hnames. by destruct Hne.
    + by apply untouched_cells_of, Hoth.
Qed.

Lemma adapter_write_then_read_witness :
  good merged_state ∧
  ∃ a' before after,
    Adapter.get_state W01 (ListStateTag "elements") merged_state
      = Returns (VList before, merged_state) ∧
    Adapter.add_state W01 (ListStateTag "elements") (VInt 3) merged_state
      = Returns (tt, a') ∧
    Adapter.get_state W01 (ListStateTag "elements") a' = Returns (VList after, a') ∧
    after ≡ₚ before ++ [VInt 3].
Proof.
  pose proof (reachable_good _ merged_state_reachable) as Hg.
  split; [exact Hg|].
  destruct (adapter_write_then_read merged_state W01 "elements" (VInt 3) Hg)
    as (a' & before & after & Hb & Hadd & Ha & Hperm & _).
  exists a', before, after.
  split; [exact Hb|]. split; [exact Hadd|]. split; [exact Ha|exact Hperm].
Defined.

(** ** The merging path of the driver *)

Lemma walk_add (m : gmap window window) (a b : nat) (w : window) :
  walk m (a + b) w = walk m a w ≫= walk m b.
Proof.
  revert w. induction a as [|a IH]; intros w; [done|].
  cbn [Nat.add walk]. destruct (m !! w) as [w'|]; [|done]. cbn. apply IH.
Qed.

Lemma walk_prefix (m : gmap window window) (a b : nat) (w : window) :
  (a ≤ b)%nat → is_Some (walk m b w) → is_Some (walk m a w).
Proof.
  intros Hle. replace b with (a + (b - a))%nat by lia. rewrite walk_add.
  destruct (walk m a w); [by eauto|]. by intros [? ?].
Qed.

Lemma walk_cycle (m : gmap window window) (k : nat) (w : window) :
  walk m (Datatypes.S k) w = Some w → ∀ j, is_Some (walk m j w).
Proof.
  intros Hc j.
  assert (∀ i, walk m (i * Datatypes.S k) w = Some w) as Hrep.
  { induction i as [|i IH]; [done|].
    change (Datatypes.S i * Datatypes.S k)%nat
      with (Datatypes.S k + i * Datatypes.S k)%nat.
    rewrite walk_add, Hc. exact IH. }
  apply (walk_prefix m j (j * Datatypes.S k)); [nia|]. by rewrite Hrep.
Qed.

(** More steps than the dictionary has keys: some key is met twice. *)
Lemma walk_pigeonhole (m : gmap window window) (n : nat) :
  ∀ (V : gset window) (w : window),
    V ⊆ dom m →
    (∀ x, x ∈ V → ∃ k, walk m (Datatypes.S k) x = Some w) →
    (size m ≤ size V + n)%nat →
    is_Some (walk m (Datatypes.S n) w) →
    ∀ j, is_Some (walk m j w).
Proof.
  induction n as [|n IH]; intros V w Hsub Hreach Hsize Hwalk.
  - destruct (decide (w ∈ V)) as [Hin|Hnin].
    + destruct (Hreach w Hin) as [k Hk]. by apply (walk_cycle m k).
    + exfalso. cbn [walk] in Hwalk.
      destruct (m !! w) as [w1|] eqn:Hw; [|by destruct Hwalk].
      assert (V ∪ {[w]} ⊆ dom m) as Hsub'.
      { apply union_subseteq. split; [done|].
        apply singleton_subseteq_l, elem_of_dom. by eexists. }
      apply subseteq_size in Hsub'.
      rewrite size_union, size_singleton, size_dom in Hsub' by set_solver.
      lia.
  - destruct (decide (w ∈ V)) as [Hin|Hnin].
    + destruct (Hreach w Hin) as [k Hk]. by apply (walk_cycle m k).
    + change (walk m (Datatypes.S (Datatypes.S n)) w)
        with (m !! w ≫= walk m (Datatypes.S n)) in Hwalk.
      destruct (m !! w) as [w1|] eqn:Hw; [|by destruct Hwalk].
      cbn in Hwalk.
      assert (∀ j, is_Some (walk m j w1)) as Hall.
      { apply (IH (V ∪ {[w]})).
        - apply union_subseteq. split; [done|].
          apply singleton_subseteq_l, elem_of_dom. by eexists.
        - intros x Hx. apply elem_of_union in Hx as [Hx|Hx].
          + destruct (Hreach x Hx) as [k Hk]. exists (Datatypes.S k).
            replace (Datatypes.S (Datatypes.S k)) with (Datatypes.S k + 1)%nat by lia.
            rewrite walk_add, Hk. cbn. by rewrite Hw.
          + apply elem_of_singleton in Hx as ->. exists 0%nat. cbn. by rewrite Hw.
        - rewrite size_union, size_singleton by set_solver. lia.
        - done. }
      intros [|j]; [by eexists|]. cbn [walk]. rewrite Hw. cbn. apply Hall.
Qed.

Lemma chase_None (m : gmap window window) (n : nat) (w : window) :
  Driver.chase n m w = None ↔ is_Some (walk m (Datatypes.S n) w).
Proof.
  revert w. induction n as [|n IH]; intros w.
  - cbn [Driver.chase walk]. destruct (m !! w) as [w'|]; cbn.
    + split; [by eauto|done].
    + split; [done|]. by intros [? ?].
  - change (walk m (Datatypes.S (Datatypes.S n)) w)
      with (m !! w ≫= walk m (Datatypes.S n)).
    cbn [Driver.chase]. destruct (m !! w) as [w'|]; cbn.
    + apply IH.
    + split; [done|]. by intros [? ?].
Qed.

Lemma chase_Some (m : gmap window window) (n : nat) (w w' : window) :
  Driver.chase n m w = Some w' →
  m !! w' = None ∧ Driver.chase (Datatypes.S n) m w = Some w'.
Proof.
  revert w. induction n as [|n IH]; intros w.
  - cbn [Driver.chase]. destruct (m !! w) as [w1|] eqn:Hw; [done|].
    by intros [= <-].
  - intros Hc. cbn [Driver.chase] in Hc.
    change (Driver.chase (Datatypes.S (Datatypes.S n)) m w)
      with (match m !! w with
            | None => Some w
            | Some w1 => Driver.chase (Datatypes.S n) m w1
            end).
    destruct (m !! w) as [w1|] eqn:Hw.
    + by apply IH.
    + by injection Hc as <-.
Qed.

(** The loop [while window in merged_away: window = merged_away[window]]
    of [process_elements]: it ends, at a window that was not merged away,
    within as many steps as the dictionary has keys, or it never ends
    (the merges recorded form a cycle); when no merge result was itself
    merged away it ends after at most one step. *)
Theorem merged_away_loop_ends_or_cycles (m : gmap window window) (w : window) :
  match Driver.chase (size m) m w with
  | Some w' =>
      m !! w' = None ∧ ∀ n, (size m ≤ n)%nat → Driver.chase n m w = Some w'
  | None => ∀ n, Driver.chase n m w = None
  end ∧
  ((∀ x y, m !! x = Some y → m !! y = None) →
   Driver.chase (size m) m w = Some (default w (m !! w))).
Proof.
  split.
  - destruct (Driver.chase (size m) m w) as [w'|] eqn:Hc.
    + split; [by apply chase_Some in Hc as [? _]|].
      intros n Hle. induction Hle as [|n Hle IH]; [done|].
      by apply chase_Some in IH as [_ ?].
    + intros n. apply chase_None. apply chase_None in Hc.
      apply (walk_pigeonhole m (size m) ∅ w); [set_solver|set_solver| |done].
      rewrite size_empty. lia.
  - intros Hflat. destruct (m !! w) as [w1|] eqn:Hw; cbn [default from_option id].
    + destruct (size m) as [|n] eqn:Hsize.
      * apply map_size_empty_inv in Hsize. subst m. by rewrite lookup_empty in Hw.
      * cbn [Driver.chase]. rewrite Hw.
        destruct n; cbn [Driver.chase]; by rewrite (Hflat w w1 Hw).
    + destruct (size m); cbn [Driver.chase]; by rewrite Hw.
Qed.

Lemma bucket_keys_addressed (wvs : list WindowedValue) (w : window) :
  w ∈ (Driver.bucket wvs).*1 → ∃ wv, wv ∈ wvs ∧ w ∈ windows wv.
Proof.
  intros Hin. destruct (bucket_spec wvs) as (_ & Hne & Hvals).
  apply list_elem_of_fmap in Hin as ([w' vs] & -> & Hin). cbn [fst].
  assert (addressed wvs w' ≠ []) as Hadd.
  { rewrite <- Hvals. intros Hnil. apply (Hne w' vs Hin).
    unfold bucket_values in Hnil.
    assert (vs ∈ (λ p : window * list pyval,
                    if decide (p.1 = w') then p.2 else []) <$> Driver.bucket wvs)
      as Hvs.
    { apply list_elem_of_fmap. exists (w', vs). cbn [fst snd].
      by rewrite decide_True. }
    destruct vs as [|v vs]; [done|].
    assert (v ∈ mjoin ((λ p : window * list pyval,
                          if decide (p.1 = w') then p.2 else [])
                         <$> Driver.bucket wvs)) as Hv.
    { apply list_elem_of_join. eexists. split; [|exact Hvs]. left. }
    rewrite Hnil in Hv. inversion Hv. }
  unfold addressed in Hadd.
  destruct (mjoin _) as [|v rest] eqn:Hj; [done|].
  assert (v ∈ v :: rest) as Hv by left. rewrite <- Hj in Hv.
  apply list_elem_of_join in Hv as (l & Hv & Hl).
  apply list_elem_of_fmap in Hl as (wv & -> & Hwv).
  apply list_elem_of_join in Hv as (l' & Hv & Hl').
  apply list_elem_of_fmap in Hl' as (w0 & -> & Hw0).
  exists wv. split; [done|]. case_decide as Hd; [by subst|inversion Hv].
Qed.

Lemma element_loop_window_fn (f : WindowFn) (drv : GeneralTriggerDriver)
    (items : list (window * list pyval)) (a : MergeableStateAdapter) :
  Driver.element_loop (with_window_fn f drv) items a
    = Driver.element_loop drv items a.
Proof.
  revert a. induction items as [|[w vs] items IH]; intros a; [done|].
  cbn [Driver.element_loop].
  change (Driver.process_window (with_window_fn f drv) w vs)
    with (Driver.process_window drv w vs).
  unfold bind. destruct (Driver.process_window drv w vs a) as [[fired a1]|e]; [|done].
  by rewrite IH.
Qed.

Lemma handle_merging_known (drv : GeneralTriggerDriver)
    (items : list (window * list pyval)) (a : MergeableStateAdapter) :
  (∀ w, w ∈ items.*1 → known a w) →
  Driver.handle_merging drv items a = Returns (items, a).
Proof.
  intros Hk. unfold Driver.handle_merging.
  erewrite bind_returns by reflexivity.
  rewrite bool_decide_eq_false_2; [done|]. intros Hne. apply Hne.
  apply set_eq. intros w. rewrite elem_of_union, !elem_of_list_to_set.
  split; [|by left]. intros [Hw|Hw]; [done|].
  by apply known_windows_elem, Hk.
Qed.

(** The window function is consulted only when a bundle brings a window
    that has no state yet: on a bundle whose windows are all known,
    [process_elements] does the same with any window function, merging or
    not. *)
Theorem known_windows_are_not_merged (drv : GeneralTriggerDriver) (f : WindowFn)
    (wvs : list WindowedValue) (raw : raw_backend) :
  (∀ wv w, wv ∈ wvs → w ∈ windows wv → known (Adapter.init raw) w) →
  Driver.process_elements (with_window_fn f drv) wvs raw
    = Driver.process_elements drv wvs raw.
Proof.
  intros Hk. unfold Driver.process_elements, Driver.wrapped.
  assert (∀ w, w ∈ (Driver.bucket wvs).*1 → known (Adapter.init raw) w) as Hkeys.
  { intros w Hin. apply bucket_keys_addressed in Hin as (wv & Hwv & Hw).
    by apply (Hk wv). }
  erewrite !bind_returns by (by apply handle_merging_known).
  by rewrite element_loop_window_fn.
Qed.

Lemma known_windows_are_not_merged_witness :
  (∀ wv w, wv ∈ [in_W0 8] → w ∈ windows wv →
           known (Adapter.init holding_backend) w) ∧
  Driver.process_elements
    (with_window_fn (merge_all_into W01) (count_driver 2 DISCARDING))
    [in_W0 8] holding_backend
  = Driver.process_elements (count_driver 2 DISCARDING) [in_W0 8] holding_backend.
Proof.
  assert (∀ wv w, wv ∈ [in_W0 8] → w ∈ windows wv →
                  known (Adapter.init holding_backend) w) as Hk.
  { intros wv w Hwv Hw. apply list_elem_of_singleton in Hwv as ->.
    apply list_elem_of_singleton in Hw as ->.
    exists [1]. vm_compute. reflexivity. }
  split; [exact Hk|].
  exact (known_windows_are_not_merged (count_driver 2 DISCARDING)
           (merge_all_into W01) [in_W0 8] holding_backend Hk).
Defined.

(** ** Triggers in nested contexts *)

Lemma append_suffix (p s t : string) : p +:+ s = t → s ∈ suffixes t.
Proof.
  revert t. induction p as [|ch p IH]; intros t Heq.
  - change (s = t) in Heq. subst t. destruct s; left.
  - change (String ch (p +:+ s) = t) in Heq. subst t.
    cbn [suffixes]. right. by apply IH.
Qed.

Lemma tag_with_prefix (t : StateTag) (p : string) :
  tag (with_prefix t p) = p +:+ tag t.
Proof. by destruct t. Qed.

Lemma count_name_free (p : string) :
  p +:+ "count" ≠ "elements"%string ∧ p +:+ "count" ≠ "tombstone"%string.
Proof.
  split; intros Heq; apply append_suffix in Heq; cbn [suffixes] in Heq;
    repeat (apply elem_of_cons in Heq as [Heq|Heq]; [discriminate|]);
    inversion Heq.
Qed.

Lemma is_late_name_free (p : string) :
  p +:+ "is_late" ≠ "elements"%string ∧ p +:+ "is_late" ≠ "tombstone"%string.
Proof.
  split; intros Heq; apply append_suffix in Heq; cbn [suffixes] in Heq;
    repeat (apply elem_of_cons in Heq as [Heq|Heq]; [discriminate|]);
    inversion Heq.
Qed.

Lemma Ctx_add_state_flat {W S} `{SimpleState.ops W S} (c : context W) t v :
  Ctx.add_state c t v
    = SimpleState.add_state (window_of c) (with_prefix t (prefix_of c)) v.
Proof.
  revert t. induction c as [w|outer IH prefix]; intros t; cbn.
  - by rewrite with_prefix_empty.
  - by rewrite IH, with_prefix_twice.
Qed.

Lemma Ctx_get_state_flat {W S} `{SimpleState.ops W S} (c : context W) t :
  Ctx.get_state c t
    = SimpleState.get_state (window_of c) (with_prefix t (prefix_of c)).
Proof.
  revert t. induction c as [w|outer IH prefix]; intros t; cbn.
  - by rewrite with_prefix_empty.
  - by rewrite IH, with_prefix_twice.
Qed.

Lemma Ctx_clear_state_flat {W S} `{SimpleState.ops W S} (c : context W) t :
  Ctx.clear_state c t
    = SimpleState.clear_state (window_of c)
        (Some (with_prefix t (prefix_of c))).
Proof.
  revert t. induction c as [w|outer IH prefix]; intros t; cbn.
  - by rewrite with_prefix_empty.
  - by rewrite IH, with_prefix_twice.
Qed.

Lemma Ctx_set_timer_flat {W S} `{SimpleState.ops W S} (c : context W) name ts :
  Ctx.set_timer c name ts
    = SimpleState.set_timer (window_of c) (prefix_of c +:+ name) ts.
Proof.
  revert name. induction c as [w|outer IH prefix]; intros name; cbn; [done|].
  by rewrite IH, string_append_assoc.
Qed.

Lemma Ctx_clear_timer_flat {W S} `{SimpleState.ops W S} (c : context W) name :
  Ctx.clear_timer c name
    = SimpleState.clear_timer (window_of c) (prefix_of c +:+ name).
Proof.
  revert name. induction c as [w|outer IH prefix]; intros name; cbn; [done|].
  by rewrite IH, string_append_assoc.
Qed.

Lemma well_behaved_nested_plain (T : TriggerFn MergeableStateAdapter) :
  well_behaved_nested T → well_behaved T.
Proof.
  intros [Hoe Hsf Hof Hrs]. split.
  - intros a w v. apply (Hoe a w (TriggerContext w) v).
  - intros a w wm. apply (Hsf a w (TriggerContext w) wm).
  - intros a w wm. apply (Hof a w (TriggerContext w) wm).
  - intros a w. apply (Hrs a w (TriggerContext w)).
Qed.

Lemma DefaultTrigger_nested : well_behaved_nested DefaultTrigger.
Proof.
  split.
  - intros a w c v Hg Hk. cbn [on_element DefaultTrigger].
    rewrite Ctx_set_timer_flat.
    destruct (set_timer_known a (window_of c) (prefix_of c +:+ "") (w_end w) Hg Hk)
      as (a' & Hrun & Hg' & Hi & Hs).
    exists a'. split; [done|]. by apply keeps_window_same_state.
  - intros a w c wm Hg Hk. eexists _, a. split; [reflexivity|].
    by apply keeps_window_refl.
  - intros a w c wm Hg Hk. eexists _, a. split; [reflexivity|].
    by apply keeps_window_refl.
  - intros a w c Hg Hk. cbn [reset DefaultTrigger].
    rewrite Ctx_clear_timer_flat.
    destruct (clear_timer_spec a (window_of c) (prefix_of c +:+ "") Hg)
      as (a' & Hrun & Hg' & Hi & Hs).
    exists a'. split; [done|]. by apply keeps_window_same_state.
Qed.

Lemma AfterCount_nested (n : Z) : well_behaved_nested (AfterCount n).
Proof.
  split.
  - intros a w c v Hg Hk. cbn [on_element AfterCount].
    rewrite Ctx_add_state_flat.
    destruct (add_state_spec a (window_of c)
                (with_prefix COUNT_TAG (prefix_of c)) (VInt 1) Hg)
      as (a' & Hrun & Hg' & Hk' & Ho & _ & _ & _ & Hn); [done|].
    exists a'. split; [done|].
    eapply (keeps_window_add_state _ a a'
              (with_prefix COUNT_TAG (prefix_of c))); try done;
      rewrite tag_with_prefix; apply count_name_free.
  - intros a w c wm Hg Hk. cbn [should_fire AfterCount].
    rewrite Ctx_get_state_flat.
    erewrite bind_returns by (by apply get_state_count).
    eexists _, a. split; [reflexivity|]. by apply keeps_window_refl.
  - intros a w c wm Hg Hk. eexists _, a. split; [reflexivity|].
    by apply keeps_window_refl.
  - intros a w c Hg Hk. cbn [reset AfterCount].
    rewrite Ctx_clear_state_flat.
    destruct (clear_state_tag_spec a (window_of c)
                (with_prefix COUNT_TAG (prefix_of c)) Hg)
      as (a' & Hrun & Hg' & Hi & Ho & _ & Hn).
    exists a'. split; [done|].
    eapply (keeps_window_add_state _ a a'
              (with_prefix COUNT_TAG (prefix_of c))); try done.
    + unfold known. by rewrite Hi.
    + rewrite tag_with_prefix. apply count_name_free.
    + rewrite tag_with_prefix. apply count_name_free.
Qed.

Lemma AfterWatermark_plain_nested : well_behaved_nested (AfterWatermark None None).
Proof.
  split.
  - intros a w c v Hg Hk.
    change (on_element (AfterWatermark None None) v w c a)
      with ((Ctx.set_timer c "" (w_end w) ;; ret tt) a).
    rewrite Ctx_set_timer_flat.
    destruct (set_timer_known a (window_of c) (prefix_of c +:+ "") (w_end w) Hg Hk)
      as (a' & Hrun & Hg' & Hi & Hs).
    exists a'. split; [by erewrite bind_returns by apply Hrun|].
    by apply keeps_window_same_state.
  - intros a w c wm Hg Hk.
    exists (watermark_ge wm (w_end w)), a. split; [|by apply keeps_window_refl].
    cbv [should_fire AfterWatermark]. cbn. by destruct (watermark_ge _ _).
  - intros a w c wm Hg Hk.
    assert (on_fire (AfterWatermark None None) wm w c a
            = if watermark_ge wm (w_end w)
              then (Ctx.add_state c LATE_TAG (VBool true) ;; ret true) a
              else Returns (false, a)) as ->.
    { cbv [on_fire AfterWatermark]. cbn. by destruct (watermark_ge _ _). }
    destruct (watermark_ge wm (w_end w)).
    + rewrite Ctx_add_state_flat.
      destruct (add_state_spec a (window_of c)
                  (with_prefix LATE_TAG (prefix_of c)) (VBool true) Hg)
        as (a' & Hrun & Hg' & Hk' & Ho & _ & _ & _ & Hn); [done|].
      exists true, a'. split; [by erewrite bind_returns by apply Hrun|].
      eapply (keeps_window_add_state _ a a'
                (with_prefix LATE_TAG (prefix_of c))); try done;
        rewrite tag_with_prefix; apply is_late_name_free.
    + exists false, a. split; [done|]. by apply keeps_window_refl.
  - intros a w c Hg Hk. exists a. split; [done|]. by apply keeps_window_refl.
Qed.

Lemma Repeatedly_nested (T : TriggerFn MergeableStateAdapter) :
  well_behaved_nested T → well_behaved_nested (Repeatedly T).
Proof.
  intros [Hoe Hsf Hof Hrs]. split.
  - exact Hoe.
  - exact Hsf.
  - intros a w c wm Hg Hk. cbn [on_fire Repeatedly].
    destruct (Hof a w c wm Hg Hk) as (b & a1 & Hrun & Hkw).
    erewrite bind_returns by apply Hrun. destruct b.
    + destruct (Hrs a1 w c (kw_good _ _ _ Hkw) (kw_known _ _ _ Hkw))
        as (a2 & Hrun2 & Hkw2).
      exists false, a2. split; [by erewrite bind_returns by apply Hrun2|].
      by eapply keeps_window_trans.
    + by exists false, a1.
  - exact Hrs.
Qed.

(** *** Composite triggers *)

Lemma py_any_of_keeps (w : window) (items : list (M MergeableStateAdapter bool)) :
  Forall (keeps w) items → keeps w (py_any_of items).
Proof.
  induction items as [|item items IH]; intros Hall a Hg Hk.
  - exists false, a. split; [done|]. by apply keeps_window_refl.
  - apply Forall_cons in Hall as [Hitem Hall]. cbn [py_any_of].
    destruct (Hitem a Hg Hk) as (b & a1 & Hrun & Hkw).
    erewrite bind_returns by apply Hrun. destruct b; [by exists true, a1|].
    destruct (IH Hall a1 (kw_good _ _ _ Hkw) (kw_known _ _ _ Hkw))
      as (b & a2 & Hrun2 & Hkw2).
    exists b, a2. split; [done|]. by eapply keeps_window_trans.
Qed.

Lemma py_all_of_keeps (w : window) (items : list (M MergeableStateAdapter bool)) :
  Forall (keeps w) items → keeps w (py_all_of items).
Proof.
  induction items as [|item items IH]; intros Hall a Hg Hk.
  - exists true, a. split; [done|]. by apply keeps_window_refl.
  - apply Forall_cons in Hall as [Hitem Hall]. cbn [py_all_of].
    destruct (Hitem a Hg Hk) as (b & a1 & Hrun & Hkw).
    erewrite bind_returns by apply Hrun. destruct b; [|by exists false, a1].
    destruct (IH Hall a1 (kw_good _ _ _ Hkw) (kw_known _ _ _ Hkw))
      as (b & a2 & Hrun2 & Hkw2).
    exists b, a2. split; [done|]. by eapply keeps_window_trans.
Qed.

Lemma for_each_keeps {A} (w : window) (xs : list A)
    (body : A → M MergeableStateAdapter unit) (a : MergeableStateAdapter) :
  (∀ x a, x ∈ xs → good a → known a w →
          ∃ a', body x a = Returns (tt, a') ∧ keeps_window w a a') →
  good a → known a w →
  ∃ a', for_each xs body a = Returns (tt, a') ∧ keeps_window w a a'.
Proof.
  revert a. induction xs as [|x xs IH]; intros a Hbody Hg Hk.
  - exists a. split; [done|]. by apply keeps_window_refl.
  - cbn [for_each]. destruct (Hbody x a) as (a1 & Hrun & Hkw); [left|done..|].
    erewrite bind_returns by apply Hrun.
    destruct (IH a1) as (a2 & Hrun2 & Hkw2);
      [|apply (kw_good _ _ _ Hkw)|apply (kw_known _ _ _ Hkw)|].
    { intros x' a' Hin. apply Hbody. by right. }
    exists a2. split; [done|]. by eapply keeps_window_trans.
Qed.

Lemma enumerate_from_triggers (k : nat) (ts : list (TriggerFn MergeableStateAdapter))
    (item : nat * TriggerFn MergeableStateAdapter) :
  Forall well_behaved_nested ts → item ∈ enumerate_from k ts →
  well_behaved_nested item.2.
Proof.
  revert k. induction ts as [|t ts IH]; intros k Hall Hin; [inversion Hin|].
  apply Forall_cons in Hall as [Ht Hall]. cbn [enumerate_from] in Hin.
  apply elem_of_cons in Hin as [->|Hin]; [done|]. by apply (IH (Datatypes.S k)).
Qed.

Lemma fire_all_keeps (wm : watermark) (w : window) (c : context window)
    (items : list (nat * TriggerFn MergeableStateAdapter))
    (finished : list bool) (a : MergeableStateAdapter) :
  (∀ item, item ∈ items → well_behaved_nested item.2) →
  good a → known a (window_of c) →
  ∃ finished' a', fold_m (fire_one wm w c) finished items a
                    = Returns (finished', a') ∧
                  keeps_window (window_of c) a a'.
Proof.
  revert finished a. induction items as [|item items IH];
    intros finished a Hall Hg Hk.
  - exists finished, a. split; [done|]. by apply keeps_window_refl.
  - cbn [fold_m]. pose proof (Hall item ltac:(left)) as Hwb.
    assert (∃ finished1 a1, fire_one wm w c finished item a
                              = Returns (finished1, a1) ∧
                            keeps_window (window_of c) a a1)
      as (finished1 & a1 & Hrun & Hkw).
    { unfold fire_one.
      destruct (wn_should_fire _ Hwb a w (_sub_context c item.1) wm Hg Hk)
        as (b & a1 & Hsf & Hkw1).
      erewrite bind_returns by apply Hsf. destruct b; [|by exists finished, a1].
      destruct (wn_on_fire _ Hwb a1 w (_sub_context c item.1) wm
                  (kw_good _ _ _ Hkw1) (kw_known _ _ _ Hkw1))
        as (fin & a2 & Hof & Hkw2).
      erewrite bind_returns by apply Hof.
      eexists _, a2. split; [reflexivity|]. by eapply keeps_window_trans. }
    erewrite bind_returns by apply Hrun.
    destruct (IH finished1 a1) as (finished2 & a2 & Hrun2 & Hkw2);
      [|apply (kw_good _ _ _ Hkw)|apply (kw_known _ _ _ Hkw)|].
    { intros item' Hin. apply Hall. by right. }
    exists finished2, a2. split; [done|]. by eapply keeps_window_trans.
Qed.

Lemma ParallelTriggerFn_nested
    (combine_op : list (M MergeableStateAdapter bool) → M MergeableStateAdapter bool)
    (ts : list (TriggerFn MergeableStateAdapter)) :
  (∀ w items, Forall (keeps w) items → keeps w (combine_op items)) →
  Forall well_behaved_nested ts →
  well_behaved_nested (ParallelTriggerFn combine_op ts).
Proof.
  intros Hop Hall.
  pose proof (λ item, enumerate_from_triggers 0 ts item Hall) as Hitems.
  fold (enumerate ts) in Hitems. split.
  - intros a w c v Hg Hk. cbn [on_element ParallelTriggerFn].
    apply for_each_keeps; [|done..]. intros item a0 Hin Hg0 Hk0.
    apply (wn_on_element _ (Hitems item Hin) a0 w (_sub_context c item.1) v Hg0 Hk0).
  - intros a w c wm Hg Hk. cbn [should_fire ParallelTriggerFn].
    apply Hop; [|done..]. apply Forall_fmap, Forall_forall.
    intros item Hin a0 Hg0 Hk0.
    apply (wn_should_fire _ (Hitems item Hin) a0 w (_sub_context c item.1) wm Hg0 Hk0).
  - intros a w c wm Hg Hk. cbn [on_fire ParallelTriggerFn].
    destruct (fire_all_keeps wm w c (enumerate ts) [] a Hitems Hg Hk)
      as (finished & a1 & Hrun & Hkw).
    erewrite bind_returns by apply Hrun.
    destruct (Hop (window_of c) (ret <$> finished)) with (a := a1)
      as (b & a2 & Hrun2 & Hkw2);
      [|apply (kw_good _ _ _ Hkw)|apply (kw_known _ _ _ Hkw)|].
    { apply Forall_fmap, Forall_forall. intros fin _ a0 Hg0 Hk0.
      exists fin, a0. split; [done|]. by apply keeps_window_refl. }
    exists b, a2. split; [done|]. by eapply keeps_window_trans.
  - intros a w c Hg Hk. cbn [reset ParallelTriggerFn].
    apply for_each_keeps; [|done..]. intros item a0 Hin Hg0 Hk0.
    apply (wn_reset _ (Hitems item Hin) a0 w (_sub_context c item.1) Hg0 Hk0).
Qed.

(** [AfterFirst], [AfterAll] and [OrFinally] of triggers that keep to
    their own state keep to it too, in any context: on a window that has
    state their operations return and touch neither the elements and the
    tombstone the driver keeps nor other windows. The triggers of this
    module without subtriggers, and [Repeatedly] of such a trigger, are
    of that kind. *)
Theorem composite_triggers_are_well_behaved
    (ts : list (TriggerFn MergeableStateAdapter)) :
  Forall well_behaved_nested ts →
  (well_behaved_nested (AfterFirst ts) ∧ well_behaved (AfterFirst ts)) ∧
  (well_behaved_nested (AfterAll ts) ∧ well_behaved (AfterAll ts)) ∧
  (∀ body exit, ts = [body; exit] → well_behaved (OrFinally body exit)) ∧
  well_behaved_nested DefaultTrigger ∧
  (∀ n, well_behaved_nested (AfterCount n)) ∧
  well_behaved_nested (AfterWatermark None None) ∧
  (∀ T, well_behaved_nested T → well_behaved_nested (Repeatedly T)).
Proof.
  intros Hall.
  assert (well_behaved_nested (AfterFirst ts)) as Hfirst
    by (apply ParallelTriggerFn_nested; [apply py_any_of_keeps|done]).
  assert (well_behaved_nested (AfterAll ts)) as Hevery
    by (apply ParallelTriggerFn_nested; [apply py_all_of_keeps|done]).
  split_and!.
  - done.
  - by apply well_behaved_nested_plain.
  - done.
  - by apply well_behaved_nested_plain.
  - intros body exit ->. by apply well_behaved_nested_plain.
  - apply DefaultTrigger_nested.
  - apply AfterCount_nested.
  - apply AfterWatermark_plain_nested.
  - apply Repeatedly_nested.
Qed.

Lemma composite_triggers_are_well_behaved_witness :
  Forall well_behaved_nested
    [Repeatedly (AfterCount 2); AfterWatermark None None] ∧
  well_behaved (OrFinally (Repeatedly (AfterCount 2)) (AfterWatermark None None)).
Proof.
  assert (Forall well_behaved_nested
            [Repeatedly (AfterCount 2); AfterWatermark None None]) as Hall.
  { repeat apply Forall_cons_2; [| |apply Forall_nil_2].
    - apply Repeatedly_nested, AfterCount_nested.
    - apply AfterWatermark_plain_nested. }
  split; [exact Hall|].
  destruct (composite_triggers_are_well_behaved _ Hall)
    as (_ & _ & Hor & _).
  exact (Hor _ _ eq_refl).
Defined.

(** *** What [AfterFirst] and [AfterAll] decide *)

Lemma py_any_all_of_pure {S} (items : list (M S bool)) (bs : list bool) (s : S) :
  Forall2 (λ item b, item s = Returns (b, s)) items bs →
  py_any_of items s = Returns (existsb id bs, s) ∧
  py_all_of items s = Returns (forallb id bs, s).
Proof.
  induction 1 as [|item b items bs Hitem _ [IHany IHall]]; [done|].
  cbn [py_any_of py_all_of existsb forallb]. split.
  - erewrite bind_returns by apply Hitem. by destruct b.
  - erewrite bind_returns by apply Hitem. by destruct b.
Qed.

Lemma py_any_of_first {S} (pre post : list (M S bool)) (item : M S bool) (s s' : S) :
  Forall (λ it, it s = Returns (false, s)) pre →
  item s = Returns (true, s') →
  py_any_of (pre ++ item :: post) s = Returns (true, s').
Proof.
  intros Hpre Hitem. induction Hpre as [|it pre Hit _ IH]; cbn [app py_any_of].
  - by erewrite bind_returns by apply Hitem.
  - by erewrite bind_returns by apply Hit.
Qed.

Lemma enumerate_from_app {A} (k : nat) (xs ys : list A) :
  enumerate_from k (xs ++ ys)
    = enumerate_from k xs ++ enumerate_from (k + length xs) ys.
Proof.
  revert k. induction xs as [|x xs IH]; intros k; cbn [app enumerate_from length].
  - by rewrite Nat.add_0_r.
  - rewrite IH. by replace (Datatypes.S k + length xs)%nat
                     with (k + Datatypes.S (length xs))%nat by lia.
Qed.

(** [AfterFirst] should fire when some subtrigger should, [AfterAll] when
    all of them should, each subtrigger being asked in its own context
    ['<index>/']; this is so when asking changes nothing. [AfterFirst]
    stops asking at the first subtrigger that should fire: the later ones
    are not run, whatever they would do. Without subtriggers [AfterFirst]
    never fires, and [AfterAll] fires at once and is finished by it. *)
Theorem AfterFirst_AfterAll_should_fire {S : Type} `{SimpleState.ops window S}
    (ts : list (TriggerFn S)) (wm : watermark) (w : window)
    (c : context window) (s : S) :
  (∀ bs,
     Forall2 (λ item b, should_fire item.2 wm w (_sub_context c item.1) s
                          = Returns (b, s)) (enumerate ts) bs →
     should_fire (AfterFirst ts) wm w c s = Returns (existsb id bs, s) ∧
     should_fire (AfterAll ts) wm w c s = Returns (forallb id bs, s)) ∧
  (∀ pre t post s',
     ts = pre ++ t :: post →
     Forall (λ item, should_fire item.2 wm w (_sub_context c item.1) s
                       = Returns (false, s)) (enumerate pre) →
     should_fire t wm w (_sub_context c (length pre)) s = Returns (true, s') →
     should_fire (AfterFirst ts) wm w c s = Returns (true, s')) ∧
  should_fire (AfterFirst []) wm w c s = Returns (false, s) ∧
  should_fire (AfterAll []) wm w c s = Returns (true, s) ∧
  on_fire (AfterAll []) wm w c s = Returns (true, s).
Proof.
  split_and!; [| |done..].
  - intros bs Hbs. cbn [should_fire AfterFirst AfterAll ParallelTriggerFn].
    apply py_any_all_of_pure. by apply Forall2_fmap_l.
  - intros pre t post s' -> Hpre Ht.
    cbn [should_fire AfterFirst ParallelTriggerFn]. unfold enumerate.
    rewrite enumerate_from_app, fmap_app. cbn [enumerate_from fmap list_fmap].
    apply py_any_of_first; [|done].
    by apply Forall_fmap.
Qed.
